(** * PyIDVerify: the resilience layer around outbound service calls

    A shallow embedding of [integrations/external.py] (circuit breaker,
    retry loop, [ExternalAPIClient.call_api]) and of [utils/caching.py]
    ([LRUCache], [TTLCache]), with the properties of the specification
    stated and settled against it.

    Conventions of the embedding.
    - Python [int] is [Z].  Clock readings and durations ([time.time()],
      [recovery_timeout], TTLs), which are floats in Python, are exact
      numbers of clock ticks, in [Z] as well.
    - A method that mutates [self] takes the object and returns the
      updated object.
    - Everything the program receives from outside is an oracle of the
      [World]: the n-th reading of [time.time()], and the outcome of the
      n-th HTTP request.
    - A Python exception is a value of [Exception]; code that can raise
      returns [Result A = Exception + A], and state changes made before a
      [raise] persist, as they do in Python.
    - Calls run one after the other: locks and [await] points do not show.
    - The audit logger is a collaborator outside these sources.  Its calls
      ([log_event], [log_api_call]) are taken to return without raising and
      are left out: they touch nothing of the state modelled here. *)

From Stdlib Require Import ZArith List String Bool Lia Arith DecimalString Permutation.
Import ListNotations.

Local Open Scope string_scope.
Local Open Scope list_scope.
Local Open Scope Z_scope.

(** ** Exceptions *)

Inductive ExceptionType : Type :=
| IntegrationError       (* core.exceptions / the fallback class of external.py *)
| ClientError            (* aiohttp.ClientError *)
| TimeoutError           (* asyncio.TimeoutError *)
| TypeError
| ValueError
| KeyError.

Record Exception : Type := mkException {
  exc_type : ExceptionType;
  exc_args : string        (* what [str(e)] returns *)
}.

Definition Result (A : Type) : Type := (Exception + A)%type.

(** [type(e).__name__] *)
Definition type_name (t : ExceptionType) : string :=
  match t with
  | IntegrationError => "IntegrationError"
  | ClientError => "ClientError"
  | TimeoutError => "TimeoutError"
  | TypeError => "TypeError"
  | ValueError => "ValueError"
  | KeyError => "KeyError"
  end.

Definition str (e : Exception) : string := exc_args e.

(** ** The world outside the program *)

(** What one HTTP request ([session.request] followed by
    [response.text()]) can come back with.  A connection failure raises
    [aiohttp.ClientError] or one of its subclasses; the retry treats them
    alike, and they are all modelled by the base class, whose name the
    model then gives for [type(e).__name__]. *)
Inductive Outcome : Type :=
| ConnectionFailed (message : string)   (* raises aiohttp.ClientError *)
| TimedOut (message : string)           (* raises asyncio.TimeoutError *)
| HttpResponse (status : Z) (text : string).

Record World : Type := mkWorld {
  clock : nat -> Z;           (* reading returned by the n-th [time.time()] *)
  ticks : nat;                (* number of [time.time()] calls so far *)
  transport : nat -> Outcome; (* outcome of the n-th HTTP request *)
  requests : nat              (* number of HTTP requests issued so far *)
}.

(** The reading the next [time.time()] returns. *)
Definition now (w : World) : Z := clock w (ticks w).

Definition tick (w : World) : World :=
  mkWorld (clock w) (S (ticks w)) (transport w) (requests w).

(** The world after one more HTTP request. *)
Definition request_sent (w : World) : World :=
  mkWorld (clock w) (ticks w) (transport w) (S (requests w)).

(** The outcomes on which the request raises a transport exception
    ([aiohttp.ClientError], [asyncio.TimeoutError]) instead of returning a
    response. *)
Definition transient (o : Outcome) : bool :=
  match o with
  | ConnectionFailed _ | TimedOut _ => true
  | HttpResponse _ _ => false
  end.

(** [str(e)] of the exception a transient outcome raises. *)
Definition raised_text (o : Outcome) : string :=
  match o with
  | ConnectionFailed message | TimedOut message => message
  | HttpResponse _ _ => ""
  end.

(** Computations that read the clock but cannot raise. *)
Definition M (A : Type) : Type := World -> A * World.

Definition ret {A} (a : A) : M A := fun w => (a, w).

Definition bind {A B} (m : M A) (k : A -> M B) : M B :=
  fun w => let (a, w') := m w in k a w'.

Declare Scope clock_scope.
Delimit Scope clock_scope with clock.
Notation "x <- m ;; k" := (bind m (fun x => k))
  (at level 61, m at next level, right associativity) : clock_scope.

(** [time.time()] *)
Definition time_time : M Z := fun w => (now w, tick w).

(** ** integrations/external.py: the circuit breaker *)

Inductive ServiceState : Type :=
| CLOSED       (* Service is healthy *)
| OPEN         (* Service is failing, requests blocked *)
| HALF_OPEN.   (* Testing if service is recovered *)

Record CircuitBreakerConfig : Type := mkCircuitBreakerConfig {
  failure_threshold : Z;    (* Number of failures before opening *)
  recovery_timeout : Z;     (* Seconds to wait before half-open *)
  success_threshold : Z     (* Successes needed to close from half-open *)
}.

(** [CircuitBreakerConfig()] with the dataclass defaults. *)
Definition default_breaker_config : CircuitBreakerConfig :=
  mkCircuitBreakerConfig 5 60 3.

Module CircuitBreaker.

Record t : Type := mk {
  config : CircuitBreakerConfig;
  state : ServiceState;
  failure_count : Z;
  success_count : Z;
  last_failure_time : Z;
  last_state_change : Z
}.

Definition __init__ (cfg : CircuitBreakerConfig) : M t :=
  (t0 <- time_time ;;
   ret (mk cfg CLOSED 0 0 0 t0))%clock.

Definition _transition_to_closed (self : t) : M t :=
  (t0 <- time_time ;;
   ret (mk (config self) CLOSED 0 0 (last_failure_time self) t0))%clock.

Definition _transition_to_open (self : t) : M t :=
  (t0 <- time_time ;;
   ret (mk (config self) OPEN (failure_count self) 0
           (last_failure_time self) t0))%clock.

Definition _transition_to_half_open (self : t) : M t :=
  (t0 <- time_time ;;
   ret (mk (config self) HALF_OPEN (failure_count self) 0
           (last_failure_time self) t0))%clock.

Definition can_execute (self : t) : M (bool * t) :=
  (current_time <- time_time ;;
   match state self with
   | CLOSED => ret (true, self)
   | OPEN =>
       if current_time - last_failure_time self >=? recovery_timeout (config self)
       then (self' <- _transition_to_half_open self ;; ret (true, self'))
       else ret (false, self)
   | HALF_OPEN => ret (true, self)
   end)%clock.

Definition record_success (self : t) : M t :=
  match state self with
  | HALF_OPEN =>
      let self1 := mk (config self) (state self) (failure_count self)
                      (success_count self + 1)
                      (last_failure_time self) (last_state_change self) in
      if success_count self1 >=? success_threshold (config self1)
      then _transition_to_closed self1
      else ret self1
  | CLOSED =>
      ret (mk (config self) (state self) 0 (success_count self)
              (last_failure_time self) (last_state_change self))
  | OPEN => ret self
  end.

Definition record_failure (self : t) : M t :=
  (t0 <- time_time ;;
   let self1 := mk (config self) (state self) (failure_count self + 1)
                   (success_count self) t0 (last_state_change self) in
   match state self1 with
   | CLOSED =>
       if failure_count self1 >=? failure_threshold (config self1)
       then _transition_to_open self1
       else ret self1
   | HALF_OPEN => _transition_to_open self1
   | OPEN => ret self1
   end)%clock.

(** An open breaker has no success counted: the breaker is built closed
    with none, every transition into [OPEN] clears the counter, and a
    success is counted only while [HALF_OPEN]. *)
Definition consistent (self : t) : Prop :=
  state self = OPEN -> success_count self = 0.

(** [n] consecutive calls of one method on the same breaker. *)
Fixpoint repeatedly (n : nat) (method : t -> M t) (self : t) : M t :=
  match n with
  | O => ret self
  | S n' => (self' <- method self ;; repeatedly n' method self')%clock
  end.

(** [state.value] *)
Definition state_value (s : ServiceState) : string :=
  match s with
  | CLOSED => "closed"
  | OPEN => "open"
  | HALF_OPEN => "half_open"
  end.

(** The dictionary [get_state] returns.  Clock readings are integers
    here; the source computes [time_until_half_open] in floating point, by
    an expression other than the comparison of [can_execute], so that the
    two can round differently at the boundary. *)
Record StateReport : Type := mkStateReport {
  reported_state : string;
  reported_failure_count : Z;
  reported_success_count : Z;
  reported_last_failure_time : Z;
  reported_last_state_change : Z;
  time_until_half_open : Z
}.

Definition get_state (self : t) : M StateReport :=
  (t0 <- time_time ;;
   ret (mkStateReport (state_value (state self)) (failure_count self)
          (success_count self) (last_failure_time self)
          (last_state_change self)
          (Z.max 0 ((last_failure_time self + recovery_timeout (config self)) - t0))))%clock.

(** What a caller reports to the breaker after a request. *)
Inductive Report : Type := Succeeded | Failed.

Definition record (r : Report) : t -> M t :=
  match r with
  | Succeeded => record_success
  | Failed => record_failure
  end.

(** The reports of a run of requests, recorded one after the other. *)
Fixpoint record_all (rs : list Report) (self : t) : M t :=
  match rs with
  | [] => ret self
  | r :: rs' => (self' <- record r self ;; record_all rs' self')%clock
  end.

(** The calls a client can make on a breaker. *)
Inductive Call : Type := CanExecute | RecordSuccess | RecordFailure.

Definition perform (c : Call) (self : t) : M t :=
  match c with
  | CanExecute => (r <- can_execute self ;; ret (snd r))%clock
  | RecordSuccess => record_success self
  | RecordFailure => record_failure self
  end.

Fixpoint perform_all (cs : list Call) (self : t) : M t :=
  match cs with
  | [] => ret self
  | c :: cs' => (self' <- perform c self ;; perform_all cs' self')%clock
  end.

(** What every breaker built by [__init__] satisfies, whatever is called on
    it, when both thresholds are positive. *)
Definition well_formed (self : t) : Prop :=
  0 <= failure_count self /\
  0 <= success_count self /\
  (state self <> HALF_OPEN -> success_count self = 0) /\
  (state self = CLOSED -> failure_count self < failure_threshold (config self)) /\
  (state self = HALF_OPEN -> success_count self < success_threshold (config self)).

End CircuitBreaker.

(** ** security/rate_limiting.py: the rate limiter *)

Module RateLimiter.

Record t : Type := mk {
  max_requests : Z;
  time_window : Z;
  window_start : Z;
  count : Z
}.

(** Modelled from the spec: the module [security/rate_limiting.py] that
    [external.py] imports [RateLimiter] from is not part of the sources.
    The constructor takes the two keyword arguments [external.py] passes;
    the first window starts when the limiter is built, with no request
    counted. *)
Definition __init__ (max_requests time_window : Z) : M t :=
  (t0 <- time_time ;; ret (mk max_requests time_window t0 0))%clock.

(** Modelled from the spec: [RateLimiter.allow_request] is not part of the
    sources.  Section 4.1: if [now - windowStart >= windowDuration], reset
    the counter to 0 and [windowStart] to now (lazy rollover, evaluated on
    each call); then if [count < maxRequests], increment the count and
    return true, else return false.  The limiter is keyed by instance, so
    the identifier does not influence the answer. *)
Definition allow_request (identifier : string) (self : t) : M (bool * t) :=
  (current_time <- time_time ;;
   let self1 :=
     if current_time - window_start self >=? time_window self
     then mk (max_requests self) (time_window self) current_time 0
     else self in
   if count self1 <? max_requests self1
   then ret (true, mk (max_requests self1) (time_window self1)
                      (window_start self1) (count self1 + 1))
   else ret (false, self1))%clock.

End RateLimiter.

(** ** utils/caching.py *)

(** [CacheStats]; the derived float [hit_rate] (hits / (hits + misses) * 100)
    and [memory_usage_bytes], which no cache ever writes, are left out. *)
Record CacheStats : Type := mkCacheStats {
  hits : Z;
  misses : Z;
  evictions : Z;
  current_size : Z;
  max_size : Z
}.

Definition new_stats (maxsize : Z) : CacheStats := mkCacheStats 0 0 0 0 maxsize.

Definition count_hit (s : CacheStats) : CacheStats :=
  mkCacheStats (hits s + 1) (misses s) (evictions s) (current_size s) (max_size s).

Definition count_miss (s : CacheStats) : CacheStats :=
  mkCacheStats (hits s) (misses s + 1) (evictions s) (current_size s) (max_size s).

Definition count_evictions (n : Z) (s : CacheStats) : CacheStats :=
  mkCacheStats (hits s) (misses s) (evictions s + n) (current_size s) (max_size s).

Definition with_current_size (n : Z) (s : CacheStats) : CacheStats :=
  mkCacheStats (hits s) (misses s) (evictions s) n (max_size s).

(** Python dictionaries ([dict], [OrderedDict]) as association lists in
    iteration order: oldest insertion first, one entry per key. *)
Section Dict.

Context {K X : Type}.
Variable K_eqb : K -> K -> bool.

(** [key in d] *)
Definition contains (key : K) (d : list (K * X)) : bool :=
  existsb (fun kv => K_eqb key (fst kv)) d.

(** [d[key]], when the key is there *)
Fixpoint getitem (key : K) (d : list (K * X)) : option X :=
  match d with
  | [] => None
  | (k, x) :: d' => if K_eqb key k then Some x else getitem key d'
  end.

(** [del d[key]] (also the dictionary left by [d.pop(key)]) *)
Definition delitem (key : K) (d : list (K * X)) : list (K * X) :=
  filter (fun kv => negb (K_eqb key (fst kv))) d.

(** [d[key] = x]: an existing key keeps its position, a new key goes to
    the end *)
Fixpoint setitem (key : K) (x : X) (d : list (K * X)) : list (K * X) :=
  match d with
  | [] => [(key, x)]
  | (k, y) :: d' =>
      if K_eqb key k then (k, x) :: d' else (k, y) :: setitem key x d'
  end.

(** [len(d)] *)
Definition len (d : list (K * X)) : Z := Z.of_nat (List.length d).

(** [d.keys()] *)
Definition dict_keys (d : list (K * X)) : list K := map fst d.

End Dict.

Module LRUCache.
Section WithTypes.

Context {K V : Type}.
Variable K_eqb : K -> K -> bool.

Record t : Type := mk {
  _maxsize : Z;
  _cache : list (K * V);      (* OrderedDict: least recently used first *)
  _stats : CacheStats
}.

Definition __init__ (maxsize : Z) : Result t :=
  if maxsize <=? 0
  then inl (mkException ValueError "maxsize must be positive")
  else inr (mk maxsize [] (new_stats maxsize)).

Definition get (key : K) (default : option V) (self : t) : option V * t :=
  match getitem K_eqb key (_cache self) with
  | Some value =>
      (* Move to end (most recently used) *)
      let d := delitem K_eqb key (_cache self) in
      let d := setitem K_eqb key value d in
      (Some value, mk (_maxsize self) d (count_hit (_stats self)))
  | None =>
      (default, mk (_maxsize self) (_cache self) (count_miss (_stats self)))
  end.

(** [OrderedDict.popitem(last=False)] *)
Definition popitem_first (d : list (K * V)) : Result ((K * V) * list (K * V)) :=
  match d with
  | [] => inl (mkException KeyError "'dictionary is empty'")
  | kv :: d' => inr (kv, d')
  end.

(** The formal parameters of [set] after [self]. *)
Definition set_parameters : list string := ["key"; "value"].

Definition set (key : K) (value : V) (self : t) : Result t :=
  let finish (d : list (K * V)) (s : CacheStats) : t :=
    let d := setitem K_eqb key value d in
    mk (_maxsize self) d (with_current_size (len d) s) in
  if contains K_eqb key (_cache self) then
    (* Update existing key *)
    inr (finish (delitem K_eqb key (_cache self)) (_stats self))
  else if len (_cache self) >=? _maxsize self then
    (* Evict least recently used *)
    match popitem_first (_cache self) with
    | inl e => inl e
    | inr (_, d) => inr (finish d (count_evictions 1 (_stats self)))
    end
  else inr (finish (_cache self) (_stats self)).

Definition delete (key : K) (self : t) : bool * t :=
  if contains K_eqb key (_cache self) then
    let d := delitem K_eqb key (_cache self) in
    (true, mk (_maxsize self) d (with_current_size (len d) (_stats self)))
  else (false, self).

Definition clear (self : t) : t :=
  (* the eviction counter is advanced by the length of the emptied dict *)
  mk (_maxsize self) []
     (count_evictions (len (@nil (K * V))) (with_current_size 0 (_stats self))).

Definition size (self : t) : Z := len (_cache self).

Definition keys (self : t) : list K := dict_keys (_cache self).

Definition stats (self : t) : CacheStats * t :=
  let s := with_current_size (len (_cache self)) (_stats self) in
  (s, mk (_maxsize self) (_cache self) s).

End WithTypes.
End LRUCache.

Arguments LRUCache.t : clear implicits.

Module TTLCache.
Section WithTypes.

Context {K V : Type}.
Variable K_eqb : K -> K -> bool.

Record t : Type := mk {
  _maxsize : Z;
  _default_ttl : Z;
  _cache : list (K * (V * Z));     (* value, expiry_time *)
  _stats : CacheStats
}.

Definition __init__ (maxsize default_ttl : Z) : Result t :=
  if maxsize <=? 0
  then inl (mkException ValueError "maxsize must be positive")
  else if default_ttl <=? 0
  then inl (mkException ValueError "default_ttl must be positive")
  else inr (mk maxsize default_ttl [] (new_stats maxsize)).

Definition get (key : K) (default : option V) (self : t) : M (option V * t) :=
  (current_time <- time_time ;;
   let miss (d : list (K * (V * Z))) (s : CacheStats) :=
     ret (default, mk (_maxsize self) (_default_ttl self) d (count_miss s)) in
   match getitem K_eqb key (_cache self) with
   | Some (value, expiry_time) =>
       if current_time <? expiry_time
       then ret (Some value,
                 mk (_maxsize self) (_default_ttl self) (_cache self)
                    (count_hit (_stats self)))
       else
         (* Expired - remove from cache *)
         miss (delitem K_eqb key (_cache self))
              (count_evictions 1 (_stats self))
   | None => miss (_cache self) (_stats self)
   end)%clock.

Definition _clean_expired (self : t) : M t :=
  (current_time <- time_time ;;
   let expired (kv : K * (V * Z)) := current_time >=? snd (snd kv) in
   let expired_keys := filter expired (_cache self) in
   ret (mk (_maxsize self) (_default_ttl self)
           (filter (fun kv => negb (expired kv)) (_cache self))
           (count_evictions (len expired_keys) (_stats self))))%clock.

(** [min(d.keys(), key=lambda k: d[k][1])]: the first key, in iteration
    order, whose expiry time is minimal; [None] stands for the
    [ValueError] that [min] raises on an empty sequence. *)
Fixpoint earliest_expiry (d : list (K * (V * Z))) : option (K * Z) :=
  match d with
  | [] => None
  | (k, (_, e)) :: d' =>
      match earliest_expiry d' with
      | Some (k', e') => if e' <? e then Some (k', e') else Some (k, e)
      | None => Some (k, e)
      end
  end.

Definition set (key : K) (value : V) (ttl : option Z) (self : t)
  : M (Result t) :=
  (let ttl := match ttl with Some x => x | None => _default_ttl self end in
   t0 <- time_time ;;
   let expiry_time := t0 + ttl in
   (* Clean expired items if at capacity *)
   self1 <- (if len (_cache self) >=? _maxsize self
             then _clean_expired self else ret self) ;;
   let finish (d : list (K * (V * Z))) (s : CacheStats) : t :=
     let d := setitem K_eqb key (value, expiry_time) d in
     mk (_maxsize self1) (_default_ttl self1) d (with_current_size (len d) s) in
   (* If still at capacity, remove oldest item *)
   if (len (_cache self1) >=? _maxsize self1)
      && negb (contains K_eqb key (_cache self1))
   then
     match earliest_expiry (_cache self1) with
     | None => ret (inl (mkException ValueError "min() arg is an empty sequence"))
     | Some (oldest_key, _) =>
         ret (inr (finish (delitem K_eqb oldest_key (_cache self1))
                          (count_evictions 1 (_stats self1))))
     end
   else ret (inr (finish (_cache self1) (_stats self1))))%clock.

Definition delete (key : K) (self : t) : bool * t :=
  if contains K_eqb key (_cache self) then
    let d := delitem K_eqb key (_cache self) in
    (true, mk (_maxsize self) (_default_ttl self) d
              (with_current_size (len d) (_stats self)))
  else (false, self).

Definition clear (self : t) : t :=
  let eviction_count := len (_cache self) in
  mk (_maxsize self) (_default_ttl self) []
     (count_evictions eviction_count (with_current_size 0 (_stats self))).

(** Returns the number of items removed. *)
Definition cleanup (self : t) : M (Z * t) :=
  (let initial_size := len (_cache self) in
   self1 <- _clean_expired self ;;
   ret (initial_size - len (_cache self1),
        mk (_maxsize self1) (_default_ttl self1) (_cache self1)
           (with_current_size (len (_cache self1)) (_stats self1))))%clock.

Definition stats (self : t) : CacheStats * t :=
  let s := with_current_size (len (_cache self)) (_stats self) in
  (s, mk (_maxsize self) (_default_ttl self) (_cache self) s).

End WithTypes.
End TTLCache.

Arguments TTLCache.t : clear implicits.

(** ** Histories of a TTL cache *)

Section TTLHistory.

Context {K V : Type}.
Variable K_eqb : K -> K -> bool.

Inductive TTLOperation : Type :=
| TTLGet (key : K) (default : option V)
| TTLSet (key : K) (value : V) (ttl : option Z)
| TTLDelete (key : K)
| TTLClear
| TTLCleanup.

Definition ttl_perform (op : TTLOperation) (c : TTLCache.t K V)
  : M (Result (TTLCache.t K V)) :=
  match op with
  | TTLGet key default =>
      (r <- TTLCache.get K_eqb key default c ;; ret (inr (snd r)))%clock
  | TTLSet key value ttl => TTLCache.set K_eqb key value ttl c
  | TTLDelete key => ret (inr (snd (TTLCache.delete K_eqb key c)))
  | TTLClear => ret (inr (TTLCache.clear c))
  | TTLCleanup => (r <- TTLCache.cleanup c ;; ret (inr (snd r)))%clock
  end.

(** Performs the operations in turn, up to the first one that raises. *)
Fixpoint ttl_run (ops : list TTLOperation) (c : TTLCache.t K V)
  : M (Result (TTLCache.t K V)) :=
  match ops with
  | [] => ret (inr c)
  | op :: ops' =>
      fun w =>
        match ttl_perform op c w with
        | (inl e, w') => (inl e, w')
        | (inr c', w') => ttl_run ops' c' w'
        end
  end.

End TTLHistory.

Arguments TTLOperation : clear implicits.

(** ** Histories of an LRU cache

    To say which entry is the least recently accessed one, the operations
    performed on a cache are numbered, and next to the cache runs a record of
    the number of the last access to each key.  An access is what refreshes
    the recency of an entry: a [set] of the key, or a [get] of it that hits. *)
Section LRUHistory.

Context {K V : Type}.
Variable K_eqb : K -> K -> bool.

Inductive Operation : Type :=
| DoGet (key : K) (default : option V)
| DoSet (key : K) (value : V)
| DoDelete (key : K)
| DoClear.

Definition perform (op : Operation) (c : LRUCache.t K V) : Result (LRUCache.t K V) :=
  match op with
  | DoGet key default => inr (snd (LRUCache.get K_eqb key default c))
  | DoSet key value => LRUCache.set K_eqb key value c
  | DoDelete key => inr (snd (LRUCache.delete K_eqb key c))
  | DoClear => inr (LRUCache.clear c)
  end.

(** The key whose entry the operation accesses, if any. *)
Definition accessed (op : Operation) (c : LRUCache.t K V) : option K :=
  match op with
  | DoGet key _ => if contains K_eqb key (LRUCache._cache c) then Some key else None
  | DoSet key _ => Some key
  | DoDelete _ | DoClear => None
  end.

Definition touch (key : option K) (step : nat) (last_access : K -> nat) : K -> nat :=
  match key with
  | Some k => fun k' => if K_eqb k' k then step else last_access k'
  | None => last_access
  end.

(** Performs the operations in turn, the first one being number [step];
    returns the cache and the number of the last access to each key. *)
Fixpoint run (ops : list Operation) (step : nat) (c : LRUCache.t K V)
         (last_access : K -> nat) : Result (LRUCache.t K V * (K -> nat)) :=
  match ops with
  | [] => inr (c, last_access)
  | op :: ops' =>
      match perform op c with
      | inl e => inl e
      | inr c' => run ops' (S step) c' (touch (accessed op c) step last_access)
      end
  end.

(** The entries are in the order of their last access, oldest first. *)
Fixpoint by_recency (last_access : K -> nat) (d : list (K * V)) : Prop :=
  match d with
  | [] => True
  | kv :: d' =>
      (forall kv', In kv' d' -> (last_access (fst kv) < last_access (fst kv'))%nat)
      /\ by_recency last_access d'
  end.

(** What holds of a cache of capacity [n] and of the record of last
    accesses before operation number [step] is performed. *)
Definition lru_invariant (n : Z) (step : nat) (c : LRUCache.t K V)
           (last_access : K -> nat) : Prop :=
  1 <= n /\
  LRUCache._maxsize c = n /\
  len (LRUCache._cache c) <= n /\
  by_recency last_access (LRUCache._cache c) /\
  forall kv, In kv (LRUCache._cache c) -> (last_access (fst kv) < step)%nat.

End LRUHistory.

Arguments Operation : clear implicits.



(** ** utils/caching.py: the secure cache *)

Module SecureCache.
Section WithLibrary.

Context {K V : Type}.

Local Abbreviation bytes := (list Byte.byte).

(** The library functions the cache calls. *)
Variable str_utf8 : K -> bytes.          (* [str(key).encode('utf-8')] *)
Variable blake2b_hexdigest : bytes -> bytes -> string.
                                         (* the digest, for a salt [blake2b] accepts *)
Variable token_bytes : nat -> bytes.     (* [secrets.token_bytes(n)] *)
Variable pickle_dumps : V -> option bytes.    (* [None]: raises *)
Variable pickle_loads : bytes -> option V.    (* [None]: raises *)

(** A [Fernet] cipher.  [encrypt] draws a fresh IV on every call; the
    function stands for the tokens it returns in one run.  [decrypt]
    returns [None] where it raises [InvalidToken]. *)
Record Fernet : Type := mkFernet {
  encrypt : bytes -> bytes;
  decrypt : bytes -> option bytes
}.

(** [Union[V, bytes]].  The values cached are taken not to be [bytes]
    objects themselves, so that [isinstance(x, bytes)] tells the two
    apart. *)
Inductive Stored : Type :=
| Plain (value : V)
| Token (token : bytes).

Record t : Type := mk {
  _maxsize : Z;
  _encrypt_values : bool;
  _key_salt : bytes;
  _cache : list (string * Stored);   (* OrderedDict, by hashed key *)
  _stats : CacheStats;
  _cipher : option Fernet
}.

(** [fernet] is the cipher [Fernet(Fernet.generate_key())] builds, [None]
    when importing [cryptography] fails. *)
Definition __init__ (maxsize : Z) (encrypt_values : bool)
           (key_salt : option bytes) (fernet : option Fernet) : Result t :=
  if maxsize <=? 0
  then inl (mkException ValueError "maxsize must be positive")
  else
    (* key_salt or secrets.token_bytes(32) *)
    let salt := match key_salt with
                | Some (b :: s) => b :: s
                | Some [] | None => token_bytes 32
                end in
    match (if encrypt_values then fernet else None) with
    | Some cipher => inr (mk maxsize true salt [] (new_stats maxsize) (Some cipher))
    | None => inr (mk maxsize false salt [] (new_stats maxsize) None)
    end.

(** [hashlib.blake2b.SALT_SIZE] *)
Definition SALT_SIZE : nat := 16.

(** [hashlib.blake2b(data, salt=salt).hexdigest()] *)
Definition blake2b (data salt : bytes) : Result string :=
  if (SALT_SIZE <? List.length salt)%nat
  then inl (mkException ValueError "maximum salt length is 16 bytes")
  else inr (blake2b_hexdigest data salt).

Definition _hash_key (key : K) (self : t) : Result string :=
  let key_str := str_utf8 key in
  blake2b key_str (_key_salt self).

Definition _encrypt_value (value : V) (self : t) : Stored :=
  match _encrypt_values self, _cipher self with
  | true, Some cipher =>
      match pickle_dumps value with
      | Some serialized => Token (encrypt cipher serialized)
      | None => Plain value      (* Fall back to unencrypted storage *)
      end
  | _, _ => Plain value
  end.

Definition _decrypt_value (encrypted_value : Stored) (self : t) : Stored :=
  match _encrypt_values self, _cipher self, encrypted_value with
  | true, Some cipher, Token token =>
      match decrypt cipher token with
      | Some decrypted =>
          match pickle_loads decrypted with
          | Some value => Plain value
          | None => encrypted_value
          end
      | None => encrypted_value  (* assume it wasn't encrypted *)
      end
  | _, _, _ => encrypted_value
  end.

Definition get (key : K) (default : option V) (self : t)
  : Result (option Stored * t) :=
  match _hash_key key self with
  | inl e => inl e
  | inr hashed_key =>
      match getitem String.eqb hashed_key (_cache self) with
      | Some encrypted_value =>
          let d := delitem String.eqb hashed_key (_cache self) in
          let d := setitem String.eqb hashed_key encrypted_value d in  (* Move to end *)
          let value := _decrypt_value encrypted_value self in
          inr (Some value,
               mk (_maxsize self) (_encrypt_values self) (_key_salt self) d
                  (count_hit (_stats self)) (_cipher self))
      | None =>
          inr (option_map Plain default,
               mk (_maxsize self) (_encrypt_values self) (_key_salt self)
                  (_cache self) (count_miss (_stats self)) (_cipher self))
      end
  end.

Definition set (key : K) (value : V) (self : t) : Result t :=
  match _hash_key key self with
  | inl e => inl e
  | inr hashed_key =>
      let encrypted_value := _encrypt_value value self in
      let finish (d : list (string * Stored)) (s : CacheStats) : t :=
        let d := setitem String.eqb hashed_key encrypted_value d in
        mk (_maxsize self) (_encrypt_values self) (_key_salt self) d
           (with_current_size (len d) s) (_cipher self) in
      if contains String.eqb hashed_key (_cache self) then
        inr (finish (delitem String.eqb hashed_key (_cache self)) (_stats self))
      else if len (_cache self) >=? _maxsize self then
        (* Evict least recently used *)
        match LRUCache.popitem_first (_cache self) with
        | inl e => inl e
        | inr (_, d) => inr (finish d (count_evictions 1 (_stats self)))
        end
      else inr (finish (_cache self) (_stats self))
  end.

Definition delete (key : K) (self : t) : Result (bool * t) :=
  match _hash_key key self with
  | inl e => inl e
  | inr hashed_key =>
      if contains String.eqb hashed_key (_cache self) then
        let d := delitem String.eqb hashed_key (_cache self) in
        inr (true, mk (_maxsize self) (_encrypt_values self) (_key_salt self) d
                      (with_current_size (len d) (_stats self)) (_cipher self))
      else inr (false, self)
  end.

Definition clear (self : t) : t :=
  let eviction_count := len (_cache self) in
  mk (_maxsize self) (_encrypt_values self) (_key_salt self) []
     (count_evictions eviction_count (with_current_size 0 (_stats self)))
     (_cipher self).

End WithLibrary.
End SecureCache.

Arguments SecureCache.t : clear implicits.
Arguments SecureCache.Stored : clear implicits.
Arguments SecureCache.Plain {V}.
Arguments SecureCache.Token {V}.

(** ** utils/caching.py: the [cache_result] decorator *)

Inductive CacheStrategy : Type :=
| LRU | FIFO | TTL | SECURE.

Section CacheResult.

Context {A R : Type}.

Local Abbreviation bytes := (list Byte.byte).

(** The decorated function on the arguments of a call: the value it
    returns, [None] for Python's [None], or the exception it raises.  It is
    taken to be a function of its arguments alone. *)
Variable func : A -> Result (option R).

(** [str(args) + str(sorted(kwargs.items()))] *)
Variable key_of : A -> string.

(** The library of the secure cache, for string keys. *)
Variable str_utf8 : string -> bytes.
Variable blake2b_hexdigest : bytes -> bytes -> string.
Variable token_bytes : nat -> bytes.
Variable pickle_dumps : option R -> option bytes.
Variable pickle_loads : bytes -> option (option R).
Variable fernet : option SecureCache.Fernet.

(** [func_cache], which is a [TTLCache] exactly when the strategy is
    [TTL] and a [SecureCache] exactly when it is [SECURE]. *)
Inductive FuncCache : Type :=
| OfLRUCache (c : LRUCache.t string (option R))
| OfTTLCache (c : TTLCache.t string (option R))
| OfSecureCache (c : SecureCache.t (option R)).

(** [decorator(func)] up to the definition of [wrapper]: the cache that
    the wrapper closes over. *)
Definition decorator (maxsize : Z) (ttl : option Z) (strategy : CacheStrategy)
  : Result FuncCache :=
  let lru := match LRUCache.__init__ maxsize with
             | inl e => inl e
             | inr c => inr (OfLRUCache c)
             end in
  match strategy with
  | LRU => lru
  | TTL =>
      (* default_ttl=ttl or 3600 *)
      let default_ttl := match ttl with
                         | Some 0 | None => 3600
                         | Some t => t
                         end in
      match TTLCache.__init__ maxsize default_ttl with
      | inl e => inl e
      | inr c => inr (OfTTLCache c)
      end
  | SECURE =>
      match SecureCache.__init__ token_bytes maxsize true None fernet with
      | inl e => inl e
      | inr c => inr (OfSecureCache c)
      end
  | FIFO => lru
  end.

(** What a call of the wrapper returns. *)
Inductive Returned : Type :=
| Value (r : R)
| RawToken (token : bytes)     (* a token the secure cache could not decrypt *)
| PyNone.

(** [result is not None] *)
Definition is_not_None (result : Returned) : bool :=
  match result with
  | PyNone => false
  | _ => true
  end.

Definition of_value (v : option R) : Returned :=
  match v with
  | Some r => Value r
  | None => PyNone
  end.

(** [func_cache.get(key)] *)
Definition cache_get (key : string) (fc : FuncCache)
  : M (Result (Returned * FuncCache)) :=
  match fc with
  | OfLRUCache c =>
      let r := LRUCache.get String.eqb key None c in
      ret (inr (match fst r with
                | Some v => of_value v
                | None => PyNone
                end, OfLRUCache (snd r)))
  | OfTTLCache c =>
      (r <- TTLCache.get String.eqb key None c ;;
       ret (inr (match fst r with
                 | Some v => of_value v
                 | None => PyNone
                 end, OfTTLCache (snd r))))%clock
  | OfSecureCache c =>
      ret (match SecureCache.get str_utf8 blake2b_hexdigest pickle_loads
                   key None c with
           | inl e => inl e
           | inr (r, c') =>
               inr (match r with
                    | Some (SecureCache.Plain v) => of_value v
                    | Some (SecureCache.Token token) => RawToken token
                    | None => PyNone
                    end, OfSecureCache c')
           end)
  end.

(** [func_cache.set(key, result, ttl)] if the strategy is [TTL], else
    [func_cache.set(key, result)] *)
Definition cache_set (ttl : option Z) (key : string) (result : option R)
           (fc : FuncCache) : M (Result FuncCache) :=
  match fc with
  | OfTTLCache c =>
      (r <- TTLCache.set String.eqb key result ttl c ;;
       ret (match r with
            | inl e => inl e
            | inr c' => inr (OfTTLCache c')
            end))%clock
  | OfLRUCache c =>
      ret (match LRUCache.set String.eqb key result c with
           | inl e => inl e
           | inr c' => inr (OfLRUCache c')
           end)
  | OfSecureCache c =>
      ret (match SecureCache.set str_utf8 blake2b_hexdigest pickle_dumps
                   key result c with
           | inl e => inl e
           | inr c' => inr (OfSecureCache c')
           end)
  end.

(** The wrapper with its cache, and next to it the arguments of the calls
    made to the decorated function so far, oldest first. *)
Record Wrapped : Type := mkWrapped {
  func_cache : FuncCache;
  func_calls : list A
}.

Definition wrapper (ttl : option Z) (args : A) (s : Wrapped)
  : M (Result Returned * Wrapped) :=
  ((* Create cache key from arguments *)
   let key := key_of args in
   (* Try to get from cache *)
   got <- cache_get key (func_cache s) ;;
   match got with
   | inl e => ret (inl e, s)
   | inr (result, fc1) =>
       if is_not_None result
       then ret (inr result, mkWrapped fc1 (func_calls s))
       else
         (* Call function and cache result *)
         let s1 := mkWrapped fc1 (func_calls s ++ [args]) in
         match func args with
         | inl e => ret (inl e, s1)
         | inr result =>
             stored <- cache_set ttl key result fc1 ;;
             match stored with
             | inl e => ret (inl e, s1)
             | inr fc2 =>
                 ret (inr (of_value result),
                      mkWrapped fc2 (func_calls s ++ [args]))
             end
         end
   end)%clock.

(** The calls of the wrapper for the argument tuples of a list, one
    after the other. *)
Fixpoint wrapper_all (ttl : option Z) (calls : list A) (s : Wrapped)
  : M (list (Result Returned) * Wrapped) :=
  match calls with
  | [] => ret ([], s)
  | args :: calls' =>
      (r <- wrapper ttl args s ;;
       rs <- wrapper_all ttl calls' (snd r) ;;
       ret (fst r :: fst rs, snd rs))%clock
  end.

(** What the decorated function itself gives on the arguments. *)
Definition undecorated (args : A) : Result Returned :=
  match func args with
  | inl e => inl e
  | inr result => inr (of_value result)
  end.

(** The calls whose result the wrapper does not keep: the function raised
    or returned [None]. *)
Definition not_kept (args : A) : bool :=
  match func args with
  | inr (Some _) => false
  | _ => true
  end.

End CacheResult.

Arguments FuncCache : clear implicits.
Arguments Returned : clear implicits.
Arguments Wrapped : clear implicits.

(** ** integrations/external.py: the API client *)

Inductive APIProvider : Type :=
| JUMIO | ONFIDO | EXPERIAN | EQUIFAX | WHITEPAGES | TRULIOO | CUSTOM.

(** [provider.value] *)
Definition provider_value (p : APIProvider) : string :=
  match p with
  | JUMIO => "jumio"
  | ONFIDO => "onfido"
  | EXPERIAN => "experian"
  | EQUIFAX => "equifax"
  | WHITEPAGES => "whitepages"
  | TRULIOO => "trulioo"
  | CUSTOM => "custom"
  end.

(** [APIConfiguration], without the fields that only shape the HTTP request
    (URL, credentials, headers, TLS, request timeout) and without the float
    [retry_backoff_factor], which no code reads. *)
Record APIConfiguration : Type := mkAPIConfiguration {
  provider : APIProvider;
  max_retries : Z;
  rate_limit_per_minute : Z;
  use_circuit_breaker : bool;
  cache_ttl_seconds : Z;
  enable_audit_logging : bool
}.

(** The dataclass defaults of [APIConfiguration]. *)
Definition default_configuration (p : APIProvider) : APIConfiguration :=
  mkAPIConfiguration p 3 60 true 3600 true.

(** How Python binds the arguments of a call [f(a1, .., an, kw1=.., ..)]
    against the formal parameters of [f]: the positional arguments take the
    first [n] parameters and every keyword has to name one of the others;
    otherwise the call raises [TypeError] before the body runs. *)
Definition binds (parameters : list string) (positional : nat)
                 (keywords : list string) : bool :=
  (positional <=? List.length parameters)%nat
  && forallb (fun kw => existsb (String.eqb kw) (skipn positional parameters))
             keywords.

(** Values stored in the [metadata] dictionary of a response. *)
Inductive MetaValue : Type :=
| MetaStr (s : string)
| MetaBool (b : bool).

(** The [data] dictionary of a response, over the type of JSON values. *)
Inductive ResponseData (Data : Type) : Type :=
| Decoded (d : Data)               (* [json.loads(response_text)] *)
| RawResponse (text : string)      (* [{'raw_response': response_text}] *)
| NoData.                          (* [{}] *)

Arguments Decoded {Data} d.
Arguments RawResponse {Data} text.
Arguments NoData {Data}.

Record ExternalServiceResponse (Data : Type) : Type := mkExternalServiceResponse {
  success : bool;
  data : ResponseData Data;
  error_message : option string;
  response_time_ms : Z;
  cached : bool;
  response_provider : string;
  api_call_count : Z;
  metadata : list (string * MetaValue)
}.

Arguments mkExternalServiceResponse {Data}.
Arguments success {Data} r : rename.
Arguments data {Data} r : rename.
Arguments error_message {Data} r : rename.
Arguments response_time_ms {Data} r : rename.
Arguments cached {Data} r : rename.
Arguments response_provider {Data} r : rename.
Arguments api_call_count {Data} r : rename.
Arguments metadata {Data} r : rename.

(** [response.cached = True] *)
Definition mark_cached {Data} (r : ExternalServiceResponse Data)
  : ExternalServiceResponse Data :=
  mkExternalServiceResponse (success r) (data r) (error_message r)
    (response_time_ms r) true (response_provider r) (api_call_count r)
    (metadata r).

Module ExternalAPIClient.
Section WithLibrary.

(** [_IMPORTS_AVAILABLE]: whether the imports at the head of
    [external.py] (encryption, audit, rate limiting, caching) succeeded. *)
Variable _IMPORTS_AVAILABLE : bool.

(** JSON: the type of request payloads and decoded response bodies, with
    the library functions the client calls on them. *)
Variable Data : Type.
Variable truthy : Data -> bool.                      (* [if data] *)
Variable json_dumps : bool -> Data -> Result string. (* [json.dumps(data, sort_keys=b)];
                                                        [TypeError] when not serializable *)
Variable json_loads : string -> option Data.         (* [None]: [JSONDecodeError] *)
Variable sha256_hexdigest : string -> string.        (* [hashlib.sha256(s.encode()).hexdigest()] *)

(** The client, without the audit logger, the encryption manager and the
    TLS context: none of them is read or written by the code below in a
    way that shows in the rest of the state. *)
Record t : Type := mk {
  config : APIConfiguration;
  circuit_breaker : option CircuitBreaker.t;
  rate_limiter : RateLimiter.t;
  response_cache : LRUCache.t string (ExternalServiceResponse Data);
  call_count : Z;
  total_response_time : Z;
  error_count : Z
}.

(** Computations of the client: they read and write the client and the
    world, and may raise. *)
Definition E (A : Type) : Type :=
  t * World -> Result A * (t * World).

Definition pure {A} (a : A) : E A := fun s => (inr a, s).

Definition raise {A} (e : Exception) : E A := fun s => (inl e, s).

Definition bindE {A B} (m : E A) (k : A -> E B) : E B :=
  fun s => match m s with
           | (inr a, s') => k a s'
           | (inl e, s') => (inl e, s')
           end.

(** [try: body  except Exception as e: handler(e)] *)
Definition try_except {A} (body : E A) (handler : Exception -> E A) : E A :=
  fun s => match body s with
           | (inr a, s') => (inr a, s')
           | (inl e, s') => handler e s'
           end.

Definition lift {A} (m : M A) : E A :=
  fun '(self, w) => let (a, w') := m w in (inr a, (self, w')).

Definition of_result {A} (r : Result A) : E A := fun s => (r, s).

Definition get_self : E t := fun '(self, w) => (inr self, (self, w)).

Definition modify_self (f : t -> t) : E unit :=
  fun '(self, w) => (inr tt, (f self, w)).

Declare Scope py_scope.
Delimit Scope py_scope with py.
Notation "x <- m ;; k" := (bindE m (fun x => k))
  (at level 61, m at next level, right associativity) : py_scope.
Notation "m ;;; k" := (bindE m (fun _ => k))
  (at level 61, right associativity) : py_scope.

Definition with_circuit_breaker (cb : option CircuitBreaker.t)
           (self : t) : t :=
  mk (config self) cb (rate_limiter self)
    (response_cache self) (call_count self) (total_response_time self)
    (error_count self).

Definition with_rate_limiter (rl : RateLimiter.t)
           (self : t) : t :=
  mk (config self) (circuit_breaker self) rl
    (response_cache self) (call_count self) (total_response_time self)
    (error_count self).

Definition with_response_cache (c : LRUCache.t string (ExternalServiceResponse Data))
           (self : t) : t :=
  mk (config self) (circuit_breaker self) (rate_limiter self)
    c (call_count self) (total_response_time self) (error_count self).

Definition count_call (response_time : Z)
           (self : t) : t :=
  mk (config self) (circuit_breaker self) (rate_limiter self)
    (response_cache self) (call_count self + 1)
    (total_response_time self + response_time) (error_count self).

Definition count_error (self : t) : t :=
  mk (config self) (circuit_breaker self) (rate_limiter self)
    (response_cache self) (call_count self) (total_response_time self)
    (error_count self + 1).

(** [ExternalAPIClient.__init__].  [LRUCache(maxsize=1000)] cannot raise.
    Without the imports the attributes [rate_limiter] and [response_cache]
    are not created; the record then holds an idle limiter and an empty
    cache, which [call_api] never touches. *)
Definition __init__ (cfg : APIConfiguration) : M t :=
  (cb <- (if use_circuit_breaker cfg
          then (b <- CircuitBreaker.__init__ default_breaker_config ;; ret (Some b))
          else ret None) ;;
   rl <- (if _IMPORTS_AVAILABLE
          then RateLimiter.__init__ (rate_limit_per_minute cfg) 60
          else ret (RateLimiter.mk (rate_limit_per_minute cfg) 60 0 0)) ;;
   ret (mk cfg cb rl (LRUCache.mk 1000 [] (new_stats 1000)) 0 0 0))%clock.

(** [if self.circuit_breaker: self.circuit_breaker.method()] *)
Definition on_breaker (method : CircuitBreaker.t -> M CircuitBreaker.t) : E unit :=
  (self <- get_self ;;
   match circuit_breaker self with
   | Some cb =>
       cb' <- lift (method cb) ;;
       modify_self (with_circuit_breaker (Some cb'))
   | None => pure tt
   end)%py.

Definition _generate_cache_key (endpoint method : string) (data : option Data)
  : Result string :=
  let dumped : Result string :=
    match data with
    | Some d => if truthy d then json_dumps true d else inr ""
    | None => inr ""
    end in
  match dumped with
  | inl e => inl e
  | inr text =>
      let key_data := (endpoint ++ ":" ++ method ++ ":" ++ text)%string in
      inr (sha256_hexdigest key_data)
  end.

(** One HTTP request: [session.request(...)] and [response.text()]. *)
Definition send_request : E Outcome :=
  fun '(self, w) => (inr (transport w (requests w)), (self, request_sent w)).

(** [str(status)] *)
Definition str_int (z : Z) : string :=
  DecimalString.NilZero.string_of_int (Z.to_int z).

(** The body of [_execute_with_retry], which the [backoff] decorator
    wraps.  Building the URL and the headers cannot raise and is left out;
    the request that is sent does not influence its outcome, which the
    world decides. *)
Definition _execute_with_retry__wrapped__
           (endpoint method : string) (data : option Data)
           (headers : option (list (string * string))) : E (ResponseData Data) :=
  (payload <- of_result
                (match data with
                 | Some d =>
                     if truthy d
                     then match json_dumps false d with
                          | inl e => inl e
                          | inr text => inr (Some text)
                          end
                     else inr None
                 | None => inr None
                 end) ;;
   outcome <- send_request ;;
   match outcome with
   | ConnectionFailed message => raise (mkException ClientError message)
   | TimedOut message => raise (mkException TimeoutError message)
   | HttpResponse status response_text =>
       if status >=? 400
       then raise (mkException IntegrationError
                     ("API error " ++ str_int status ++ ": " ++ response_text)%string)
       else match json_loads response_text with
            | Some d => pure (Decoded d)
            | None => pure (RawResponse response_text)
            end
   end)%py.

(** The request payload can be serialized, so that the body gets as far as
    sending the request. *)
Definition payload_serializes (data : option Data) : Prop :=
  match data with
  | Some d => truthy d = true -> exists text, json_dumps false d = inr text
  | None => True
  end.

(** The retry loop of [backoff.on_exception(wait_gen, exception,
    max_tries)]: the target is called; an exception of one of the listed
    classes leads to another call after a sleep, unless [max_tries] calls
    have been made, in which case it is re-raised; any other exception
    propagates at once.  [tries_left] counts the calls still allowed after
    the current one. *)
Fixpoint retry {A} (exception : ExceptionType -> bool) (tries_left : nat)
         (target : E A) : E A :=
  fun s =>
    match target s with
    | (inr a, s') => (inr a, s')
    | (inl e, s') =>
        if exception (exc_type e)
        then match tries_left with
             | O => (inl e, s')
             | S n => retry exception n target s'
             end
        else (inl e, s')
    end.

Definition on_exception {A} (exception : ExceptionType -> bool)
           (max_tries : nat) (target : E A) : E A :=
  retry exception (Nat.pred max_tries) target.

(** [(aiohttp.ClientError, asyncio.TimeoutError)] *)
Definition retried_exceptions (t : ExceptionType) : bool :=
  match t with
  | ClientError | TimeoutError => true
  | _ => false
  end.

(** [@backoff.on_exception(backoff.expo, (aiohttp.ClientError,
    asyncio.TimeoutError), max_tries=3)] *)
Definition _execute_with_retry (endpoint method : string) (data : option Data)
           (headers : option (list (string * string))) : E (ResponseData Data) :=
  on_exception retried_exceptions 3
    (_execute_with_retry__wrapped__ endpoint method data headers).

(** The statements of [call_api], in the order of the source. *)

(** [if self.circuit_breaker and not self.circuit_breaker.can_execute():
        raise IntegrationError(...)] *)
Definition check_circuit_breaker : E unit :=
  (self <- get_self ;;
   match circuit_breaker self with
   | Some cb =>
       r <- lift (CircuitBreaker.can_execute cb) ;;
       modify_self (with_circuit_breaker (Some (snd r))) ;;;
       if negb (fst r)
       then raise (mkException IntegrationError
                     "Circuit breaker is open - service unavailable")
       else pure tt
   | None => pure tt
   end)%py.

(** [if _IMPORTS_AVAILABLE and not self.rate_limiter.allow_request("api_call"):
        raise IntegrationError(...)] *)
Definition check_rate_limit : E unit :=
  (if _IMPORTS_AVAILABLE then
     self <- get_self ;;
     r <- lift (RateLimiter.allow_request "api_call" (rate_limiter self)) ;;
     modify_self (with_rate_limiter (snd r)) ;;;
     if negb (fst r)
     then raise (mkException IntegrationError "Rate limit exceeded")
     else pure tt
   else pure tt)%py.

(** [self.response_cache.get(cache_key)], when the imports are available. *)
Definition lookup_cache (cache_key : string)
  : E (option (ExternalServiceResponse Data)) :=
  (if _IMPORTS_AVAILABLE then
     self <- get_self ;;
     let r := LRUCache.get String.eqb cache_key None (response_cache self) in
     modify_self (with_response_cache (snd r)) ;;;
     pure (fst r)
   else pure None)%py.

(** [cached_response.cached = True; return cached_response]: the object
    returned is the one the cache holds, so the entry changes with it. *)
Definition return_cached (cache_key : string)
           (cached_response : ExternalServiceResponse Data)
  : E (ExternalServiceResponse Data) :=
  (let response := mark_cached cached_response in
   modify_self (fun self =>
     with_response_cache
       (LRUCache.mk (LRUCache._maxsize (response_cache self))
          (setitem String.eqb cache_key response
             (LRUCache._cache (response_cache self)))
          (LRUCache._stats (response_cache self))) self) ;;;
   pure response)%py.

(** [self.response_cache.set(cache_key, service_response, ttl=...)]: two
    positional arguments and the keyword [ttl]. *)
Definition store_response (cache_key : string)
           (service_response : ExternalServiceResponse Data) : E unit :=
  (if _IMPORTS_AVAILABLE then
     if binds LRUCache.set_parameters 2 ["ttl"]
     then
       self <- get_self ;;
       c <- of_result (LRUCache.set String.eqb cache_key service_response
                         (response_cache self)) ;;
       modify_self (with_response_cache c)
     else raise (mkException TypeError
                   "LRUCache.set() got an unexpected keyword argument 'ttl'")
   else pure tt)%py.

(** The [try] block of [call_api]. *)
Definition call_api_try (start_time : Z) (endpoint method : string)
           (data : option Data) (headers : option (list (string * string)))
  : E (ExternalServiceResponse Data) :=
  ((* Check circuit breaker *)
   check_circuit_breaker ;;;
   (* Rate limiting *)
   check_rate_limit ;;;
   (* Check cache first *)
   cache_key <- of_result (_generate_cache_key endpoint method data) ;;
   cached_response <- lookup_cache cache_key ;;
   match cached_response with
   | Some response => return_cached cache_key response
   | None =>
       (* Make API call with retry logic *)
       response_data <- _execute_with_retry endpoint method data headers ;;
       t1 <- lift time_time ;;
       let response_time := (t1 - start_time) * 1000 in
       (* Record success *)
       on_breaker CircuitBreaker.record_success ;;;
       (* Create response *)
       self <- get_self ;;
       let service_response :=
         mkExternalServiceResponse true response_data None response_time
           false (provider_value (provider (config self))) 1
           [("endpoint", MetaStr endpoint); ("method", MetaStr method);
            ("cached", MetaBool false)] in
       (* Cache response *)
       store_response cache_key service_response ;;;
       (* Update performance tracking *)
       modify_self (count_call response_time) ;;;
       pure service_response
   end)%py.

(** The [except Exception as e] block of [call_api]. *)
Definition call_api_except (start_time : Z) (endpoint method : string)
           (e : Exception) : E (ExternalServiceResponse Data) :=
  ((* Record failure *)
   on_breaker CircuitBreaker.record_failure ;;;
   modify_self count_error ;;;
   t1 <- lift time_time ;;
   let response_time := (t1 - start_time) * 1000 in
   self <- get_self ;;
   pure (mkExternalServiceResponse false NoData (Some (str e))
           response_time false (provider_value (provider (config self))) 1
           [("endpoint", MetaStr endpoint); ("method", MetaStr method);
            ("error_type", MetaStr (type_name (exc_type e)))]))%py.

Definition call_api (endpoint method : string) (data : option Data)
           (headers : option (list (string * string)))
  : E (ExternalServiceResponse Data) :=
  (start_time <- lift time_time ;;
   try_except
     (call_api_try start_time endpoint method data headers)
     (call_api_except start_time endpoint method))%py.

(** A request: the arguments of one [call_api]. *)
Record Request : Type := mkRequest {
  request_endpoint : string;
  request_method : string;
  request_data : option Data;
  request_headers : option (list (string * string))
}.

(** The calls [call_api(...)] for the requests of a list, one after the
    other on the same client; returns what each call returned or raised. *)
Fixpoint call_api_all (rqs : list Request) (s : t * World)
  : list (Result (ExternalServiceResponse Data)) * (t * World) :=
  match rqs with
  | [] => ([], s)
  | rq :: rqs' =>
      let (r, s1) := call_api (request_endpoint rq) (request_method rq)
                       (request_data rq) (request_headers rq) s in
      let (rs, s2) := call_api_all rqs' s1 in
      (r :: rs, s2)
  end.

(** The dictionary [health_check] returns. *)
Record HealthReport : Type := mkHealthReport {
  healthy : bool;
  health_response_time_ms : option Z;
  health_error : option string;
  health_provider : string;
  circuit_breaker_state : option CircuitBreaker.StateReport
}.

(** [self.circuit_breaker.get_state() if self.circuit_breaker else None] *)
Definition breaker_state_report : E (option CircuitBreaker.StateReport) :=
  (self <- get_self ;;
   match circuit_breaker self with
   | Some cb => r <- lift (CircuitBreaker.get_state cb) ;; pure (Some r)
   | None => pure None
   end)%py.

Definition health_check : E HealthReport :=
  try_except
    ((* Most APIs have a health/status endpoint *)
     response <- call_api "health" "GET" None None ;;
     self <- get_self ;;
     breaker <- breaker_state_report ;;
     pure (mkHealthReport (success response)
             (Some (response_time_ms response)) None
             (provider_value (provider (config self))) breaker))%py
    (fun e =>
       (self <- get_self ;;
        breaker <- breaker_state_report ;;
        pure (mkHealthReport false None (Some (str e))
                (provider_value (provider (config self))) breaker))%py).

End WithLibrary.

Arguments mkRequest {Data}.
Arguments request_endpoint {Data} r : rename.
Arguments request_method {Data} r : rename.
Arguments request_data {Data} r : rename.
Arguments request_headers {Data} r : rename.
Arguments call_api_all _ {Data}.
Arguments breaker_state_report {Data}.
Arguments health_check _ {Data}.
Arguments mk {Data}.
Arguments config {Data} self : rename.
Arguments circuit_breaker {Data} self : rename.
Arguments rate_limiter {Data} self : rename.
Arguments response_cache {Data} self : rename.
Arguments call_count {Data} self : rename.
Arguments total_response_time {Data} self : rename.
Arguments error_count {Data} self : rename.
Arguments pure {Data A}.
Arguments raise {Data A}.
Arguments bindE {Data A B}.
Arguments try_except {Data A}.
Arguments lift {Data A}.
Arguments of_result {Data A}.
Arguments get_self {Data}.
Arguments modify_self {Data}.
Arguments with_circuit_breaker {Data}.
Arguments with_rate_limiter {Data}.
Arguments with_response_cache {Data}.
Arguments count_call {Data}.
Arguments count_error {Data}.
Arguments on_breaker {Data}.
Arguments _generate_cache_key {Data}.
Arguments send_request {Data}.
Arguments _execute_with_retry__wrapped__ {Data}.
Arguments payload_serializes {Data}.
Arguments retry {Data A}.
Arguments on_exception {Data A}.
Arguments _execute_with_retry {Data}.
Arguments check_circuit_breaker {Data}.
Arguments check_rate_limit _ {Data}.
Arguments lookup_cache _ {Data}.
Arguments return_cached {Data}.
Arguments store_response _ {Data}.
Arguments call_api_try _ {Data}.
Arguments call_api_except {Data}.
Arguments call_api _ {Data}.

End ExternalAPIClient.

(** ** integrations/external.py: the Onfido client *)

Module OnfidoClient.
Section WithLibrary.

Variable _IMPORTS_AVAILABLE : bool.

(** The values of a payload dictionary; a payload is a dictionary from
    strings to such values. *)
Variable Value : Type.

Local Abbreviation Payload := (list (string * Value)).

Variable json_dumps : bool -> Payload -> Result string.
Variable json_loads : string -> option Payload.
Variable sha256_hexdigest : string -> string.

(** [if data], for a dictionary *)
Definition truthy (data : Payload) : bool :=
  match data with
  | [] => false
  | _ :: _ => true
  end.

(** [{'applicant_id': applicant_id, **data}] *)
Definition with_applicant_id (applicant_id : Value) (data : Payload) : Payload :=
  fold_left (fun d kv => setitem String.eqb (fst kv) (snd kv) d) data
            [("applicant_id", applicant_id)].

Definition create_applicant (applicant_data : Payload)
  : ExternalAPIClient.E Payload (ExternalServiceResponse Payload) :=
  ExternalAPIClient.call_api _IMPORTS_AVAILABLE truthy json_dumps json_loads
    sha256_hexdigest "applicants" "POST" (Some applicant_data) None.

Definition upload_document (applicant_id : Value) (document_data : Payload)
  : ExternalAPIClient.E Payload (ExternalServiceResponse Payload) :=
  ExternalAPIClient.call_api _IMPORTS_AVAILABLE truthy json_dumps json_loads
    sha256_hexdigest "documents" "POST"
    (Some (with_applicant_id applicant_id document_data)) None.

Definition create_check (applicant_id : Value) (check_data : Payload)
  : ExternalAPIClient.E Payload (ExternalServiceResponse Payload) :=
  ExternalAPIClient.call_api _IMPORTS_AVAILABLE truthy json_dumps json_loads
    sha256_hexdigest "checks" "POST"
    (Some (with_applicant_id applicant_id check_data)) None.

End WithLibrary.

Arguments truthy {Value}.
Arguments with_applicant_id {Value}.
Arguments create_applicant _ {Value}.
Arguments upload_document _ {Value}.
Arguments create_check _ {Value}.

End OnfidoClient.

(** The responses that did not come from the cache, by outcome. *)
Definition fresh_success {Data : Type}
           (r : Result (ExternalServiceResponse Data)) : bool :=
  match r with
  | inr resp => negb (cached resp) && success resp
  | inl _ => false
  end.

Definition fresh_failure {Data : Type}
           (r : Result (ExternalServiceResponse Data)) : bool :=
  match r with
  | inr resp => negb (cached resp) && negb (success resp)
  | inl _ => false
  end.

(** [response_time_ms] of what a call returned. *)
Definition response_time_of {Data : Type}
           (r : Result (ExternalServiceResponse Data)) : Z :=
  match r with
  | inr resp => response_time_ms resp
  | inl _ => 0
  end.

(** The result of a call that returned a failure response with a message. *)
Definition failed_with {Data : Type}
           (r : Result (ExternalServiceResponse Data)
                * (ExternalAPIClient.t Data * World))
           (message : string) : Prop :=
  exists resp,
    fst r = inr resp /\ success resp = false /\
    error_message resp = Some message.

(** ** Concrete scenarios *)

(** A clock that advances by one tick between consecutive readings. *)
Definition steady_clock (start : Z) : nat -> Z := fun n => start + Z.of_nat n.

(** The world at the start of a scenario. *)
Definition world_at (start : Z) (outcomes : nat -> Outcome) : World :=
  mkWorld (steady_clock start) 0 outcomes 0.

(** A service that answers every request with [200 OK]. *)
Definition healthy : nat -> Outcome := fun _ => HttpResponse 200 "{}".

(** A breaker as [CircuitBreaker(CircuitBreakerConfig(3, 60, 2))] leaves it. *)
Definition fresh_breaker : CircuitBreaker.t :=
  CircuitBreaker.mk (mkCircuitBreakerConfig 3 60 2) CLOSED 0 0 0 0.

(** The same breaker after three failures at times 100, 101, 102. *)
Definition tripped_breaker : CircuitBreaker.t :=
  CircuitBreaker.mk (mkCircuitBreakerConfig 3 60 2) OPEN 3 0 102 103.

(** ... and after the recovery timeout let one call through. *)
Definition probing_breaker : CircuitBreaker.t :=
  CircuitBreaker.mk (mkCircuitBreakerConfig 3 60 2) HALF_OPEN 3 0 102 201.

(** What [TTLCache(maxsize=2, default_ttl=3600)] builds, for string keys. *)
Definition small_ttl_cache : TTLCache.t string Z :=
  TTLCache.mk 2 3600 [] (new_stats 2).

(** What [LRUCache(maxsize=2)] builds, for string keys. *)
Definition small_lru_cache : LRUCache.t string Z :=
  LRUCache.mk 2 [] (new_stats 2).

(** Two keys are stored, then the older one is read again. *)
Definition two_keys_first_reread : list (Operation string Z) :=
  [DoSet "a" 1; DoSet "b" 2; DoGet "a" None].

(** Stand-ins for the JSON and hashing functions in the scenarios: a
    payload is its own JSON text and the digest of a text is the text.  The
    scenarios send no payload, and no statement depends on the digest. *)
Definition text_truthy (s : string) : bool := negb (s =? "")%string.
Definition text_dumps (sort_keys : bool) (s : string) : Result string := inr s.
Definition text_loads (s : string) : option string := Some s.
Definition plain_digest (s : string) : string := s.

(** [client.call_api(endpoint, method)] with the imports available. *)
Definition scenario_call (endpoint method : string)
  : ExternalAPIClient.E string (ExternalServiceResponse string) :=
  ExternalAPIClient.call_api true text_truthy text_dumps text_loads plain_digest
    endpoint method None None.

(** [n] such calls of the health endpoint, one after the other. *)
Fixpoint health_checks (n : nat) (s : ExternalAPIClient.t string * World)
  : ExternalAPIClient.t string * World :=
  match n with
  | O => s
  | S n' => health_checks n' (snd (scenario_call "health" "GET" s))
  end.

(** A service that answers every request with [503]. *)
Definition unavailable : nat -> Outcome :=
  fun _ => HttpResponse 503 "Service Unavailable".

(** A service that never answers in time; [asyncio.TimeoutError] is raised
    without arguments, so its [str] is empty. *)
Definition unresponsive : nat -> Outcome := fun _ => TimedOut "".

(** [ExternalAPIClient(APIConfiguration(provider=CUSTOM, ...))] built at
    time 100 with the default configuration, and the world right after. *)
Definition fresh_client (outcomes : nat -> Outcome)
  : ExternalAPIClient.t string * World :=
  ExternalAPIClient.__init__ true string (default_configuration CUSTOM)
    (world_at 100 outcomes).

(** The client after five health checks of a service that is down: the
    breaker has opened on the fifth failure. *)
Definition tripped_client : ExternalAPIClient.t string * World :=
  health_checks 5 (fresh_client unavailable).



(** Stand-ins for the library of the secure cache in the scenarios: a key
    is encoded byte by byte, the digest is the salt followed by the data,
    the random bytes are zeros, and nothing can be pickled, so that values
    are stored as they are. *)
Definition scenario_utf8 (s : string) : list Byte.byte := list_byte_of_string s.

Definition scenario_digest (data salt : list Byte.byte) : string :=
  string_of_list_byte (salt ++ data).

Definition zero_bytes (n : nat) : list Byte.byte := repeat Byte.x00 n.

Definition no_pickle {V : Type} (value : V) : option (list Byte.byte) := None.

Definition no_unpickle {V : Type} (data : list Byte.byte) : option V := None.

(** A function to decorate: the length of a string, [None] for the empty
    string. *)
Definition text_size (s : string) : Result (option Z) :=
  inr (if (s =? "")%string then None else Some (Z.of_nat (String.length s))).

(** The key of the call [f(s)] for a plain string [s]:
    [str((s,)) + str([])]. *)
Definition text_call_key (s : string) : string := "('" ++ s ++ "',)[]".


(** * Properties *)

(** ** The clock *)

(** The world after [n] more readings of the clock. *)
Lemma ticks_iter (n : nat) (w : World) :
  ticks (Nat.iter n tick w) = (n + ticks w)%nat.
Proof.
  induction n as [|n IH]; simpl; [reflexivity|].
  now rewrite IH.
Qed.

Lemma clock_iter (n : nat) (w : World) :
  clock (Nat.iter n tick w) = clock w.
Proof.
  induction n as [|n IH]; simpl; [reflexivity|exact IH].
Qed.

Lemma requests_iter (n : nat) (w : World) :
  requests (Nat.iter n tick w) = requests w.
Proof.
  induction n as [|n IH]; simpl; [reflexivity|exact IH].
Qed.

Lemma iter_tick_comm (n : nat) (w : World) :
  Nat.iter n tick (tick w) = tick (Nat.iter n tick w).
Proof.
  induction n as [|n IH]; simpl; [reflexivity|].
  now rewrite IH.
Qed.

(** ** The circuit breaker, one transition at a time *)

Section BreakerSteps.

Import CircuitBreaker.

Variable cb : CircuitBreaker.t.
Variable w : World.


Lemma can_execute_half_open :
  state cb = HALF_OPEN -> can_execute cb w = ((true, cb), tick w).
Proof.
  intros H. unfold can_execute, bind, time_time, ret. now rewrite H.
Qed.

Lemma can_execute_open_blocked :
  state cb = OPEN ->
  now w - last_failure_time cb < recovery_timeout (config cb) ->
  can_execute cb w = ((false, cb), tick w).
Proof.
  intros H Hlt. unfold can_execute, bind, time_time, ret. rewrite H.
  destruct (Z.geb_spec (now w - last_failure_time cb)
                       (recovery_timeout (config cb))); [lia|reflexivity].
Qed.

Lemma can_execute_open_recovered :
  state cb = OPEN ->
  recovery_timeout (config cb) <= now w - last_failure_time cb ->
  can_execute cb w =
    ((true, mk (config cb) HALF_OPEN (failure_count cb) 0
               (last_failure_time cb) (now (tick w))),
     tick (tick w)).
Proof.
  intros H Hge. unfold can_execute, bind, time_time, ret. rewrite H.
  destruct (Z.geb_spec (now w - last_failure_time cb)
                       (recovery_timeout (config cb))); [reflexivity|lia].
Qed.

Lemma record_failure_closed_below :
  state cb = CLOSED ->
  failure_count cb + 1 < failure_threshold (config cb) ->
  record_failure cb w =
    (mk (config cb) CLOSED (failure_count cb + 1) (success_count cb)
        (now w) (last_state_change cb),
     tick w).
Proof.
  intros H Hlt. unfold record_failure, bind, time_time, ret. simpl. rewrite H.
  destruct (Z.geb_spec (failure_count cb + 1)
                       (failure_threshold (config cb))); [lia|reflexivity].
Qed.

Lemma record_failure_closed_trips :
  state cb = CLOSED ->
  failure_threshold (config cb) <= failure_count cb + 1 ->
  record_failure cb w =
    (mk (config cb) OPEN (failure_count cb + 1) 0 (now w) (now (tick w)),
     tick (tick w)).
Proof.
  intros H Hge. unfold record_failure, bind, time_time, ret. simpl. rewrite H.
  destruct (Z.geb_spec (failure_count cb + 1)
                       (failure_threshold (config cb))); [reflexivity|lia].
Qed.

Lemma record_failure_open :
  state cb = OPEN ->
  record_failure cb w =
    (mk (config cb) OPEN (failure_count cb + 1) (success_count cb)
        (now w) (last_state_change cb),
     tick w).
Proof.
  intros H. unfold record_failure, bind, time_time, ret. simpl. now rewrite H.
Qed.

Lemma record_failure_half_open :
  state cb = HALF_OPEN ->
  record_failure cb w =
    (mk (config cb) OPEN (failure_count cb + 1) 0 (now w) (now (tick w)),
     tick (tick w)).
Proof.
  intros H. unfold record_failure, bind, time_time, ret. simpl. now rewrite H.
Qed.

Lemma record_success_half_open_below :
  state cb = HALF_OPEN ->
  success_count cb + 1 < success_threshold (config cb) ->
  record_success cb w =
    (mk (config cb) HALF_OPEN (failure_count cb) (success_count cb + 1)
        (last_failure_time cb) (last_state_change cb),
     w).
Proof.
  intros H Hlt. unfold record_success, ret. rewrite H. simpl.
  destruct (Z.geb_spec (success_count cb + 1)
                       (success_threshold (config cb))); [lia|reflexivity].
Qed.

Lemma record_success_half_open_closes :
  state cb = HALF_OPEN ->
  success_threshold (config cb) <= success_count cb + 1 ->
  record_success cb w =
    (mk (config cb) CLOSED 0 0 (last_failure_time cb) (now w), tick w).
Proof.
  intros H Hge. unfold record_success. rewrite H. simpl.
  destruct (Z.geb_spec (success_count cb + 1)
                       (success_threshold (config cb))); [reflexivity|lia].
Qed.

Lemma record_success_closed :
  state cb = CLOSED ->
  record_success cb w =
    (mk (config cb) CLOSED 0 (success_count cb) (last_failure_time cb)
        (last_state_change cb),
     w).
Proof.
  intros H. unfold record_success, ret. now rewrite H.
Qed.

Lemma init_consistent (cfg : CircuitBreakerConfig) :
  consistent (fst (__init__ cfg w)).
Proof. discriminate. Qed.

Lemma can_execute_consistent :
  consistent cb -> consistent (snd (fst (can_execute cb w))).
Proof.
  unfold consistent, can_execute, bind, time_time, ret, _transition_to_half_open.
  intros H. destruct (state cb) eqn:Est; simpl.
  - congruence.
  - destruct (now w - last_failure_time cb >=? recovery_timeout (config cb));
      simpl; [discriminate|]. intros _. now apply H.
  - congruence.
Qed.

Lemma record_success_consistent :
  consistent cb -> consistent (fst (record_success cb w)).
Proof.
  unfold consistent, record_success, bind, time_time, ret, _transition_to_closed.
  intros H. destruct (state cb) eqn:Est; simpl.
  - congruence.
  - intros _. now apply H.
  - destruct (success_count cb + 1 >=? success_threshold (config cb)); simpl;
      congruence.
Qed.

Lemma record_failure_consistent :
  consistent cb -> consistent (fst (record_failure cb w)).
Proof.
  unfold consistent, record_failure, bind, time_time, ret, _transition_to_open.
  intros H. simpl. destruct (state cb) eqn:Est; simpl.
  - destruct (failure_count cb + 1 >=? failure_threshold (config cb)); simpl;
      congruence.
  - intros _. now apply H.
  - reflexivity.
Qed.

End BreakerSteps.

(** ** Runs of failures and of successes *)

Section BreakerRuns.

Import CircuitBreaker.

(** Failures below the threshold keep the breaker closed and are counted. *)
Lemma failures_below_threshold (n : nat) :
  forall (cb : CircuitBreaker.t) (w : World),
    state cb = CLOSED ->
    failure_count cb + Z.of_nat n < failure_threshold (config cb) ->
    let r := repeatedly n record_failure cb w in
    state (fst r) = CLOSED /\
    config (fst r) = config cb /\
    failure_count (fst r) = failure_count cb + Z.of_nat n /\
    snd r = Nat.iter n tick w.
Proof.
  induction n as [|n IH]; intros cb w Hst Hlt.
  - simpl. repeat split; trivial; lia.
  - cbn [repeatedly]. unfold bind.
    rewrite record_failure_closed_below by (trivial; lia).
    match goal with |- context [repeatedly n record_failure ?c ?v] =>
      destruct (IH c v) as (H1 & H2 & H3 & H4); [reflexivity|simpl; lia|]
    end.
    cbn zeta. repeat split.
    + exact H1.
    + rewrite H2. reflexivity.
    + rewrite H3. simpl. lia.
    + rewrite H4. simpl. apply iter_tick_comm.
Qed.

(** A closed breaker with clean counters stays so under successes. *)
Lemma successes_keep_closed (n : nat) :
  forall (cb : CircuitBreaker.t) (w : World),
    state cb = CLOSED -> failure_count cb = 0 -> success_count cb = 0 ->
    let r := repeatedly n record_success cb w in
    state (fst r) = CLOSED /\ failure_count (fst r) = 0 /\
    success_count (fst r) = 0.
Proof.
  induction n as [|n IH]; intros cb w Hst Hf Hs.
  - simpl. auto.
  - cbn [repeatedly]. unfold bind. rewrite record_success_closed by trivial.
    apply IH; simpl; auto.
Qed.

(** Successes below the threshold keep the breaker half-open and are
    counted. *)
Lemma successes_below_threshold (n : nat) :
  forall (cb : CircuitBreaker.t) (w : World),
    state cb = HALF_OPEN ->
    success_count cb + Z.of_nat n < success_threshold (config cb) ->
    let r := repeatedly n record_success cb w in
    state (fst r) = HALF_OPEN /\
    config (fst r) = config cb /\
    success_count (fst r) = success_count cb + Z.of_nat n /\
    failure_count (fst r) = failure_count cb.
Proof.
  induction n as [|n IH]; intros cb w Hst Hlt.
  - simpl. repeat split; trivial; lia.
  - cbn [repeatedly]. unfold bind.
    rewrite record_success_half_open_below by (trivial; lia).
    match goal with |- context [repeatedly n record_success ?c ?v] =>
      destruct (IH c v) as (H1 & H2 & H3 & H4); [reflexivity|simpl; lia|]
    end.
    cbn zeta. repeat split.
    + exact H1.
    + rewrite H2. reflexivity.
    + rewrite H3. simpl. lia.
    + rewrite H4. reflexivity.
Qed.

(** Enough successes close a half-open breaker and clear both counters. *)
Lemma successes_close_half_open (n : nat) :
  forall (cb : CircuitBreaker.t) (w : World),
    state cb = HALF_OPEN ->
    (1 <= n)%nat ->
    success_threshold (config cb) <= success_count cb + Z.of_nat n ->
    let r := repeatedly n record_success cb w in
    state (fst r) = CLOSED /\ failure_count (fst r) = 0 /\
    success_count (fst r) = 0.
Proof.
  induction n as [|n IH]; intros cb w Hst Hn Hge; [lia|].
  cbn [repeatedly]. unfold bind.
  destruct (Z_lt_le_dec (success_count cb + 1) (success_threshold (config cb)))
    as [Hlt|Hle].
  - rewrite record_success_half_open_below by trivial.
    apply IH; simpl; [reflexivity|lia|lia].
  - rewrite record_success_half_open_closes by trivial.
    apply successes_keep_closed; reflexivity.
Qed.

End BreakerRuns.

(** Closed facts about concrete scenarios hold by evaluation. *)
Ltac evaluated :=
  repeat split;
  first [ reflexivity
        | vm_compute; reflexivity
        | vm_compute; discriminate
        | cbv; intro; discriminate ].

Lemma repeatedly_last (n : nat) (method : CircuitBreaker.t -> M CircuitBreaker.t) :
  forall (cb : CircuitBreaker.t) (w : World),
    CircuitBreaker.repeatedly (S n) method cb w =
    method (fst (CircuitBreaker.repeatedly n method cb w))
           (snd (CircuitBreaker.repeatedly n method cb w)).
Proof.
  induction n as [|n IH]; intros cb w.
  - simpl. unfold bind, ret. now destruct (method cb w).
  - change (CircuitBreaker.repeatedly (S (S n)) method cb w)
      with (bind (method cb) (CircuitBreaker.repeatedly (S n) method) w).
    change (CircuitBreaker.repeatedly (S n) method cb w)
      with (bind (method cb) (CircuitBreaker.repeatedly n method) w).
    unfold bind. destruct (method cb w) as [cb1 w1]. apply IH.
Qed.

(** The breakers of the scenarios are what the methods produce. *)
Example tripped_breaker_reached :
  fst (CircuitBreaker.repeatedly 3 CircuitBreaker.record_failure fresh_breaker
         (world_at 100 healthy)) = tripped_breaker.
Proof. reflexivity. Qed.

Example probing_breaker_reached :
  fst (CircuitBreaker.can_execute tripped_breaker (world_at 200 healthy))
  = (true, probing_breaker).
Proof. reflexivity. Qed.

(** ** The claims on the circuit breaker *)

Section BreakerClaims.

Import CircuitBreaker.

(** C2.  A breaker that is closed with no failure counted, and whose
    failure threshold is [f >= 1], is open after [f] consecutive
    [record_failure] calls (and still closed after fewer); the time of the
    last of them is its [last_failure_time], and every [can_execute] made
    at a time [now] with [now - last_failure_time < recovery_timeout]
    returns false and leaves the breaker as it is. *)
Theorem breaker_opens_on_threshold (cb : CircuitBreaker.t) (w : World) :
  state cb = CLOSED ->
  failure_count cb = 0 ->
  1 <= failure_threshold (config cb) ->
  let f := Z.to_nat (failure_threshold (config cb)) in
  let cb' := fst (repeatedly f record_failure cb w) in
  state cb' = OPEN /\
  (forall n, (n < f)%nat -> state (fst (repeatedly n record_failure cb w)) = CLOSED) /\
  last_failure_time cb' = clock w (ticks w + f - 1)%nat /\
  forall w' : World,
    now w' - last_failure_time cb' < recovery_timeout (config cb') ->
    can_execute cb' w' = ((false, cb'), tick w').
Proof.
  intros Hst Hfc Hf f cb'.
  assert (Hpos : (1 <= f)%nat) by (unfold f; lia).
  assert (Hbelow : forall n, (n < f)%nat ->
            failure_count cb + Z.of_nat n < failure_threshold (config cb))
    by (intros n Hn; unfold f in Hn; lia).
  destruct f as [|k] eqn:Ef; [lia|].
  destruct (failures_below_threshold k cb w Hst (Hbelow k (Nat.lt_succ_diag_r k)))
    as (H1 & H2 & H3 & H4).
  assert (Hlast : repeatedly (S k) record_failure cb w =
            (mk (config cb) OPEN (failure_threshold (config cb)) 0
                (clock w (ticks w + k)%nat) (clock w (S (ticks w + k))),
             tick (tick (Nat.iter k tick w)))).
  { rewrite repeatedly_last.
    rewrite record_failure_closed_trips; [|exact H1|rewrite H2, H3; lia].
    rewrite H2, H3, H4. unfold now. cbn [clock ticks tick].
    rewrite clock_iter, ticks_iter.
    replace (failure_count cb + Z.of_nat k + 1)
      with (failure_threshold (config cb)) by lia.
    now rewrite (Nat.add_comm k). }
  subst cb'. rewrite Hlast. cbn [fst].
  split; [reflexivity|]. split; [|split].
  - intros n Hn. apply failures_below_threshold; [exact Hst|].
    apply Hbelow. exact Hn.
  - cbn [last_failure_time]. f_equal. lia.
  - intros w' Hlt. now apply can_execute_open_blocked.
Qed.

Lemma breaker_opens_on_threshold_witness :
  (state fresh_breaker = CLOSED /\ failure_count fresh_breaker = 0 /\
   1 <= failure_threshold (config fresh_breaker)) /\
  state (fst (repeatedly 3 record_failure fresh_breaker (world_at 100 healthy)))
    = OPEN.
Proof.
  split; [evaluated|].
  exact (proj1 (breaker_opens_on_threshold fresh_breaker (world_at 100 healthy)
                  eq_refl eq_refl ltac:(evaluated))).
Defined.

(** C3.  (a) On an open breaker, a [can_execute] made once
    [now - last_failure_time >= recovery_timeout] returns true and leaves
    the breaker half-open with [success_count] 0.  (b) On a half-open
    breaker, [success_threshold] consecutive [record_success] calls leave
    it closed with [failure_count] and [success_count] both 0, and it is
    the threshold that closes it: as long as the successes counted stay
    below [success_threshold], the breaker is still half-open, with each
    success counted and [failure_count] kept; so a breaker that has just
    turned half-open is still half-open after any smaller number of
    successes.  (c) On a half-open breaker a single [record_failure]
    leaves it open. *)
Theorem breaker_recovers :
  (forall (cb : CircuitBreaker.t) (w : World),
      state cb = OPEN ->
      recovery_timeout (config cb) <= now w - last_failure_time cb ->
      fst (fst (can_execute cb w)) = true /\
      state (snd (fst (can_execute cb w))) = HALF_OPEN /\
      success_count (snd (fst (can_execute cb w))) = 0) /\
  (forall (cb : CircuitBreaker.t) (w : World),
      state cb = HALF_OPEN ->
      0 <= success_count cb ->
      1 <= success_threshold (config cb) ->
      let s := Z.to_nat (success_threshold (config cb)) in
      let cb' := fst (repeatedly s record_success cb w) in
      (state cb' = CLOSED /\ failure_count cb' = 0 /\ success_count cb' = 0) /\
      (forall k : nat,
          success_count cb + Z.of_nat k < success_threshold (config cb) ->
          let cbk := fst (repeatedly k record_success cb w) in
          state cbk = HALF_OPEN /\
          success_count cbk = success_count cb + Z.of_nat k /\
          failure_count cbk = failure_count cb) /\
      (success_count cb = 0 ->
       forall k : nat,
         (k < s)%nat ->
         state (fst (repeatedly k record_success cb w)) = HALF_OPEN)) /\
  (forall (cb : CircuitBreaker.t) (w : World),
      state cb = HALF_OPEN ->
      state (fst (record_failure cb w)) = OPEN).
Proof.
  split; [|split].
  - intros cb w Hst Hge.
    rewrite can_execute_open_recovered by assumption. simpl. auto.
  - intros cb w Hst Hsc Hs s cb'. split; [|split].
    + apply successes_close_half_open; unfold s; [exact Hst|lia|lia].
    + intros k Hk cbk.
      destruct (successes_below_threshold k cb w Hst Hk) as (H1 & _ & H3 & H4).
      auto.
    + intros Hzero k Hk.
      apply (successes_below_threshold k cb w Hst). unfold s in Hk. lia.
  - intros cb w Hst. now rewrite record_failure_half_open.
Qed.

Lemma breaker_recovers_witness :
  ((state tripped_breaker = OPEN /\
    recovery_timeout (config tripped_breaker)
      <= now (world_at 200 healthy) - last_failure_time tripped_breaker) /\
   fst (can_execute tripped_breaker (world_at 200 healthy)) = (true, probing_breaker)) /\
  ((state probing_breaker = HALF_OPEN /\ 0 <= success_count probing_breaker /\
    1 <= success_threshold (config probing_breaker)) /\
   state (fst (repeatedly 2 record_success probing_breaker (world_at 202 healthy)))
     = CLOSED /\
   state (fst (repeatedly 1 record_success probing_breaker (world_at 202 healthy)))
     = HALF_OPEN) /\
  state (fst (record_failure probing_breaker (world_at 202 healthy))) = OPEN.
Proof.
  destruct breaker_recovers as (Ha & Hb & Hc).
  split; [|split].
  - split; [evaluated|].
    destruct (Ha tripped_breaker (world_at 200 healthy) eq_refl
                 ltac:(evaluated)) as (H1 & H2 & H3).
    reflexivity.
  - split; [evaluated|].
    destruct (Hb probing_breaker (world_at 202 healthy) eq_refl
                 ltac:(evaluated) ltac:(evaluated)) as (Hclosed & _ & Hfewer).
    split; [exact (proj1 Hclosed)|].
    exact (Hfewer eq_refl 1%nat ltac:(vm_compute; lia)).
  - exact (Hc probing_breaker (world_at 202 healthy) eq_refl).
Defined.

(** C10.  On an open breaker [record_failure] makes no transition: the
    breaker stays open, [failure_count] grows by one and
    [last_failure_time] becomes the current time, everything else being
    kept.  From then on [can_execute] refuses as long as less than
    [recovery_timeout] has passed since this failure, and lets a call
    through (turning half-open) exactly from [recovery_timeout] after it:
    the moment of the transition lies [recovery_timeout] after the failure
    just recorded, and (the clock not having gone backwards) not before
    the moment it had been set to. *)
Theorem failure_while_open_restarts_recovery (cb : CircuitBreaker.t) (w : World) :
  state cb = OPEN ->
  let cb' := fst (record_failure cb w) in
  state cb' = OPEN /\
  failure_count cb' = failure_count cb + 1 /\
  last_failure_time cb' = now w /\
  success_count cb' = success_count cb /\
  last_state_change cb' = last_state_change cb /\
  config cb' = config cb /\
  (forall w' : World,
      now w' - now w < recovery_timeout (config cb) ->
      can_execute cb' w' = ((false, cb'), tick w')) /\
  (forall w' : World,
      recovery_timeout (config cb) <= now w' - now w ->
      fst (fst (can_execute cb' w')) = true /\
      state (snd (fst (can_execute cb' w'))) = HALF_OPEN) /\
  (last_failure_time cb <= now w ->
   last_failure_time cb + recovery_timeout (config cb)
     <= last_failure_time cb' + recovery_timeout (config cb')).
Proof.
  intros Hst cb'. subst cb'. rewrite record_failure_open by exact Hst.
  cbn [fst state failure_count last_failure_time success_count
       last_state_change config].
  repeat (split; [reflexivity|]).
  split; [|split].
  - intros w' Hlt. now apply can_execute_open_blocked.
  - intros w' Hge. rewrite can_execute_open_recovered by (trivial; exact Hge).
    simpl. auto.
  - lia.
Qed.

Lemma failure_while_open_restarts_recovery_witness :
  state tripped_breaker = OPEN /\
  fst (record_failure tripped_breaker (world_at 150 healthy)) =
    mk (mkCircuitBreakerConfig 3 60 2) OPEN 4 0 150 103 /\
  fst (fst (can_execute (fst (record_failure tripped_breaker (world_at 150 healthy)))
                        (world_at 209 healthy))) = false.
Proof.
  split; [reflexivity|]. split; [reflexivity|].
  destruct (failure_while_open_restarts_recovery tripped_breaker
              (world_at 150 healthy) eq_refl)
    as (_ & _ & _ & _ & _ & _ & Hblocked & _).
  rewrite (Hblocked (world_at 209 healthy)); reflexivity.
Defined.

End BreakerClaims.

(** ** Dictionaries *)

Section DictFacts.

Context {K X : Type}.
Variable K_eqb : K -> K -> bool.
Hypothesis K_eqb_eq : forall a b : K, K_eqb a b = true <-> a = b.

Lemma K_eqb_refl (k : K) : K_eqb k k = true.
Proof. now apply K_eqb_eq. Qed.

Lemma K_eqb_neq (a b : K) : a <> b -> K_eqb a b = false.
Proof.
  intros H. destruct (K_eqb a b) eqn:E; [|reflexivity].
  now apply K_eqb_eq in E.
Qed.

Lemma contains_In (k : K) (d : list (K * X)) :
  contains K_eqb k d = true <-> In k (dict_keys d).
Proof.
  unfold contains, dict_keys. rewrite existsb_exists, in_map_iff. split.
  - intros (kv & Hin & Heq). apply K_eqb_eq in Heq. now exists kv.
  - intros (kv & Heq & Hin). exists kv. split; [exact Hin|].
    now apply K_eqb_eq.
Qed.

Lemma getitem_setitem (k : K) (x : X) (d : list (K * X)) :
  getitem K_eqb k (setitem K_eqb k x d) = Some x.
Proof.
  induction d as [|[k' y] d IH]; simpl.
  - now rewrite K_eqb_refl.
  - destruct (K_eqb k k') eqn:E; simpl; rewrite E; [reflexivity|exact IH].
Qed.

Lemma getitem_delitem (k : K) (d : list (K * X)) :
  getitem K_eqb k (delitem K_eqb k d) = None.
Proof.
  induction d as [|[k' y] d IH]; simpl; [reflexivity|].
  destruct (K_eqb k k') eqn:E; simpl; [exact IH|].
  now rewrite E.
Qed.

Lemma contains_delitem (k : K) (d : list (K * X)) :
  contains K_eqb k (delitem K_eqb k d) = false.
Proof.
  induction d as [|[k' y] d IH]; simpl; [reflexivity|].
  destruct (K_eqb k k') eqn:E; simpl; [exact IH|].
  now rewrite E.
Qed.

Lemma getitem_contains (k : K) (d : list (K * X)) :
  contains K_eqb k d = false <-> getitem K_eqb k d = None.
Proof.
  induction d as [|[k' y] d IH]; simpl; [tauto|].
  destruct (K_eqb k k'); simpl; [|exact IH].
  split; discriminate.
Qed.

(** Storing under a key that is not there appends the entry. *)
Lemma setitem_new (k : K) (x : X) (d : list (K * X)) :
  contains K_eqb k d = false -> setitem K_eqb k x d = d ++ [(k, x)].
Proof.
  induction d as [|[k' y] d IH]; simpl; [reflexivity|].
  destruct (K_eqb k k'); simpl; [discriminate|].
  intros H. now rewrite IH.
Qed.


Lemma In_delitem (k : K) (kv : K * X) (d : list (K * X)) :
  In kv (delitem K_eqb k d) <-> In kv d /\ fst kv <> k.
Proof.
  unfold delitem. rewrite filter_In. split; intros [H1 H2]; split; trivial.
  - intros Heq. rewrite Heq, K_eqb_refl in H2. discriminate.
  - rewrite K_eqb_neq; [reflexivity|]. congruence.
Qed.

End DictFacts.

(** ** The TTL cache *)

Section TTLFacts.

Context {K V : Type}.
Variable K_eqb : K -> K -> bool.
Hypothesis K_eqb_eq : forall a b : K, K_eqb a b = true <-> a = b.

Local Abbreviation cache := (TTLCache.t K V).
Local Abbreviation get := (TTLCache.get K_eqb).
Local Abbreviation set := (TTLCache.set K_eqb).

(** A read before the expiry time is a hit and leaves the entries alone. *)
Lemma ttl_get_fresh (c : cache) (k : K) (v : V) (e : Z)
      (default : option V) (w : World) :
  getitem K_eqb k (TTLCache._cache c) = Some (v, e) ->
  now w < e ->
  get k default c w =
    ((Some v, TTLCache.mk (TTLCache._maxsize c) (TTLCache._default_ttl c)
                (TTLCache._cache c) (count_hit (TTLCache._stats c))),
     tick w).
Proof.
  intros Hget Hlt. unfold TTLCache.get, bind, time_time, ret. rewrite Hget.
  destruct (Z.ltb_spec (now w) e); [reflexivity|lia].
Qed.

(** A read at or after the expiry time misses and removes the entry. *)
Lemma ttl_get_expired (c : cache) (k : K) (v : V) (e : Z)
      (default : option V) (w : World) :
  getitem K_eqb k (TTLCache._cache c) = Some (v, e) ->
  e <= now w ->
  get k default c w =
    ((default, TTLCache.mk (TTLCache._maxsize c) (TTLCache._default_ttl c)
                 (delitem K_eqb k (TTLCache._cache c))
                 (count_miss (count_evictions 1 (TTLCache._stats c)))),
     tick w).
Proof.
  intros Hget Hge. unfold TTLCache.get, bind, time_time, ret. rewrite Hget.
  destruct (Z.ltb_spec (now w) e); [lia|reflexivity].
Qed.

Lemma earliest_expiry_nonempty (d : list (K * (V * Z))) :
  d <> [] -> TTLCache.earliest_expiry d <> None.
Proof.
  destruct d as [|[k [v e]] d]; [congruence|]. intros _. simpl.
  destruct (TTLCache.earliest_expiry d) as [[k' e']|]; [|discriminate].
  destruct (e' <? e); discriminate.
Qed.

(** [set] stores the value with expiry time "now + ttl" (a cache built by
    [__init__] has [_maxsize >= 1], and then [set] cannot raise). *)
Lemma ttl_set_stores (c : cache) (k : K) (v : V) (ttl : option Z) (w : World) :
  1 <= TTLCache._maxsize c ->
  exists c1 : cache,
    fst (set k v ttl c w) = inr c1 /\
    getitem K_eqb k (TTLCache._cache c1)
      = Some (v, now w + match ttl with
                         | Some x => x
                         | None => TTLCache._default_ttl c
                         end).
Proof.
  intros Hmax. unfold TTLCache.set, bind, time_time.
  set (expiry := now w + _).
  destruct ((if len (TTLCache._cache c) >=? TTLCache._maxsize c
             then TTLCache._clean_expired c else ret c) (tick w))
    as [c' w'] eqn:Eclean.
  assert (Hmax' : TTLCache._maxsize c' = TTLCache._maxsize c).
  { destruct (len (TTLCache._cache c) >=? TTLCache._maxsize c).
    - unfold TTLCache._clean_expired, bind, time_time, ret in Eclean.
      now inversion Eclean.
    - unfold ret in Eclean. now inversion Eclean. }
  destruct ((len (TTLCache._cache c') >=? TTLCache._maxsize c')
            && negb (contains K_eqb k (TTLCache._cache c'))) eqn:Efull.
  - destruct (TTLCache.earliest_expiry (TTLCache._cache c'))
      as [[oldest e]|] eqn:Emin.
    + eexists. split; [reflexivity|]. simpl.
      now apply getitem_setitem.
    + exfalso. apply andb_prop in Efull as [Hlen _].
      destruct (TTLCache._cache c') as [|kv d] eqn:Ed.
      * unfold len in Hlen. simpl in Hlen. rewrite Hmax' in Hlen.
        destruct (Z.geb_spec 0 (TTLCache._maxsize c)); [lia|discriminate].
      * now apply (earliest_expiry_nonempty (kv :: d)).
  - eexists. split; [reflexivity|]. simpl.
    now apply getitem_setitem.
Qed.

End TTLFacts.

Section TTLClaim.

Context {K V : Type}.
Variable K_eqb : K -> K -> bool.
Hypothesis K_eqb_eq : forall a b : K, K_eqb a b = true <-> a = b.

(** C7.  After [set(k, v, ttl)] at time [t] the entry of [k] expires at
    [t + ttl] (the default TTL when none is given).  A [get(k)] made while
    [now < expiry] returns [v], counted as a hit, and keeps the entries; a
    [get(k)] made once [now >= expiry] returns the default, and the cache it
    leaves has the entry removed (counted as an eviction and a miss): the
    removal is done by that very read. *)
Theorem ttl_entry_expires_on_read
        (c : TTLCache.t K V) (k : K) (v : V) (ttl : option Z) (w : World) :
  1 <= TTLCache._maxsize c ->
  let expiry := now w + match ttl with
                        | Some x => x
                        | None => TTLCache._default_ttl c
                        end in
  exists c1 : TTLCache.t K V,
    fst (TTLCache.set K_eqb k v ttl c w) = inr c1 /\
    forall (default : option V) (w' : World),
      let r := fst (TTLCache.get K_eqb k default c1 w') in
      (now w' < expiry ->
       fst r = Some v /\
       TTLCache._cache (snd r) = TTLCache._cache c1 /\
       TTLCache._stats (snd r) = count_hit (TTLCache._stats c1)) /\
      (expiry <= now w' ->
       fst r = default /\
       TTLCache._cache (snd r) = delitem K_eqb k (TTLCache._cache c1) /\
       contains K_eqb k (TTLCache._cache (snd r)) = false /\
       TTLCache._stats (snd r)
         = count_miss (count_evictions 1 (TTLCache._stats c1))).
Proof.
  intros Hmax expiry.
  destruct (ttl_set_stores K_eqb K_eqb_eq c k v ttl w Hmax) as (c1 & Hset & Hget).
  exists c1. split; [exact Hset|].
  intros default w' r. subst r. split; intros Hnow.
  - rewrite (ttl_get_fresh K_eqb c1 k v expiry default w' Hget Hnow).
    simpl. auto.
  - rewrite (ttl_get_expired K_eqb c1 k v expiry default w' Hget Hnow).
    simpl. repeat split; trivial.
    now apply contains_delitem.
Qed.

End TTLClaim.

Lemma ttl_entry_expires_on_read_witness :
  1 <= TTLCache._maxsize small_ttl_cache /\
  exists c1 : TTLCache.t string Z,
    fst (TTLCache.set String.eqb "k" 7 (Some 1)
           small_ttl_cache (world_at 100 healthy)) = inr c1 /\
    fst (fst (TTLCache.get String.eqb "k" None c1 (world_at 100 healthy))) = Some 7 /\
    fst (fst (TTLCache.get String.eqb "k" None c1 (world_at 101 healthy))) = None.
Proof.
  split; [evaluated|].
  destruct (ttl_entry_expires_on_read String.eqb String.eqb_eq
              small_ttl_cache "k" 7 (Some 1)
              (world_at 100 healthy) ltac:(evaluated))
    as (c1 & Hset & Hread).
  exists c1. split; [exact Hset|]. split.
  - apply (Hread None (world_at 100 healthy)). evaluated.
  - apply (Hread None (world_at 101 healthy)). evaluated.
Defined.

(** ** The LRU cache *)

Section LRUFacts.

Context {K V : Type}.
Variable K_eqb : K -> K -> bool.
Hypothesis K_eqb_eq : forall a b : K, K_eqb a b = true <-> a = b.

Local Abbreviation dict := (list (K * V)).

Lemma by_recency_filter (la : K -> nat) (f : K * V -> bool) (d : dict) :
  by_recency la d -> by_recency la (filter f d).
Proof.
  induction d as [|kv d IH]; simpl; [trivial|].
  intros [Hhead Htail]. destruct (f kv); simpl; [|auto].
  split; [|auto].
  intros kv' Hin. apply filter_In in Hin. now apply Hhead.
Qed.

Lemma by_recency_snoc (la : K -> nat) (d : dict) (y : K * V) :
  by_recency la d ->
  (forall kv, In kv d -> (la (fst kv) < la (fst y))%nat) ->
  by_recency la (d ++ [y]).
Proof.
  induction d as [|kv d IH]; simpl.
  - intros _ _. split; [intros kv' []|exact I].
  - intros [Hhead Htail] Hy. split.
    + intros kv' Hin. apply in_app_or in Hin as [Hin|[<-|[]]].
      * now apply Hhead.
      * apply Hy. now left.
    + apply IH; [exact Htail|]. intros kv' Hin. apply Hy. now right.
Qed.

Lemma by_recency_ext (la la' : K -> nat) (d : dict) :
  (forall kv, In kv d -> la' (fst kv) = la (fst kv)) ->
  by_recency la d -> by_recency la' d.
Proof.
  induction d as [|kv d IH]; simpl; [trivial|].
  intros Hext [Hhead Htail]. split.
  - intros kv' Hin. rewrite (Hext kv), (Hext kv') by auto. now apply Hhead.
  - apply IH; [|exact Htail]. intros kv' Hin. apply Hext. now right.
Qed.

Lemma contains_false_In (k : K) (d : dict) :
  contains K_eqb k d = false -> forall kv, In kv d -> fst kv <> k.
Proof.
  intros Hc kv Hin Heq.
  assert (Hin' : In k (dict_keys d)) by (rewrite <- Heq; now apply in_map).
  apply (contains_In K_eqb K_eqb_eq) in Hin'. congruence.
Qed.

Lemma touch_same (k : K) (step : nat) (la : K -> nat) :
  touch K_eqb (Some k) step la k = step.
Proof. simpl. now rewrite (K_eqb_refl K_eqb K_eqb_eq). Qed.

Lemma touch_other (k k' : K) (step : nat) (la : K -> nat) :
  k' <> k -> touch K_eqb (Some k) step la k' = la k'.
Proof. intros H. simpl. now rewrite (K_eqb_neq K_eqb K_eqb_eq). Qed.

Lemma length_delitem_le (k : K) (d : dict) :
  (List.length (delitem K_eqb k d) <= List.length d)%nat.
Proof. apply filter_length_le. Qed.

(** Storing a key that is absent puts it last, as the most recent access. *)
Lemma store_absent (la : K -> nat) (step : nat) (key : K) (value : V) (d : dict) :
  by_recency la d ->
  (forall kv, In kv d -> (la (fst kv) < step)%nat) ->
  contains K_eqb key d = false ->
  let la' := touch K_eqb (Some key) step la in
  let d' := setitem K_eqb key value d in
  d' = d ++ [(key, value)] /\
  by_recency la' d' /\
  (forall kv, In kv d' -> (la' (fst kv) < S step)%nat).
Proof.
  intros Hsorted Hbound Habsent la' d'. subst d'.
  rewrite (setitem_new K_eqb key value d Habsent).
  assert (Hsame : forall kv, In kv d -> la' (fst kv) = la (fst kv)).
  { intros kv Hin. apply touch_other.
    now apply (contains_false_In key d). }
  split; [reflexivity|]. split.
  - apply by_recency_snoc.
    + now apply (by_recency_ext la).
    + intros kv Hin. rewrite (Hsame kv Hin). cbn [fst]. unfold la'.
      rewrite touch_same. now apply Hbound.
  - intros kv Hin. apply in_app_or in Hin as [Hin|[<-|[]]].
    + rewrite (Hsame kv Hin). specialize (Hbound kv Hin). lia.
    + cbn [fst]. unfold la'. rewrite touch_same. lia.
Qed.

(** Moving an entry to the end, as a hit and an overwrite do. *)
Lemma move_to_end (la : K -> nat) (step : nat) (key : K) (value : V) (d : dict) :
  by_recency la d ->
  (forall kv, In kv d -> (la (fst kv) < step)%nat) ->
  let la' := touch K_eqb (Some key) step la in
  let d' := setitem K_eqb key value (delitem K_eqb key d) in
  d' = delitem K_eqb key d ++ [(key, value)] /\
  by_recency la' d' /\
  (forall kv, In kv d' -> (la' (fst kv) < S step)%nat).
Proof.
  intros Hsorted Hbound. apply store_absent.
  - now apply by_recency_filter.
  - intros kv Hin. apply Hbound.
    now apply (In_delitem K_eqb K_eqb_eq) in Hin.
  - apply contains_delitem.
Qed.

Lemma len_app_one (d : dict) (kv : K * V) : len (d ++ [kv]) = len d + 1.
Proof. unfold len. rewrite length_app. simpl. lia. Qed.

Lemma len_delitem_present (k : K) (d : dict) :
  contains K_eqb k d = true -> len (delitem K_eqb k d) + 1 <= len d.
Proof.
  unfold len. induction d as [|[k' x] d IH]; simpl; [discriminate|].
  destruct (K_eqb k k') eqn:E; simpl.
  - intros _. pose proof (length_delitem_le k d). unfold delitem in *. lia.
  - intros H. specialize (IH H). unfold delitem in *. lia.
Qed.

(** No operation raises on a cache that satisfies the invariant, and the
    invariant holds again afterwards. *)
Lemma perform_preserves (n : Z) (step : nat) (op : Operation K V)
      (c : LRUCache.t K V) (la : K -> nat) :
  lru_invariant n step c la ->
  exists c' : LRUCache.t K V,
    perform K_eqb op c = inr c' /\
    lru_invariant n (S step) c' (touch K_eqb (accessed K_eqb op c) step la).
Proof.
  intros (Hn & Hmax & Hlen & Hsorted & Hbound).
  assert (Hweak : forall kv, In kv (LRUCache._cache c) -> (la (fst kv) < S step)%nat)
    by (intros kv Hin; specialize (Hbound kv Hin); lia).
  destruct op as [key default|key value|key|]; cbn [perform accessed].
  - (* get *)
    unfold LRUCache.get.
    destruct (getitem K_eqb key (LRUCache._cache c)) as [value|] eqn:Eget.
    + assert (Hin : contains K_eqb key (LRUCache._cache c) = true).
      { destruct (contains K_eqb key (LRUCache._cache c)) eqn:E; [reflexivity|].
        apply (getitem_contains K_eqb) in E. congruence. }
      rewrite Hin.
      destruct (move_to_end la step key value _ Hsorted Hbound) as (Heq & Hs & Hb).
      eexists. split; [reflexivity|]. cbn [snd].
      unfold lru_invariant. cbn [LRUCache._maxsize LRUCache._cache].
      repeat split; trivial.
      rewrite Heq, len_app_one. pose proof (len_delitem_present key _ Hin). lia.
    + apply (getitem_contains K_eqb) in Eget. rewrite Eget.
      eexists. split; [reflexivity|]. cbn [snd touch].
      unfold lru_invariant. cbn [LRUCache._maxsize LRUCache._cache].
      repeat split; trivial.
  - (* set *)
    unfold LRUCache.set.
    destruct (contains K_eqb key (LRUCache._cache c)) eqn:Ein.
    + destruct (move_to_end la step key value _ Hsorted Hbound) as (Heq & Hs & Hb).
      eexists. split; [reflexivity|].
      unfold lru_invariant. cbn [LRUCache._maxsize LRUCache._cache].
      repeat split; trivial.
      rewrite Heq, len_app_one. pose proof (len_delitem_present key _ Ein). lia.
    + destruct (Z.geb_spec (len (LRUCache._cache c)) (LRUCache._maxsize c)) as [Hfull|Hroom].
      * destruct (LRUCache._cache c) as [|kv0 rest] eqn:Ed.
        { unfold len in Hfull. simpl in Hfull. lia. }
        cbn [LRUCache.popitem_first].
        simpl in Ein. apply orb_false_elim in Ein as [_ Ein].
        destruct Hsorted as [_ Hsorted].
        destruct (store_absent la step key value rest Hsorted
                    (fun kv Hin => Hbound kv (or_intror Hin)) Ein)
          as (Heq & Hs & Hb).
        eexists. split; [reflexivity|].
        unfold lru_invariant. cbn [LRUCache._maxsize LRUCache._cache].
        repeat split; trivial.
        rewrite Heq, len_app_one. unfold len in *. simpl in Hlen. lia.
      * destruct (store_absent la step key value _ Hsorted Hbound Ein)
          as (Heq & Hs & Hb).
        eexists. split; [reflexivity|].
        unfold lru_invariant. cbn [LRUCache._maxsize LRUCache._cache].
        repeat split; trivial.
        rewrite Heq, len_app_one. lia.
  - (* delete *)
    unfold LRUCache.delete.
    destruct (contains K_eqb key (LRUCache._cache c)) eqn:Ein.
    + eexists. split; [reflexivity|]. cbn [snd touch].
      unfold lru_invariant. cbn [LRUCache._maxsize LRUCache._cache].
      repeat split; trivial.
      * pose proof (len_delitem_present key _ Ein). lia.
      * now apply by_recency_filter.
      * intros kv Hin. apply Hweak.
        now apply (In_delitem K_eqb K_eqb_eq) in Hin.
    + eexists. split; [reflexivity|]. cbn [snd touch].
      unfold lru_invariant. repeat split; trivial.
  - (* clear *)
    eexists. split; [reflexivity|]. cbn [touch].
    unfold lru_invariant, LRUCache.clear. cbn [LRUCache._maxsize LRUCache._cache].
    repeat split; trivial.
    + unfold len. simpl. lia.
    + intros kv [].
Qed.

Lemma run_preserves (ops : list (Operation K V)) :
  forall (n : Z) (step : nat) (c c' : LRUCache.t K V) (la la' : K -> nat),
    lru_invariant n step c la ->
    run K_eqb ops step c la = inr (c', la') ->
    exists step', lru_invariant n step' c' la'.
Proof.
  induction ops as [|op ops IH]; intros n step c c' la la' Hinv Hrun.
  - simpl in Hrun. inversion Hrun; subst. now exists step.
  - cbn [run] in Hrun.
    destruct (perform_preserves n step op c la Hinv) as (c1 & Hop & Hinv1).
    rewrite Hop in Hrun. exact (IH n (S step) c1 c' _ la' Hinv1 Hrun).
Qed.

(** A cache that satisfies the invariant never makes a history fail. *)
Lemma run_never_raises (ops : list (Operation K V)) :
  forall (n : Z) (step : nat) (c : LRUCache.t K V) (la : K -> nat),
    lru_invariant n step c la ->
    exists r, run K_eqb ops step c la = inr r.
Proof.
  induction ops as [|op ops IH]; intros n step c la Hinv.
  - simpl. eauto.
  - cbn [run].
    destruct (perform_preserves n step op c la Hinv) as (c1 & Hop & Hinv1).
    rewrite Hop. now apply (IH n (S step)).
Qed.

Lemma init_invariant (n : Z) (c0 : LRUCache.t K V) (la : K -> nat) (step : nat) :
  LRUCache.__init__ n = inr c0 -> lru_invariant n step c0 la.
Proof.
  unfold LRUCache.__init__. destruct (Z.leb_spec n 0) as [Hn|Hn]; [discriminate|].
  intros Hinit. inversion Hinit; subst. unfold lru_invariant. simpl.
  repeat split; trivial; try lia; try (unfold len; simpl; lia).
Qed.

End LRUFacts.

Section LRUClaim.

Context {K V : Type}.
Variable K_eqb : K -> K -> bool.
Hypothesis K_eqb_eq : forall a b : K, K_eqb a b = true <-> a = b.

(** C8.  Take a cache built with capacity [n] and any history of [get],
    [set], [delete] and [clear] operations on it, where a [set] and a [get]
    that hits count as accesses.  If the cache then holds [n] entries and
    [key] is not among them, [set(key, value)] evicts exactly the entry whose
    last access is older than that of every other entry: the cache is left
    with all the other entries, in their order, followed by the new one. *)
Theorem lru_evicts_least_recently_accessed
        (n : Z) (ops : list (Operation K V)) (c0 c : LRUCache.t K V)
        (last_access : K -> nat) (key : K) (value : V) :
  LRUCache.__init__ n = inr c0 ->
  run K_eqb ops 1 c0 (fun _ => 0%nat) = inr (c, last_access) ->
  contains K_eqb key (LRUCache._cache c) = false ->
  len (LRUCache._cache c) = n ->
  exists (lru : K * V) (rest : list (K * V)) (c' : LRUCache.t K V),
    LRUCache._cache c = lru :: rest /\
    (forall kv, In kv rest -> (last_access (fst lru) < last_access (fst kv))%nat) /\
    LRUCache.set K_eqb key value c = inr c' /\
    LRUCache._cache c' = rest ++ [(key, value)] /\
    evictions (LRUCache._stats c') = evictions (LRUCache._stats c) + 1.
Proof.
  intros Hinit Hrun Habsent Hfull.
  destruct (run_preserves K_eqb K_eqb_eq ops n 1 c0 c _ last_access
              (init_invariant n c0 _ 1 Hinit) Hrun)
    as (step & Hn & Hmax & Hlen & Hsorted & Hbound).
  destruct (LRUCache._cache c) as [|lru rest] eqn:Ed.
  { unfold len in Hfull. simpl in Hfull. lia. }
  exists lru, rest.
  unfold LRUCache.set. rewrite Ed, Habsent.
  destruct (Z.geb_spec (len (lru :: rest)) (LRUCache._maxsize c)) as [_|Hroom];
    [|lia].
  cbn [LRUCache.popitem_first].
  simpl in Habsent. apply orb_false_elim in Habsent as [_ Habsent].
  eexists. split; [reflexivity|]. split; [exact (proj1 Hsorted)|].
  split; [reflexivity|]. cbn [LRUCache._cache LRUCache._stats].
  split; [now apply setitem_new|reflexivity].
Qed.

End LRUClaim.

Lemma lru_evicts_least_recently_accessed_witness :
  exists (c : LRUCache.t string Z) (last_access : string -> nat),
    (LRUCache.__init__ 2 = inr small_lru_cache /\
     run String.eqb two_keys_first_reread 1 small_lru_cache (fun _ => 0%nat)
       = inr (c, last_access) /\
     contains String.eqb "c" (LRUCache._cache c) = false /\
     len (LRUCache._cache c) = 2) /\
    LRUCache._cache c = [("b", 2); ("a", 1)] /\
    exists c' : LRUCache.t string Z,
      LRUCache.set String.eqb "c" 3 c = inr c' /\
      LRUCache._cache c' = [("a", 1); ("c", 3)].
Proof.
  eexists. eexists. split.
  - split; [reflexivity|]. split; [cbv; reflexivity|]. split; reflexivity.
  - split; [reflexivity|].
    match goal with
    | |- exists c', LRUCache.set _ _ _ ?c = _ /\ _ =>
        destruct (lru_evicts_least_recently_accessed String.eqb String.eqb_eq
                    2 two_keys_first_reread small_lru_cache c _ "c" 3
                    eq_refl eq_refl eq_refl eq_refl)
          as (lru & rest & c' & Hc & _ & Hset & Hcache & _)
    end.
    exists c'. split; [exact Hset|].
    rewrite Hcache. cbn [LRUCache._cache] in Hc. now inversion Hc.
Defined.

(** ** The client: one statement at a time *)

Section ClientSteps.

Variable _IMPORTS_AVAILABLE : bool.
Variable Data : Type.
Variable truthy : Data -> bool.
Variable json_dumps : bool -> Data -> Result string.
Variable json_loads : string -> option Data.
Variable sha256_hexdigest : string -> string.

Import ExternalAPIClient.

Local Abbreviation client := (ExternalAPIClient.t Data).
Local Abbreviation response := (ExternalServiceResponse Data).
Local Abbreviation Eff := (ExternalAPIClient.E Data).

Lemma bindE_inr {A B} (m : Eff A) (k : A -> Eff B) (s s' : client * World) (a : A) :
  m s = (inr a, s') -> bindE m k s = k a s'.
Proof. intros H. unfold bindE. now rewrite H. Qed.

Lemma bindE_inl {A B} (m : Eff A) (k : A -> Eff B) (s s' : client * World)
      (e : Exception) :
  m s = (inl e, s') -> bindE m k s = (inl e, s').
Proof. intros H. unfold bindE. now rewrite H. Qed.

(** *** The breaker gate *)

Lemma check_circuit_breaker_absent (self : client) (w : World) :
  circuit_breaker self = None ->
  check_circuit_breaker (self, w) = (inr tt, (self, w)).
Proof.
  intros H. unfold check_circuit_breaker, bindE, get_self. now rewrite H.
Qed.

Lemma check_circuit_breaker_present (self : client) (w : World)
      (cb : CircuitBreaker.t) :
  circuit_breaker self = Some cb ->
  check_circuit_breaker (self, w) =
    (if fst (fst (CircuitBreaker.can_execute cb w))
     then inr tt
     else inl (mkException IntegrationError
                 "Circuit breaker is open - service unavailable"),
     (with_circuit_breaker (Some (snd (fst (CircuitBreaker.can_execute cb w)))) self,
      snd (CircuitBreaker.can_execute cb w))).
Proof.
  intros H. unfold check_circuit_breaker, bindE, get_self, lift, modify_self.
  rewrite H. destruct (CircuitBreaker.can_execute cb w) as [[ok cb'] w'].
  simpl. now destruct ok.
Qed.

(** The gate never issues a request and touches nothing but the breaker. *)
Lemma check_circuit_breaker_frame (self : client) (w : World) :
  let r := check_circuit_breaker (self, w) in
  rate_limiter (fst (snd r)) = rate_limiter self /\
  response_cache (fst (snd r)) = response_cache self /\
  config (fst (snd r)) = config self /\
  error_count (fst (snd r)) = error_count self /\
  requests (snd (snd r)) = requests w /\
  transport (snd (snd r)) = transport w.
Proof.
  destruct (circuit_breaker self) as [cb|] eqn:E.
  - rewrite (check_circuit_breaker_present self w cb E). cbn [fst snd].
    unfold CircuitBreaker.can_execute, bind, time_time, ret,
      CircuitBreaker._transition_to_half_open.
    destruct (CircuitBreaker.state cb); simpl; auto 7.
    destruct (_ >=? _); simpl; auto 7.
  - rewrite (check_circuit_breaker_absent self w E). simpl. auto 7.
Qed.

(** *** The rate-limit gate *)

Lemma check_rate_limit_on (self : client) (w : World) :
  _IMPORTS_AVAILABLE = true ->
  check_rate_limit _IMPORTS_AVAILABLE (self, w) =
    (if fst (fst (RateLimiter.allow_request "api_call" (rate_limiter self) w))
     then inr tt
     else inl (mkException IntegrationError "Rate limit exceeded"),
     (with_rate_limiter
        (snd (fst (RateLimiter.allow_request "api_call" (rate_limiter self) w))) self,
      snd (RateLimiter.allow_request "api_call" (rate_limiter self) w))).
Proof.
  intros H. unfold check_rate_limit, bindE, get_self, lift, modify_self.
  rewrite H.
  destruct (RateLimiter.allow_request "api_call" (rate_limiter self) w)
    as [[ok rl'] w'].
  simpl. now destruct ok.
Qed.

Lemma check_rate_limit_off (self : client) (w : World) :
  _IMPORTS_AVAILABLE = false ->
  check_rate_limit _IMPORTS_AVAILABLE (self, w) = (inr tt, (self, w)).
Proof. intros H. unfold check_rate_limit. now rewrite H. Qed.

Lemma allow_request_world (rl : RateLimiter.t) (w : World) :
  snd (RateLimiter.allow_request "api_call" rl w) = tick w.
Proof.
  unfold RateLimiter.allow_request, bind, time_time, ret.
  destruct (_ >=? _); simpl; destruct (_ <? _); reflexivity.
Qed.

Lemma check_rate_limit_frame (self : client) (w : World) :
  let r := check_rate_limit _IMPORTS_AVAILABLE (self, w) in
  circuit_breaker (fst (snd r)) = circuit_breaker self /\
  response_cache (fst (snd r)) = response_cache self /\
  config (fst (snd r)) = config self /\
  error_count (fst (snd r)) = error_count self /\
  requests (snd (snd r)) = requests w /\
  transport (snd (snd r)) = transport w.
Proof.
  destruct _IMPORTS_AVAILABLE eqn:E.
  - pose proof (check_rate_limit_on self w) as H. rewrite E in H.
    rewrite (H eq_refl). cbn [fst snd]. rewrite allow_request_world.
    simpl. auto 7.
  - pose proof (check_rate_limit_off self w) as H. rewrite E in H.
    rewrite (H eq_refl). simpl. auto 7.
Qed.

(** *** The cache lookup *)

Lemma lookup_cache_on (self : client) (w : World) (key : string) :
  _IMPORTS_AVAILABLE = true ->
  lookup_cache _IMPORTS_AVAILABLE key (self, w) =
    (inr (fst (LRUCache.get String.eqb key None (response_cache self))),
     (with_response_cache
        (snd (LRUCache.get String.eqb key None (response_cache self))) self,
      w)).
Proof.
  intros H. unfold lookup_cache, bindE, get_self, modify_self, pure.
  now rewrite H.
Qed.

Lemma lookup_cache_off (self : client) (w : World) (key : string) :
  _IMPORTS_AVAILABLE = false ->
  lookup_cache _IMPORTS_AVAILABLE key (self, w) = (inr None, (self, w)).
Proof. intros H. unfold lookup_cache. now rewrite H. Qed.

Lemma lookup_cache_frame (self : client) (w : World) (key : string) :
  let r := lookup_cache _IMPORTS_AVAILABLE key (self, w) in
  circuit_breaker (fst (snd r)) = circuit_breaker self /\
  rate_limiter (fst (snd r)) = rate_limiter self /\
  config (fst (snd r)) = config self /\
  error_count (fst (snd r)) = error_count self /\
  snd (snd r) = w.
Proof.
  destruct _IMPORTS_AVAILABLE eqn:E.
  - pose proof (lookup_cache_on self w key) as H. rewrite E in H.
    rewrite (H eq_refl). simpl. auto.
  - pose proof (lookup_cache_off self w key) as H. rewrite E in H.
    rewrite (H eq_refl). simpl. auto.
Qed.

(** A lookup answers with an entry exactly when the cache holds the key. *)
Lemma lookup_cache_hit (self : client) (w : World) (key : string) (r : response)
      (s : client * World) :
  lookup_cache _IMPORTS_AVAILABLE key (self, w) = (inr (Some r), s) ->
  _IMPORTS_AVAILABLE = true /\
  getitem String.eqb key (LRUCache._cache (response_cache self)) = Some r.
Proof.
  destruct _IMPORTS_AVAILABLE eqn:E.
  - pose proof (lookup_cache_on self w key) as H. rewrite E in H.
    rewrite (H eq_refl). unfold LRUCache.get.
    destruct (getitem String.eqb key _) as [v|]; simpl; intros Heq;
      inversion Heq; subst; auto.
  - pose proof (lookup_cache_off self w key) as H. rewrite E in H.
    rewrite (H eq_refl). discriminate.
Qed.

(** *** Returning a cached response *)

Lemma return_cached_spec (self : client) (w : World) (key : string) (r : response) :
  return_cached key r (self, w) =
    (inr (mark_cached r),
     (with_response_cache
        (LRUCache.mk (LRUCache._maxsize (response_cache self))
           (setitem String.eqb key (mark_cached r)
              (LRUCache._cache (response_cache self)))
           (LRUCache._stats (response_cache self))) self,
      w)).
Proof. reflexivity. Qed.

(** *** Storing the response *)

(** With the imports available the call that stores the response raises:
    [LRUCache.set] has no parameter [ttl]. *)
Lemma store_response_raises (self : client) (w : World) (key : string) (r : response) :
  _IMPORTS_AVAILABLE = true ->
  store_response _IMPORTS_AVAILABLE key r (self, w) =
    (inl (mkException TypeError
            "LRUCache.set() got an unexpected keyword argument 'ttl'"),
     (self, w)).
Proof. intros H. unfold store_response. now rewrite H. Qed.

Lemma store_response_off (self : client) (w : World) (key : string) (r : response) :
  _IMPORTS_AVAILABLE = false ->
  store_response _IMPORTS_AVAILABLE key r (self, w) = (inr tt, (self, w)).
Proof. intros H. unfold store_response. now rewrite H. Qed.

(** *** Recording on the breaker *)

Lemma on_breaker_spec (method : CircuitBreaker.t -> M CircuitBreaker.t)
      (self : client) (w : World) :
  on_breaker method (self, w) =
    match circuit_breaker self with
    | Some cb =>
        (inr tt, (with_circuit_breaker (Some (fst (method cb w))) self,
                  snd (method cb w)))
    | None => (inr tt, (self, w))
    end.
Proof.
  unfold on_breaker, bindE, get_self, lift, modify_self.
  destruct (circuit_breaker self) as [cb|]; [|reflexivity].
  now destruct (method cb w).
Qed.

(** *** The handler *)

(** The [except] block never raises: it records a failure on the breaker,
    counts the error and builds a failure response that carries [str(e)]. *)
Lemma call_api_except_spec (start_time : Z) (endpoint method : string)
      (e : Exception) (self : client) (w : World) :
  let s1 := snd (on_breaker CircuitBreaker.record_failure (self, w)) in
  call_api_except start_time endpoint method e (self, w) =
    (inr (mkExternalServiceResponse false NoData (Some (str e))
            ((now (snd s1) - start_time) * 1000) false
            (provider_value (provider (config self))) 1
            [("endpoint", MetaStr endpoint); ("method", MetaStr method);
             ("error_type", MetaStr (type_name (exc_type e)))]),
     (count_error (fst s1), tick (snd s1))).
Proof.
  unfold call_api_except. rewrite on_breaker_spec.
  destruct (circuit_breaker self) as [cb|] eqn:Ecb.
  - unfold bindE. rewrite on_breaker_spec, Ecb. reflexivity.
  - unfold bindE. rewrite on_breaker_spec, Ecb. reflexivity.
Qed.

End ClientSteps.

(** ** The retry loop *)

Section RetryFacts.

Variable Data : Type.
Variable truthy : Data -> bool.
Variable json_dumps : bool -> Data -> Result string.
Variable json_loads : string -> option Data.

Import ExternalAPIClient.

Local Abbreviation client := (ExternalAPIClient.t Data).
Local Abbreviation attempt :=
  (_execute_with_retry__wrapped__ truthy json_dumps json_loads).
Local Abbreviation execute :=
  (_execute_with_retry truthy json_dumps json_loads).

(** One run of the body sends one request and settles as the outcome says. *)
Lemma attempt_spec (endpoint method : string) (data : option Data)
      (headers : option (list (string * string))) (self : client) (w : World) :
  payload_serializes truthy json_dumps data ->
  let r := attempt endpoint method data headers (self, w) in
  snd r = (self, request_sent w) /\
  match transport w (requests w) with
  | ConnectionFailed message => fst r = inl (mkException ClientError message)
  | TimedOut message => fst r = inl (mkException TimeoutError message)
  | HttpResponse status text =>
      if status >=? 400
      then fst r = inl (mkException IntegrationError
                          ("API error " ++ str_int status ++ ": " ++ text)%string)
      else exists d, fst r = inr d
  end.
Proof.
  intros Hpayload.
  unfold _execute_with_retry__wrapped__, bindE, of_result, send_request.
  assert (Hsend :
    let r := match transport w (requests w) with
             | ConnectionFailed message =>
                 raise (mkException ClientError message)
             | TimedOut message =>
                 raise (mkException TimeoutError message)
             | HttpResponse status response_text =>
                 if status >=? 400
                 then raise (mkException IntegrationError
                        ("API error " ++ str_int status ++ ": " ++ response_text)%string)
                 else match json_loads response_text with
                      | Some d => pure (Decoded d)
                      | None => pure (RawResponse response_text)
                      end
             end (self, request_sent w) in
    snd r = (self, request_sent w) /\
    match transport w (requests w) with
    | ConnectionFailed message => fst r = inl (mkException ClientError message)
    | TimedOut message => fst r = inl (mkException TimeoutError message)
    | HttpResponse status text =>
        if status >=? 400
        then fst r = inl (mkException IntegrationError
                            ("API error " ++ str_int status ++ ": " ++ text)%string)
        else exists d : ResponseData Data, fst r = inr d
    end).
  { destruct (transport w (requests w)) as [message|message|status text];
      simpl; try (split; reflexivity).
    destruct (status >=? 400); simpl; [split; reflexivity|].
    destruct (json_loads text); simpl; split; eauto. }
  destruct data as [d|]; [|exact Hsend].
  cbn [payload_serializes] in Hpayload.
  destruct (truthy d); [|exact Hsend].
  destruct (Hpayload eq_refl) as (text & Htext). rewrite Htext. exact Hsend.
Qed.

Section OneRequest.

Variables endpoint method : string.
Variable data : option Data.
Variable headers : option (list (string * string)).
Hypothesis Hpayload : payload_serializes truthy json_dumps data.

Lemma retry_last_try (self : client) (w : World) :
  retry retried_exceptions 0 (attempt endpoint method data headers) (self, w)
  = attempt endpoint method data headers (self, w).
Proof.
  simpl. destruct (attempt endpoint method data headers (self, w)) as [[e|d] s];
    [|reflexivity].
  now destruct (retried_exceptions (exc_type e)).
Qed.

Lemma retry_step (n : nat) (self : client) (w : World) :
  retry retried_exceptions (S n) (attempt endpoint method data headers) (self, w)
  = if transient (transport w (requests w))
    then retry retried_exceptions n (attempt endpoint method data headers)
           (self, request_sent w)
    else attempt endpoint method data headers (self, w).
Proof.
  cbn [retry].
  destruct (attempt_spec endpoint method data headers self w Hpayload) as [Hs Hr].
  cbn zeta in Hs, Hr.
  destruct (attempt endpoint method data headers (self, w)) as [res s].
  cbn [fst snd] in Hs, Hr. subst s.
  destruct (transport w (requests w)) as [message|message|status text];
    cbn [transient].
  - subst res. reflexivity.
  - subst res. reflexivity.
  - destruct (status >=? 400).
    + subst res. reflexivity.
    + destruct Hr as (d & ->). reflexivity.
Qed.

(** [_execute_with_retry] amounts to one run of the body, preceded by one
    request for each transient outcome among the first two. *)
Lemma execute_requests (self : client) (w : World) :
  execute endpoint method data headers (self, w)
  = attempt endpoint method data headers
      (self,
       if transient (transport w (requests w))
       then if transient (transport w (S (requests w)))
            then request_sent (request_sent w)
            else request_sent w
       else w).
Proof.
  unfold _execute_with_retry, on_exception. cbn [Nat.pred].
  rewrite retry_step.
  destruct (transient (transport w (requests w))); [|reflexivity].
  rewrite retry_step. cbn [request_sent transport requests].
  destruct (transient (transport w (S (requests w)))); [|reflexivity].
  apply retry_last_try.
Qed.

End OneRequest.

End RetryFacts.

Section RetryClaim.

Variable Data : Type.
Variable truthy : Data -> bool.
Variable json_dumps : bool -> Data -> Result string.
Variable json_loads : string -> option Data.

Import ExternalAPIClient.

(** C5, as the code has it.  With [max_retries] at its default 3, a call
    that reaches the transport sends between one and [max_retries] requests.
    A request that fails with a transport exception (a connection error or a
    timeout) is followed by another one as long as fewer than [max_retries]
    have been sent; a request that is answered ends the call, whatever the
    status: an answer with status 400 or more, 5xx as well as 4xx, raises
    [IntegrationError] and is not retried, so that such an answer to the
    first request means exactly one request. *)
Theorem retry_only_on_transport_exceptions
        (endpoint method : string) (data : option Data)
        (headers : option (list (string * string)))
        (self : ExternalAPIClient.t Data) (w : World) :
  max_retries (config self) = 3 ->
  payload_serializes truthy json_dumps data ->
  let r := _execute_with_retry truthy json_dumps json_loads
             endpoint method data headers (self, w) in
  let sent := (requests (snd (snd r)) - requests w)%nat in
  let outcome (i : nat) := transport w (requests w + i)%nat in
  (1 <= sent)%nat /\
  Z.of_nat sent <= max_retries (config self) /\
  (forall i, (i < sent)%nat -> transient (outcome i) = true ->
             Z.of_nat (S i) < max_retries (config self) -> (S i < sent)%nat) /\
  (forall i, (i < sent)%nat -> transient (outcome i) = false -> sent = S i) /\
  (forall status text,
      outcome 0%nat = HttpResponse status text -> 400 <= status ->
      sent = 1%nat /\
      fst r = inl (mkException IntegrationError
                     ("API error " ++ str_int status ++ ": " ++ text)%string)).
Proof.
  intros Hmax Hpayload r sent outcome. subst r sent.
  rewrite (execute_requests Data truthy json_dumps json_loads
             endpoint method data headers Hpayload self w).
  rewrite Hmax.
  assert (H0 : outcome 0%nat = transport w (requests w))
    by (unfold outcome; now rewrite Nat.add_0_r).
  assert (H1 : outcome 1%nat = transport w (S (requests w)))
    by (unfold outcome; now rewrite Nat.add_1_r).
  rewrite <- H0, <- H1.
  destruct (transient (outcome 0%nat)) eqn:T0;
    [destruct (transient (outcome 1%nat)) eqn:T1|];
    match goal with
    | |- context [_execute_with_retry__wrapped__ _ _ _ _ _ _ _ (self, ?w')] =>
        destruct (attempt_spec Data truthy json_dumps json_loads
                    endpoint method data headers self w' Hpayload) as [Hs Hr];
        cbn zeta in Hs, Hr; rewrite Hs; cbn [fst snd request_sent requests]
    end.
  - (* two transient outcomes: three requests *)
    replace (S (S (S (requests w))) - requests w)%nat with 3%nat by lia.
    split; [lia|]. split; [lia|]. split; [|split].
    + intros [|[|[|i]]] Hi Ht; lia.
    + intros [|[|[|i]]] Hi Ht; try lia; congruence.
    + intros status text Ho. rewrite Ho in T0. discriminate.
  - (* a transient outcome, then one that is not: two requests *)
    replace (S (S (requests w)) - requests w)%nat with 2%nat by lia.
    split; [lia|]. split; [lia|]. split; [|split].
    + intros [|[|i]] Hi Ht; try lia; congruence.
    + intros [|[|i]] Hi Ht; try lia; congruence.
    + intros status text Ho. rewrite Ho in T0. discriminate.
  - (* the first outcome is not transient: one request *)
    replace (S (requests w) - requests w)%nat with 1%nat by lia.
    split; [lia|]. split; [lia|]. split; [|split].
    + intros [|i] Hi Ht; try lia; congruence.
    + intros [|i] Hi Ht; lia.
    + intros status text Ho Hstatus. split; [reflexivity|].
      rewrite <- H0, Ho in Hr.
      destruct (Z.geb_spec status 400); [exact Hr|lia].
Qed.

End RetryClaim.

(** C5 fails as stated: a [503] answer is a server error, yet the call ends
    after that one request although [max_retries] is 3. *)
Lemma server_error_is_not_retried :
  max_retries (ExternalAPIClient.config (fst (fresh_client unavailable))) = 3 /\
  transport (snd (fresh_client unavailable)) 0%nat
    = HttpResponse 503 "Service Unavailable" /\
  requests
    (snd (snd (ExternalAPIClient._execute_with_retry text_truthy text_dumps text_loads
                 "health" "GET" None None (fresh_client unavailable)))) = 1%nat.
Proof. evaluated. Qed.

Lemma retry_only_on_transport_exceptions_witness :
  (max_retries (ExternalAPIClient.config (fst (fresh_client unresponsive))) = 3 /\
   ExternalAPIClient.payload_serializes text_truthy text_dumps None) /\
  (requests
     (snd (snd (ExternalAPIClient._execute_with_retry text_truthy text_dumps text_loads
                  "health" "GET" None None
                  (fst (fresh_client unresponsive), snd (fresh_client unresponsive)))))
   - requests (snd (fresh_client unresponsive)) = 3)%nat.
Proof.
  split; [split; [reflexivity|exact I]|].
  pose proof (retry_only_on_transport_exceptions string text_truthy text_dumps
                text_loads "health" "GET" None None
                (fst (fresh_client unresponsive)) (snd (fresh_client unresponsive))
                eq_refl I) as H.
  cbn zeta in H. destruct H as (Hone & Hmax & Hretry & _ & _).
  change (max_retries (ExternalAPIClient.config (fst (fresh_client unresponsive))))
    with 3 in Hmax, Hretry.
  match type of Hone with
  | (1 <= ?n)%nat => generalize dependent n; intros sent Hone Hmax Hretry
  end.
  assert (Htwo : (1 < sent)%nat)
    by (apply (Hretry 0%nat); [exact Hone|reflexivity|reflexivity]).
  assert (Hthree : (2 < sent)%nat)
    by (apply (Hretry 1%nat); [exact Htwo|reflexivity|reflexivity]).
  apply Nat.le_antisymm; [|exact Hthree].
  apply Nat2Z.inj_le. exact Hmax.
Defined.

(** ** The client: the paths through [call_api] *)

Section ClientPaths.

Variable _IMPORTS_AVAILABLE : bool.
Variable Data : Type.
Variable truthy : Data -> bool.
Variable json_dumps : bool -> Data -> Result string.
Variable json_loads : string -> option Data.
Variable sha256_hexdigest : string -> string.

Import ExternalAPIClient.

Local Abbreviation client := (ExternalAPIClient.t Data).
Local Abbreviation response := (ExternalServiceResponse Data).
Local Abbreviation try_block :=
  (call_api_try _IMPORTS_AVAILABLE truthy json_dumps json_loads sha256_hexdigest).
Local Abbreviation call :=
  (call_api _IMPORTS_AVAILABLE truthy json_dumps json_loads sha256_hexdigest).
Local Abbreviation cache_key := (_generate_cache_key truthy json_dumps sha256_hexdigest).
Local Abbreviation execute := (_execute_with_retry truthy json_dumps json_loads).

Variables endpoint method : string.
Variable data : option Data.
Variable headers : option (list (string * string)).

(** [call_api] reads the clock, runs the [try] block, and hands what it
    raises to the [except] block. *)
Lemma call_api_unfold (self : client) (w : World) :
  call endpoint method data headers (self, w) =
    match try_block (now w) endpoint method data headers (self, tick w) with
    | (inr r, s') => (inr r, s')
    | (inl e, s') => call_api_except (now w) endpoint method e s'
    end.
Proof. reflexivity. Qed.

Section TryBlock.

Variable start_time : Z.
Variables s0 s1 s2 s3 s4 : client * World.

Lemma try_breaker_refuses (e : Exception) :
  check_circuit_breaker s0 = (inl e, s1) ->
  try_block start_time endpoint method data headers s0 = (inl e, s1).
Proof.
  intros H0. unfold call_api_try, bindE. now rewrite H0.
Qed.

Lemma try_rate_limit_refuses (e : Exception) :
  check_circuit_breaker s0 = (inr tt, s1) ->
  check_rate_limit _IMPORTS_AVAILABLE s1 = (inl e, s2) ->
  try_block start_time endpoint method data headers s0 = (inl e, s2).
Proof.
  intros H0 H1. unfold call_api_try, bindE. now rewrite H0, H1.
Qed.

Lemma try_key_raises (e : Exception) :
  check_circuit_breaker s0 = (inr tt, s1) ->
  check_rate_limit _IMPORTS_AVAILABLE s1 = (inr tt, s2) ->
  cache_key endpoint method data = inl e ->
  try_block start_time endpoint method data headers s0 = (inl e, s2).
Proof.
  intros H0 H1 Hk. unfold call_api_try, bindE, of_result.
  now rewrite H0, H1, Hk.
Qed.

Lemma try_cache_hit (key : string) (cached_response : response) :
  check_circuit_breaker s0 = (inr tt, s1) ->
  check_rate_limit _IMPORTS_AVAILABLE s1 = (inr tt, s2) ->
  cache_key endpoint method data = inr key ->
  lookup_cache _IMPORTS_AVAILABLE key s2 = (inr (Some cached_response), s3) ->
  try_block start_time endpoint method data headers s0
  = return_cached key cached_response s3.
Proof.
  intros H0 H1 Hk H2. unfold call_api_try, bindE, of_result.
  now rewrite H0, H1, Hk, H2.
Qed.

Lemma try_transport_raises (key : string) (e : Exception) :
  check_circuit_breaker s0 = (inr tt, s1) ->
  check_rate_limit _IMPORTS_AVAILABLE s1 = (inr tt, s2) ->
  cache_key endpoint method data = inr key ->
  lookup_cache _IMPORTS_AVAILABLE key s2 = (inr None, s3) ->
  execute endpoint method data headers s3 = (inl e, s4) ->
  try_block start_time endpoint method data headers s0 = (inl e, s4).
Proof.
  intros H0 H1 Hk H2 H3. unfold call_api_try, bindE, of_result.
  now rewrite H0, H1, Hk, H2, H3.
Qed.

(** With the imports available, a call whose transport succeeds ends in the
    [TypeError] of the statement that stores the response: the success has
    been recorded on the breaker by then, nothing is stored, and the call is
    not counted. *)
Lemma try_transport_succeeds_on (key : string) (response_data : ResponseData Data) :
  _IMPORTS_AVAILABLE = true ->
  check_circuit_breaker s0 = (inr tt, s1) ->
  check_rate_limit _IMPORTS_AVAILABLE s1 = (inr tt, s2) ->
  cache_key endpoint method data = inr key ->
  lookup_cache _IMPORTS_AVAILABLE key s2 = (inr None, s3) ->
  execute endpoint method data headers s3 = (inr response_data, s4) ->
  try_block start_time endpoint method data headers s0
  = (inl (mkException TypeError
            "LRUCache.set() got an unexpected keyword argument 'ttl'"),
     snd (on_breaker CircuitBreaker.record_success (fst s4, tick (snd s4)))).
Proof.
  intros Hon H0 H1 Hk H2 H3. unfold call_api_try, bindE, of_result.
  rewrite H0, H1, Hk, H2, H3. destruct s4 as [self4 w4].
  unfold lift, time_time. cbn [fst snd].
  rewrite on_breaker_spec.
  destruct (circuit_breaker self4) as [cb|]; unfold get_self;
    rewrite store_response_raises by exact Hon; reflexivity.
Qed.

(** Without the imports nothing is cached and the success goes through. *)
Lemma try_transport_succeeds_off (key : string) (response_data : ResponseData Data) :
  _IMPORTS_AVAILABLE = false ->
  check_circuit_breaker s0 = (inr tt, s1) ->
  check_rate_limit _IMPORTS_AVAILABLE s1 = (inr tt, s2) ->
  cache_key endpoint method data = inr key ->
  lookup_cache _IMPORTS_AVAILABLE key s2 = (inr None, s3) ->
  execute endpoint method data headers s3 = (inr response_data, s4) ->
  exists r s5,
    try_block start_time endpoint method data headers s0 = (inr r, s5) /\
    success r = true /\
    response_cache (fst s5) = response_cache (fst s4).
Proof.
  intros Hoff H0 H1 Hk H2 H3. unfold call_api_try, bindE, of_result.
  rewrite H0, H1, Hk, H2, H3. destruct s4 as [self4 w4].
  unfold lift, time_time. cbn [fst snd].
  rewrite on_breaker_spec.
  destruct (circuit_breaker self4) as [cb|]; unfold get_self;
    rewrite store_response_off by exact Hoff;
    unfold modify_self, pure; eexists; eexists;
    (split; [reflexivity|split; reflexivity]).
Qed.

End TryBlock.

(** Every call returns a response: what the [try] block returns, or the
    failure response the [except] block builds from what it raises. *)
Lemma call_api_returns (self : client) (w : World) :
  exists r s', call endpoint method data headers (self, w) = (inr r, s').
Proof.
  rewrite call_api_unfold.
  destruct (try_block (now w) endpoint method data headers (self, tick w))
    as [[e|r] [self' w']].
  - rewrite call_api_except_spec. eauto.
  - eauto.
Qed.

Lemma call_api_handles (self : client) (w : World) (e : Exception)
      (s1 : client * World) :
  try_block (now w) endpoint method data headers (self, tick w) = (inl e, s1) ->
  call endpoint method data headers (self, w)
  = call_api_except (now w) endpoint method e s1.
Proof. intros H. rewrite call_api_unfold. now rewrite H. Qed.

End ClientPaths.

(** ** The claims on [call_api] *)

Section GateRejections.

Variable _IMPORTS_AVAILABLE : bool.
Variable Data : Type.
Variable truthy : Data -> bool.
Variable json_dumps : bool -> Data -> Result string.
Variable json_loads : string -> option Data.
Variable sha256_hexdigest : string -> string.

Import ExternalAPIClient.

Local Abbreviation client := (ExternalAPIClient.t Data).
Local Abbreviation call :=
  (call_api _IMPORTS_AVAILABLE truthy json_dumps json_loads sha256_hexdigest).

Variables endpoint method : string.
Variable data : option Data.
Variable headers : option (list (string * string)).

(** A call refused by the open breaker sends no request and is answered
    with a failure response; the [except] block that builds it records a
    failure on the breaker, which moves [last_failure_time] to the time of
    the refused call. *)
Lemma breaker_rejection_is_recorded (self : client) (w : World)
      (cb : CircuitBreaker.t) :
  circuit_breaker self = Some cb ->
  CircuitBreaker.state cb = OPEN ->
  now (tick w) - CircuitBreaker.last_failure_time cb
    < recovery_timeout (CircuitBreaker.config cb) ->
  let r := call endpoint method data headers (self, w) in
  (exists resp,
      fst r = inr resp /\ success resp = false /\
      error_message resp = Some "Circuit breaker is open - service unavailable") /\
  requests (snd (snd r)) = requests w /\
  circuit_breaker (fst (snd r)) =
    Some (CircuitBreaker.mk (CircuitBreaker.config cb) OPEN
            (CircuitBreaker.failure_count cb + 1) (CircuitBreaker.success_count cb)
            (now (tick (tick w))) (CircuitBreaker.last_state_change cb)).
Proof.
  intros Hcb Hopen Hsoon r. subst r.
  assert (Hgate : check_circuit_breaker (self, tick w) =
            (inl (mkException IntegrationError
                    "Circuit breaker is open - service unavailable"),
             (with_circuit_breaker (Some cb) self, tick (tick w)))).
  { rewrite (check_circuit_breaker_present Data self (tick w) cb Hcb).
    now rewrite can_execute_open_blocked. }
  rewrite (call_api_handles _ _ _ _ _ _ _ _ _ _ self w _ _
             (try_breaker_refuses _ _ _ _ _ _ _ _ _ _ _ _ _ _ Hgate)).
  rewrite call_api_except_spec, on_breaker_spec.
  cbn [with_circuit_breaker circuit_breaker].
  rewrite record_failure_open by exact Hopen.
  cbn [fst snd]. split; [eexists; split; [reflexivity|split; reflexivity]|].
  split; reflexivity.
Qed.

(** The same happens to a call refused by the rate limiter: the breaker,
    as the gate before left it, gets a failure recorded. *)
Lemma rate_limit_rejection_is_recorded (self : client) (w : World)
      (s1 : client * World) (cb : CircuitBreaker.t) :
  _IMPORTS_AVAILABLE = true ->
  check_circuit_breaker (self, tick w) = (inr tt, s1) ->
  circuit_breaker (fst s1) = Some cb ->
  fst (fst (RateLimiter.allow_request "api_call" (rate_limiter (fst s1)) (snd s1)))
    = false ->
  let r := call endpoint method data headers (self, w) in
  (exists resp,
      fst r = inr resp /\ success resp = false /\
      error_message resp = Some "Rate limit exceeded") /\
  requests (snd (snd r)) = requests w /\
  circuit_breaker (fst (snd r)) =
    Some (fst (CircuitBreaker.record_failure cb (tick (snd s1)))).
Proof.
  intros Hon Hgate Hcb Hdenied r. subst r.
  destruct s1 as [self1 w1]. cbn [fst snd] in *.
  pose proof (check_rate_limit_on _IMPORTS_AVAILABLE Data self1 w1 Hon) as Hrate.
  rewrite Hdenied, allow_request_world in Hrate.
  rewrite (call_api_handles _ _ _ _ _ _ _ _ _ _ self w _ _
             (try_rate_limit_refuses _ _ _ _ _ _ _ _ _ _ _ _ _ _ _ Hgate Hrate)).
  rewrite call_api_except_spec, on_breaker_spec.
  cbn [with_rate_limiter circuit_breaker]. rewrite Hcb.
  cbn [fst snd]. split; [eexists; split; [reflexivity|split; reflexivity]|].
  split; [|reflexivity].
  pose proof (check_circuit_breaker_frame Data self (tick w)) as Hframe.
  rewrite Hgate in Hframe. cbn [fst snd] in Hframe.
  destruct Hframe as (_ & _ & _ & _ & Hreq & _).
  unfold CircuitBreaker.record_failure, bind, time_time, ret,
    CircuitBreaker._transition_to_open.
  cbn [CircuitBreaker.state].
  destruct (CircuitBreaker.state cb); cbn [CircuitBreaker.failure_count
    CircuitBreaker.config]; try destruct (_ >=? _); simpl; exact Hreq.
Qed.

End GateRejections.

(** C4, on the code.  The client has made five health checks of a service
    that is down, which opened its breaker at the fifth failure (time 125).
    The sixth call, three ticks later, is refused by the breaker and sends
    no request; but the refusal is recorded as a failure of the service:
    [failure_count] goes from 5 to 6 and [last_failure_time] from 125 to
    130, the time of the refused call. *)
Theorem rejected_call_is_recorded_as_failure :
  ExternalAPIClient.circuit_breaker (fst tripped_client)
    = Some (CircuitBreaker.mk default_breaker_config OPEN 5 0 125 126) /\
  requests (snd tripped_client) = 5%nat /\
  now (snd tripped_client) = 128 /\
  (exists r,
      fst (scenario_call "health" "GET" tripped_client) = inr r /\
      success r = false /\
      error_message r = Some "Circuit breaker is open - service unavailable") /\
  requests (snd (snd (scenario_call "health" "GET" tripped_client))) = 5%nat /\
  ExternalAPIClient.circuit_breaker
    (fst (snd (scenario_call "health" "GET" tripped_client)))
    = Some (CircuitBreaker.mk default_breaker_config OPEN 6 0 130 126).
Proof.
  split; [vm_compute; reflexivity|]. split; [vm_compute; reflexivity|].
  split; [vm_compute; reflexivity|]. split.
  - eexists. split; [vm_compute; reflexivity|]. split; reflexivity.
  - split; vm_compute; reflexivity.
Qed.

Section StoredResponse.

Variable Data : Type.
Variable truthy : Data -> bool.
Variable json_dumps : bool -> Data -> Result string.
Variable json_loads : string -> option Data.
Variable sha256_hexdigest : string -> string.

Import ExternalAPIClient.

Local Abbreviation client := (ExternalAPIClient.t Data).

(** With the imports available, every call that passes both gates, misses
    the cache and gets an answer from the transport is reported as a
    failure: the statement that stores the response raises, so the response
    cache is left as the lookup left it and the [except] block answers. *)
Lemma answered_call_is_reported_as_failure
      (endpoint method : string) (data : option Data)
      (headers : option (list (string * string)))
      (self : client) (w : World) (s1 s2 s3 s4 : client * World)
      (key : string) (response_data : ResponseData Data) :
  check_circuit_breaker (self, tick w) = (inr tt, s1) ->
  check_rate_limit true s1 = (inr tt, s2) ->
  _generate_cache_key truthy json_dumps sha256_hexdigest endpoint method data
    = inr key ->
  lookup_cache true key s2 = (inr None, s3) ->
  _execute_with_retry truthy json_dumps json_loads endpoint method data headers s3
    = (inr response_data, s4) ->
  let r := call_api true truthy json_dumps json_loads sha256_hexdigest
             endpoint method data headers (self, w) in
  (exists resp,
      fst r = inr resp /\ success resp = false /\
      error_message resp
        = Some "LRUCache.set() got an unexpected keyword argument 'ttl'") /\
  response_cache (fst (snd r)) = response_cache (fst s4).
Proof.
  intros H0 H1 Hk H2 H3 r. subst r.
  rewrite (call_api_handles _ _ _ _ _ _ _ _ _ _ self w _ _
             (try_transport_succeeds_on true Data truthy json_dumps json_loads
                sha256_hexdigest endpoint method data headers (now w)
                _ _ _ _ _ key response_data eq_refl H0 H1 Hk H2 H3)).
  destruct s4 as [self4 w4]. cbn [fst snd].
  rewrite on_breaker_spec.
  destruct (circuit_breaker self4) as [cb|] eqn:Ecb; cbn [snd];
    rewrite call_api_except_spec, on_breaker_spec;
    cbn [with_circuit_breaker circuit_breaker]; try rewrite Ecb;
    cbn [fst snd]; (split; [eexists; split; [reflexivity|split; reflexivity]|]);
    reflexivity.
Qed.

End StoredResponse.

(** With the imports available: a client built with them calls a service
    that answers [200 OK].  Both gates let the call through, the cache has
    no entry, and the transport succeeds at the first request; yet the
    call returns a failure response, whose message is the [TypeError] of
    the statement that was to store the response.  Nothing is stored, and
    the breaker, after the success, has a failure recorded as well. *)
Example answered_call_with_imports_stores_nothing :
  transport (snd (fresh_client healthy)) 0%nat = HttpResponse 200 "{}" /\
  (exists r,
      fst (scenario_call "health" "GET" (fresh_client healthy)) = inr r /\
      success r = false /\
      error_message r
        = Some "LRUCache.set() got an unexpected keyword argument 'ttl'") /\
  requests (snd (snd (scenario_call "health" "GET" (fresh_client healthy)))) = 1%nat /\
  LRUCache._cache
    (ExternalAPIClient.response_cache
       (fst (snd (scenario_call "health" "GET" (fresh_client healthy))))) = [] /\
  ExternalAPIClient.circuit_breaker
    (fst (snd (scenario_call "health" "GET" (fresh_client healthy))))
    = Some (CircuitBreaker.mk default_breaker_config CLOSED 1 0 106 100).
Proof.
  split; [reflexivity|]. split.
  - eexists. split; [vm_compute; reflexivity|]. split; reflexivity.
  - repeat split; vm_compute; reflexivity.
Qed.

(** [can_execute] never changes [failure_count]; it changes
    [success_count] only by clearing it when it turns an open breaker
    half-open, and an open breaker has none counted. *)
Lemma can_execute_counters (cb : CircuitBreaker.t) (w : World) :
  let cb' := snd (fst (CircuitBreaker.can_execute cb w)) in
  CircuitBreaker.failure_count cb' = CircuitBreaker.failure_count cb /\
  (CircuitBreaker.consistent cb ->
   CircuitBreaker.success_count cb' = CircuitBreaker.success_count cb).
Proof.
  unfold CircuitBreaker.consistent, CircuitBreaker.can_execute, bind,
    time_time, ret, CircuitBreaker._transition_to_half_open.
  destruct (CircuitBreaker.state cb) eqn:Est; simpl; auto.
  destruct (_ >=? _); simpl; auto.
  split; [reflexivity|]. intros H. symmetry. now apply H.
Qed.

Section FailureResponses.

Variable _IMPORTS_AVAILABLE : bool.
Variable Data : Type.
Variable truthy : Data -> bool.
Variable json_dumps : bool -> Data -> Result string.
Variable json_loads : string -> option Data.
Variable sha256_hexdigest : string -> string.

Import ExternalAPIClient.

Local Abbreviation client := (ExternalAPIClient.t Data).

(** C9, as the code has it.  [call_api] never raises: it returns a
    response for every request and every state.  Whatever its [try] block
    raises is answered with a response that has [success = false] and
    [error_message = str(e)].  For a refusal by the breaker or by the rate
    limiter, and for an answer of the service with status 400 or more, that
    message is a fixed non-empty text; when the transport raises and the
    retries are used up it is the text of the last exception raised.
    Building a cache with a size that is not positive raises [ValueError]. *)
Theorem call_api_answers_failures_with_responses
        (endpoint method : string) (data : option Data)
        (headers : option (list (string * string)))
        (self : client) (w : World) :
  let r := call_api _IMPORTS_AVAILABLE truthy json_dumps json_loads
             sha256_hexdigest endpoint method data headers (self, w) in
  (exists resp, fst r = inr resp) /\
  (forall e s,
      call_api_try _IMPORTS_AVAILABLE truthy json_dumps json_loads
        sha256_hexdigest (now w) endpoint method data headers (self, tick w)
      = (inl e, s) ->
      failed_with r (str e)) /\
  (forall cb,
      circuit_breaker self = Some cb ->
      fst (fst (CircuitBreaker.can_execute cb (tick w))) = false ->
      failed_with r "Circuit breaker is open - service unavailable") /\
  (forall s1,
      _IMPORTS_AVAILABLE = true ->
      check_circuit_breaker (self, tick w) = (inr tt, s1) ->
      fst (fst (RateLimiter.allow_request "api_call" (rate_limiter (fst s1)) (snd s1)))
        = false ->
      failed_with r "Rate limit exceeded") /\
  (forall s1 s2 s3 s4 key e,
      check_circuit_breaker (self, tick w) = (inr tt, s1) ->
      check_rate_limit _IMPORTS_AVAILABLE s1 = (inr tt, s2) ->
      _generate_cache_key truthy json_dumps sha256_hexdigest endpoint method data
        = inr key ->
      lookup_cache _IMPORTS_AVAILABLE key s2 = (inr None, s3) ->
      _execute_with_retry truthy json_dumps json_loads endpoint method data headers s3
        = (inl e, s4) ->
      failed_with r (str e)) /\
  (forall s1 s2 s3 key status text,
      check_circuit_breaker (self, tick w) = (inr tt, s1) ->
      check_rate_limit _IMPORTS_AVAILABLE s1 = (inr tt, s2) ->
      _generate_cache_key truthy json_dumps sha256_hexdigest endpoint method data
        = inr key ->
      lookup_cache _IMPORTS_AVAILABLE key s2 = (inr None, s3) ->
      payload_serializes truthy json_dumps data ->
      transport (snd s3) (requests (snd s3)) = HttpResponse status text ->
      400 <= status ->
      failed_with r ("API error " ++ str_int status ++ ": " ++ text)%string) /\
  (forall s1 s2 s3 key,
      check_circuit_breaker (self, tick w) = (inr tt, s1) ->
      check_rate_limit _IMPORTS_AVAILABLE s1 = (inr tt, s2) ->
      _generate_cache_key truthy json_dumps sha256_hexdigest endpoint method data
        = inr key ->
      lookup_cache _IMPORTS_AVAILABLE key s2 = (inr None, s3) ->
      payload_serializes truthy json_dumps data ->
      (forall i, (i < 3)%nat ->
         transient (transport (snd s3) (requests (snd s3) + i)%nat) = true) ->
      failed_with r (raised_text (transport (snd s3) (requests (snd s3) + 2)%nat))) /\
  (forall maxsize,
      maxsize <= 0 ->
      @LRUCache.__init__ string (ExternalServiceResponse Data) maxsize
      = inl (mkException ValueError "maxsize must be positive")).
Proof.
  intros r.
  assert (Hhandled : forall e s,
             call_api_try _IMPORTS_AVAILABLE truthy json_dumps json_loads
               sha256_hexdigest (now w) endpoint method data headers (self, tick w)
             = (inl e, s) ->
             failed_with r (str e)).
  { intros e [self' w'] Htry. subst r.
    rewrite (call_api_handles _ _ _ _ _ _ _ _ _ _ self w _ _ Htry).
    rewrite call_api_except_spec. unfold failed_with. cbn [fst].
    eexists. split; [reflexivity|]. split; reflexivity. }
  split; [|split; [exact Hhandled|split; [|split; [|split; [|split; [|split]]]]]].
  - destruct (call_api_returns _IMPORTS_AVAILABLE Data truthy json_dumps
                json_loads sha256_hexdigest endpoint method data headers self w)
      as (resp & s' & Hcall).
    exists resp. subst r. now rewrite Hcall.
  - intros cb Hcb Hrefused.
    pose proof (check_circuit_breaker_present Data self (tick w) cb Hcb) as Hgate.
    rewrite Hrefused in Hgate.
    exact (Hhandled _ _ (try_breaker_refuses _ _ _ _ _ _ _ _ _ _ _ _ _ _ Hgate)).
  - intros [self1 w1] Hon Hgate Hdenied. cbn [fst snd] in Hdenied.
    pose proof (check_rate_limit_on _IMPORTS_AVAILABLE Data self1 w1 Hon) as Hrate.
    rewrite Hdenied in Hrate.
    exact (Hhandled _ _
             (try_rate_limit_refuses _ _ _ _ _ _ _ _ _ _ _ _ _ _ _ Hgate Hrate)).
  - intros s1 s2 s3 s4 key e H0 H1 Hk H2 H3.
    exact (Hhandled _ _
             (try_transport_raises _ _ _ _ _ _ _ _ _ _ _ _ _ _ _ _ _ _
                H0 H1 Hk H2 H3)).
  - intros s1 s2 [self3 w3] key status text H0 H1 Hk H2 Hpayload Hanswer Hstatus.
    cbn [snd] in Hanswer.
    pose proof (execute_requests Data truthy json_dumps json_loads
                  endpoint method data headers Hpayload self3 w3) as Hexec.
    rewrite Hanswer in Hexec. cbn [transient] in Hexec.
    destruct (attempt_spec Data truthy json_dumps json_loads
                endpoint method data headers self3 w3 Hpayload) as [Hs Hr].
    cbn zeta in Hs, Hr. rewrite Hanswer in Hr.
    destruct (Z.geb_spec status 400); [|lia].
    assert (H3 : _execute_with_retry truthy json_dumps json_loads
                   endpoint method data headers (self3, w3)
                 = (inl (mkException IntegrationError
                           ("API error " ++ str_int status ++ ": " ++ text)%string),
                    (self3, request_sent w3))).
    { rewrite Hexec. rewrite <- Hs, <- Hr. apply surjective_pairing. }
    exact (Hhandled _ _
             (try_transport_raises _ _ _ _ _ _ _ _ _ _ _ _ _ _ _ _ _ _
                H0 H1 Hk H2 H3)).
  - intros s1 s2 [self3 w3] key H0 H1 Hk H2 Hpayload Htransient.
    cbn [snd] in *.
    pose proof (Htransient 0%nat ltac:(lia)) as T0.
    pose proof (Htransient 1%nat ltac:(lia)) as T1.
    pose proof (Htransient 2%nat ltac:(lia)) as T2.
    rewrite Nat.add_0_r in T0. rewrite Nat.add_1_r in T1.
    replace (requests w3 + 2)%nat with (S (S (requests w3))) in * by lia.
    pose proof (execute_requests Data truthy json_dumps json_loads
                  endpoint method data headers Hpayload self3 w3) as Hexec.
    rewrite T0, T1 in Hexec.
    destruct (attempt_spec Data truthy json_dumps json_loads
                endpoint method data headers self3
                (request_sent (request_sent w3)) Hpayload) as [Hs Hr].
    cbn zeta in Hs, Hr. cbn [request_sent transport requests] in Hr.
    assert (H3 : exists e,
               _execute_with_retry truthy json_dumps json_loads
                 endpoint method data headers (self3, w3)
               = (inl e, (self3, request_sent (request_sent (request_sent w3))))
               /\ str e = raised_text (transport w3 (S (S (requests w3))))).
    { destruct (transport w3 (S (S (requests w3)))) as [message|message|status text];
        [| |discriminate];
        eexists; (split; [rewrite Hexec, <- Hs, <- Hr; apply surjective_pairing
                         |reflexivity]). }
    destruct H3 as (e & H3 & Hstr). rewrite <- Hstr.
    exact (Hhandled _ _
             (try_transport_raises _ _ _ _ _ _ _ _ _ _ _ _ _ _ _ _ _ _
                H0 H1 Hk H2 H3)).
  - intros maxsize Hle. unfold LRUCache.__init__.
    destruct (Z.leb_spec maxsize 0); [reflexivity|lia].
Qed.

End FailureResponses.

(** C9 fails as stated: the service never answers in time, every one of
    the three requests raises [asyncio.TimeoutError], whose [str] is empty,
    and the failure response carries the empty message. *)
Lemma timeout_is_answered_with_an_empty_message :
  (forall i : nat, transport (snd (fresh_client unresponsive)) i = TimedOut "") /\
  exists resp,
    fst (scenario_call "health" "GET" (fresh_client unresponsive)) = inr resp /\
    success resp = false /\
    error_message resp = Some "" /\
    metadata resp = [("endpoint", MetaStr "health"); ("method", MetaStr "GET");
                     ("error_type", MetaStr "TimeoutError")].
Proof.
  split; [reflexivity|].
  eexists. split; [vm_compute; reflexivity|]. repeat split.
Qed.

Lemma call_api_answers_failures_with_responses_witness :
  (ExternalAPIClient.circuit_breaker (fst tripped_client)
     = Some (CircuitBreaker.mk default_breaker_config OPEN 5 0 125 126) /\
   fst (fst (CircuitBreaker.can_execute
               (CircuitBreaker.mk default_breaker_config OPEN 5 0 125 126)
               (tick (snd tripped_client)))) = false) /\
  exists resp,
    fst (ExternalAPIClient.call_api true text_truthy text_dumps text_loads
           plain_digest "health" "GET" None None
           (fst tripped_client, snd tripped_client)) = inr resp /\
    success resp = false /\
    error_message resp = Some "Circuit breaker is open - service unavailable".
Proof.
  split; [split; vm_compute; reflexivity|].
  pose proof (call_api_answers_failures_with_responses true string text_truthy
                text_dumps text_loads plain_digest "health" "GET" None None
                (fst tripped_client) (snd tripped_client)) as H.
  cbn zeta in H. destruct H as (_ & _ & Hbreaker & _).
  unfold failed_with in Hbreaker.
  apply (Hbreaker (CircuitBreaker.mk default_breaker_config OPEN 5 0 125 126));
    vm_compute; reflexivity.
Defined.

(** * Further properties of the code *)

(** ** The circuit breaker under runs of reports *)

Section BreakerReports.

Import CircuitBreaker.

(** The reports contain [n] failures in a row. *)
Local Abbreviation failures_in_a_row n rs :=
  (exists before after : list Report, rs = before ++ repeat Failed n ++ after).

Lemma failures_in_a_row_later (n : nat) (p rs : list Report) :
  failures_in_a_row n rs -> failures_in_a_row n (p ++ rs).
Proof.
  intros (l1 & l2 & ->). exists (p ++ l1), l2. now rewrite app_assoc.
Qed.

Lemma failures_before_success (a b : nat) (l rs : list Report) :
  repeat Failed a ++ l = repeat Failed b ++ Succeeded :: rs -> (a <= b)%nat.
Proof.
  revert a. induction b as [|b IH]; intros [|a] H; simpl in H;
    try lia; try discriminate.
  injection H as H. specialize (IH a H). lia.
Qed.

(** A success ends the current run of failures. *)
Lemma failures_in_a_row_after_success (n c : nat) (rs : list Report) :
  (c < n)%nat ->
  failures_in_a_row n (repeat Failed c ++ Succeeded :: rs) ->
  failures_in_a_row n rs.
Proof.
  induction c as [|c IH]; intros Hc (l1 & l2 & H); simpl in H.
  - destruct l1 as [|x l1]; simpl in H.
    + destruct n; [lia|discriminate].
    + injection H as _ H. now exists l1, l2.
  - destruct l1 as [|x l1]; simpl in H.
    + destruct n as [|n]; [lia|]. simpl in H. injection H as H.
      symmetry in H. apply failures_before_success in H. lia.
    + injection H as _ H. apply IH; [lia|]. now exists l1, l2.
Qed.

Lemma no_failures_in_a_row_yet (n c : nat) :
  (c < n)%nat -> ~ failures_in_a_row n (repeat Failed c ++ []).
Proof.
  intros Hc (l1 & l2 & H). apply (f_equal (@List.length Report)) in H.
  rewrite !length_app, !repeat_length in H. simpl in H. lia.
Qed.

(** Reports alone never move a breaker out of [OPEN]. *)
Lemma open_stays_open (rs : list Report) :
  forall (cb : CircuitBreaker.t) (w : World),
    state cb = OPEN ->
    state (fst (record_all rs cb w)) = OPEN /\
    config (fst (record_all rs cb w)) = config cb.
Proof.
  induction rs as [|r rs IH]; intros cb w Hopen; [split; trivial|].
  cbn [record_all]. unfold bind.
  destruct r; cbn [record].
  - unfold record_success. rewrite Hopen. unfold ret. now apply IH.
  - rewrite record_failure_open by exact Hopen.
    match goal with
    | |- context [record_all rs ?cb1 ?w1] =>
        destruct (IH cb1 w1 eq_refl) as [H1 H2]
    end.
    split; [exact H1|exact H2].
Qed.

Lemma closed_run (rs : list Report) :
  forall (c : nat) (cb : CircuitBreaker.t) (w : World),
    state cb = CLOSED ->
    failure_count cb = Z.of_nat c ->
    Z.of_nat c < failure_threshold (config cb) ->
    let n := Z.to_nat (failure_threshold (config cb)) in
    let cb' := fst (record_all rs cb w) in
    (state cb' = OPEN <-> failures_in_a_row n (repeat Failed c ++ rs)) /\
    (state cb' = OPEN \/
     state cb' = CLOSED /\ failure_count cb' < failure_threshold (config cb)) /\
    config cb' = config cb.
Proof.
  induction rs as [|r rs IH]; intros c cb w Hst Hfc Hlt n cb'.
  - subst cb'. simpl. split; [|split; [right; split; [exact Hst|lia]|reflexivity]].
    split; [congruence|].
    intros H. exfalso. apply (no_failures_in_a_row_yet n c); [lia|exact H].
  - subst cb'. cbn [record_all]. unfold bind. destruct r; cbn [record].
    + (* a success clears the count *)
      rewrite record_success_closed by exact Hst.
      destruct (IH 0%nat
                  (mk (config cb) CLOSED 0 (success_count cb)
                      (last_failure_time cb) (last_state_change cb)) w
                  eq_refl eq_refl ltac:(simpl; lia)) as (Hiff & Hor & Hcfg).
      cbn [config] in *. split; [|split; [exact Hor|exact Hcfg]].
      rewrite Hiff. simpl. split.
      * intros H. change (Succeeded :: rs) with ([Succeeded] ++ rs).
        rewrite app_assoc. now apply failures_in_a_row_later.
      * apply failures_in_a_row_after_success. lia.
    + destruct (Z_lt_le_dec (failure_count cb + 1) (failure_threshold (config cb)))
        as [Hbelow|Htrips].
      * rewrite record_failure_closed_below by assumption.
        destruct (IH (S c)
                    (mk (config cb) CLOSED (failure_count cb + 1) (success_count cb)
                        (now w) (last_state_change cb)) (tick w)
                    eq_refl ltac:(simpl; lia) ltac:(simpl; lia))
          as (Hiff & Hor & Hcfg).
        cbn [config] in *. split; [|split; [exact Hor|exact Hcfg]].
        rewrite Hiff.
        replace (repeat Failed (S c) ++ rs) with (repeat Failed c ++ Failed :: rs);
          [reflexivity|].
        change (Failed :: rs) with ([Failed] ++ rs).
        rewrite app_assoc. f_equal. symmetry. apply repeat_cons.
      * rewrite record_failure_closed_trips by assumption.
        match goal with
        | |- context [record_all rs ?cb1 ?w1] =>
            destruct (open_stays_open rs cb1 w1 eq_refl) as [Hopen Hcfg]
        end.
        cbn [config] in Hcfg.
        split; [|split; [left; exact Hopen|exact Hcfg]].
        split; [intros _|intros _; exact Hopen].
        exists [], rs. simpl.
        replace n with (S c) by (unfold n; lia).
        change (Failed :: rs) with ([Failed] ++ rs).
        rewrite app_assoc. f_equal. symmetry. apply repeat_cons.
Qed.

End BreakerReports.

Section BreakerFurther.

Import CircuitBreaker.

(** X1.  A breaker that is closed with no failure counted and has a
    positive failure threshold [f] is open after a run of reports exactly
    when the run contains [f] failures in a row: every success in between
    clears the count.  Otherwise it is still closed, with fewer than [f]
    failures counted. *)
Theorem breaker_opens_exactly_on_failures_in_a_row
        (cb : CircuitBreaker.t) (w : World) (rs : list Report) :
  state cb = CLOSED ->
  failure_count cb = 0 ->
  1 <= failure_threshold (config cb) ->
  let cb' := fst (record_all rs cb w) in
  (state cb' = OPEN <->
   exists before after : list Report,
     rs = before ++ repeat Failed (Z.to_nat (failure_threshold (config cb))) ++ after) /\
  (state cb' <> OPEN ->
   state cb' = CLOSED /\ failure_count cb' < failure_threshold (config cb)).
Proof.
  intros Hst Hfc Hf cb'.
  destruct (closed_run rs 0%nat cb w Hst Hfc ltac:(simpl; lia)) as (Hiff & Hor & _).
  cbn zeta in Hiff, Hor. simpl in Hiff. split; [exact Hiff|].
  intros Hnot. destruct Hor as [Hopen|Hclosed]; [contradiction|exact Hclosed].
Qed.

Lemma breaker_opens_exactly_on_failures_in_a_row_witness :
  (state fresh_breaker = CLOSED /\ failure_count fresh_breaker = 0 /\
   1 <= failure_threshold (config fresh_breaker)) /\
  state (fst (record_all [Failed; Failed; Succeeded; Failed; Failed; Failed; Succeeded]
                fresh_breaker (world_at 100 healthy))) = OPEN /\
  state (fst (record_all [Failed; Failed; Succeeded; Failed; Failed; Succeeded]
                fresh_breaker (world_at 100 healthy))) = CLOSED.
Proof.
  split; [evaluated|]. split.
  - apply (proj1 (breaker_opens_exactly_on_failures_in_a_row fresh_breaker
                    (world_at 100 healthy) _ eq_refl eq_refl ltac:(evaluated))).
    exists [Failed; Failed; Succeeded], [Succeeded]. reflexivity.
  - apply (proj2 (breaker_opens_exactly_on_failures_in_a_row fresh_breaker
                    (world_at 100 healthy) _ eq_refl eq_refl ltac:(evaluated))).
    discriminate.
Defined.

(** Each call keeps a well-formed breaker well-formed. *)
Lemma perform_well_formed (c : Call) (cb : CircuitBreaker.t) (w : World) :
  1 <= failure_threshold (config cb) ->
  1 <= success_threshold (config cb) ->
  well_formed cb ->
  well_formed (fst (perform c cb w)) /\
  config (fst (perform c cb w)) = config cb.
Proof.
  intros Hf Hs (H1 & H2 & H3 & H4 & H5). unfold well_formed.
  assert (Hno : state cb <> HALF_OPEN -> success_count cb + 0 = 0)
    by (intros H; rewrite (H3 H); reflexivity).
  destruct c; cbn [perform];
    unfold can_execute, record_success, record_failure, bind, time_time, ret,
      _transition_to_half_open, _transition_to_closed, _transition_to_open;
    destruct (state cb) eqn:Est; simpl;
    try match goal with
        | |- context [?a >=? ?b] => destruct (Z.geb_spec a b); simpl
        end;
    try rewrite Est;
    (split; [|reflexivity]);
    repeat split; intros; try discriminate; try congruence;
    try (specialize (Hno ltac:(discriminate)));
    try (specialize (H4 eq_refl)); try (specialize (H5 eq_refl)); lia.
Qed.

(** X3.  Whatever sequence of [can_execute], [record_success] and
    [record_failure] calls is made on a breaker built by [__init__] with
    positive thresholds, the breaker stays well-formed: the counters are
    never negative, a closed breaker has fewer failures counted than the
    failure threshold, a half-open one fewer successes than the success
    threshold, and a success is counted only while half-open. *)
Theorem breaker_stays_well_formed
        (cfg : CircuitBreakerConfig) (cs : list Call) (w0 w : World) :
  1 <= failure_threshold cfg ->
  1 <= success_threshold cfg ->
  well_formed (fst (perform_all cs (fst (__init__ cfg w0)) w)).
Proof.
  intros Hf Hs.
  assert (Hinit : well_formed (fst (__init__ cfg w0)) /\
                  config (fst (__init__ cfg w0)) = cfg).
  { unfold well_formed. simpl. repeat split; try lia; try discriminate. }
  destruct Hinit as [Hwf Hcfg].
  generalize dependent (fst (__init__ cfg w0)). revert w.
  induction cs as [|c cs IH]; intros w cb Hwf Hcfg; [exact Hwf|].
  cbn [perform_all]. unfold bind.
  destruct (perform_well_formed c cb w) as [Hwf' Hcfg'];
    try (rewrite Hcfg; assumption); [exact Hwf|].
  destruct (perform c cb w) as [cb1 w1]. cbn [fst] in *.
  apply IH; [exact Hwf'|congruence].
Qed.

Lemma breaker_stays_well_formed_witness :
  (1 <= failure_threshold default_breaker_config /\
   1 <= success_threshold default_breaker_config) /\
  well_formed
    (fst (perform_all [RecordFailure; CanExecute; RecordSuccess; RecordFailure]
            (fst (__init__ default_breaker_config (world_at 100 healthy)))
            (world_at 101 healthy))).
Proof.
  split; [evaluated|].
  apply breaker_stays_well_formed; evaluated.
Defined.

End BreakerFurther.

(** ** The client: what a call leaves untouched *)

Section DictMore.

Context {K X : Type}.
Variable K_eqb : K -> K -> bool.
Hypothesis K_eqb_eq : forall a b : K, K_eqb a b = true <-> a = b.

Lemma contains_setitem (k k' : K) (x : X) (d : list (K * X)) :
  contains K_eqb k (setitem K_eqb k' x d) = K_eqb k k' || contains K_eqb k d.
Proof.
  induction d as [|[k0 y] d IH]; simpl.
  - now rewrite orb_false_r.
  - destruct (K_eqb k' k0) eqn:E; simpl.
    + apply K_eqb_eq in E. subst k0. now destruct (K_eqb k k').
    + rewrite IH. destruct (K_eqb k k'), (K_eqb k k0); reflexivity.
Qed.

Lemma contains_delitem_other (k k' : K) (d : list (K * X)) :
  contains K_eqb k (delitem K_eqb k' d)
  = negb (K_eqb k k') && contains K_eqb k d.
Proof.
  induction d as [|[k0 y] d IH]; simpl.
  - now rewrite andb_false_r.
  - destruct (K_eqb k' k0) eqn:E; simpl.
    + apply K_eqb_eq in E. subst k0. rewrite IH.
      destruct (K_eqb k k'); reflexivity.
    + rewrite IH. destruct (K_eqb k k0) eqn:E0; simpl.
      * apply K_eqb_eq in E0. subst k0.
        destruct (K_eqb k k') eqn:E1; [|reflexivity].
        apply K_eqb_eq in E1. subst k'.
        rewrite (K_eqb_refl K_eqb K_eqb_eq) in E. discriminate.
      * reflexivity.
Qed.

Lemma getitem_setitem_other (k k' : K) (x : X) (d : list (K * X)) :
  k <> k' -> getitem K_eqb k (setitem K_eqb k' x d) = getitem K_eqb k d.
Proof.
  intros Hne. induction d as [|[k0 y] d IH]; simpl.
  - now rewrite (K_eqb_neq K_eqb K_eqb_eq).
  - destruct (K_eqb k' k0) eqn:E; simpl.
    + apply K_eqb_eq in E. subst k0.
      now rewrite (K_eqb_neq K_eqb K_eqb_eq k k' Hne).
    + destruct (K_eqb k k0); [reflexivity|exact IH].
Qed.

Lemma getitem_delitem_other (k k' : K) (d : list (K * X)) :
  k <> k' -> getitem K_eqb k (delitem K_eqb k' d) = getitem K_eqb k d.
Proof.
  intros Hne. induction d as [|[k0 y] d IH]; simpl; [reflexivity|].
  destruct (K_eqb k' k0) eqn:E; simpl.
  - apply K_eqb_eq in E. subst k0.
    now rewrite (K_eqb_neq K_eqb K_eqb_eq k k' Hne).
  - destruct (K_eqb k k0); [reflexivity|exact IH].
Qed.

Lemma getitem_some_contains (k : K) (x : X) (d : list (K * X)) :
  getitem K_eqb k d = Some x -> contains K_eqb k d = true.
Proof.
  intros H. destruct (contains K_eqb k d) eqn:E; [reflexivity|].
  apply (getitem_contains K_eqb) in E. congruence.
Qed.

End DictMore.

Section ClientFrames.

Variable Data : Type.
Variable truthy : Data -> bool.
Variable json_dumps : bool -> Data -> Result string.
Variable json_loads : string -> option Data.
Variable sha256_hexdigest : string -> string.

Import ExternalAPIClient.

Local Abbreviation client := (ExternalAPIClient.t Data).
Local Abbreviation attempt :=
  (_execute_with_retry__wrapped__ truthy json_dumps json_loads).
Local Abbreviation execute :=
  (_execute_with_retry truthy json_dumps json_loads).

Variables endpoint method : string.
Variable data : option Data.
Variable headers : option (list (string * string)).

(** The body of [_execute_with_retry] never touches the client or the
    clock, and sends at most one request. *)
Lemma attempt_frame (self : client) (w : World) :
  let r := attempt endpoint method data headers (self, w) in
  snd r = (self, w) \/ snd r = (self, request_sent w).
Proof.
  unfold _execute_with_retry__wrapped__, bindE, of_result, send_request.
  destruct data as [d|]; [destruct (truthy d); [destruct (json_dumps false d)|]|];
    try (left; reflexivity);
    (destruct (transport w (requests w)) as [m|m|status text]; simpl;
     [right; reflexivity|right; reflexivity|]);
    (destruct (status >=? 400); simpl; [right; reflexivity|]);
    (destruct (json_loads text); right; reflexivity).
Qed.

Lemma retry_frame (n : nat) :
  forall (self : client) (w : World),
    let r := retry retried_exceptions n (attempt endpoint method data headers)
               (self, w) in
    fst (snd r) = self /\
    clock (snd (snd r)) = clock w /\
    ticks (snd (snd r)) = ticks w /\
    transport (snd (snd r)) = transport w /\
    (requests w <= requests (snd (snd r)))%nat.
Proof.
  induction n as [|n IH]; intros self w; cbn [retry];
    pose proof (attempt_frame self w) as Hframe; cbn zeta in Hframe;
    destruct (attempt endpoint method data headers (self, w)) as [[e|d] s];
    cbn [snd] in Hframe;
    try (destruct (retried_exceptions (exc_type e)));
    try (destruct Hframe as [->| ->]; simpl; repeat split; lia).
  destruct Hframe as [->| ->].
  - destruct (IH self w) as (H1 & H2 & H3 & H4 & H5). repeat split; assumption.
  - destruct (IH self (request_sent w)) as (H1 & H2 & H3 & H4 & H5).
    cbn [request_sent clock ticks transport requests] in *.
    repeat split; try assumption. lia.
Qed.

Lemma execute_frame (self : client) (w : World) :
  let r := execute endpoint method data headers (self, w) in
  fst (snd r) = self /\
  clock (snd (snd r)) = clock w /\
  ticks (snd (snd r)) = ticks w /\
  transport (snd (snd r)) = transport w /\
  (requests w <= requests (snd (snd r)))%nat.
Proof. apply retry_frame. Qed.

End ClientFrames.

(** ** The client with the imports available: nothing is ever cached *)

Section NothingCached.

Variable Data : Type.
Variable truthy : Data -> bool.
Variable json_dumps : bool -> Data -> Result string.
Variable json_loads : string -> option Data.
Variable sha256_hexdigest : string -> string.

Import ExternalAPIClient.

Local Abbreviation client := (ExternalAPIClient.t Data).
Local Abbreviation entries :=
  (fun self : client => LRUCache._cache (response_cache self)).

(** A lookup that hits moves the entry to the end; with the mark that
    [return_cached] puts on it, the keys of the cache stay the same. *)
Lemma hit_keeps_keys (key k : string) (value value' : ExternalServiceResponse Data)
      (d : list (string * ExternalServiceResponse Data)) :
  getitem String.eqb key d = Some value ->
  contains String.eqb k
    (setitem String.eqb key value'
       (setitem String.eqb key value (delitem String.eqb key d)))
  = contains String.eqb k d.
Proof.
  intros Hget.
  rewrite !(contains_setitem String.eqb String.eqb_eq).
  rewrite (contains_delitem_other String.eqb String.eqb_eq).
  destruct (String.eqb k key) eqn:E; simpl; [|reflexivity].
  apply String.eqb_eq in E. subst k. symmetry.
  now apply (getitem_some_contains String.eqb) with (x := value).
Qed.

(** The [try] block with the imports available: it returns only on a cache
    hit, and it leaves the keys of the response cache as they are. *)
Lemma try_block_on (start_time : Z) (endpoint method : string)
      (data : option Data) (headers : option (list (string * string)))
      (self : client) (w : World) :
  let r := call_api_try true truthy json_dumps json_loads sha256_hexdigest
             start_time endpoint method data headers (self, w) in
  (forall k, contains String.eqb k (entries (fst (snd r)))
             = contains String.eqb k (entries self)) /\
  (forall resp,
      fst r = inr resp ->
      exists key cached,
        _generate_cache_key truthy json_dumps sha256_hexdigest endpoint method data
          = inr key /\
        getitem String.eqb key (entries self) = Some cached /\
        resp = mark_cached cached) /\
  (entries self = [] -> entries (fst (snd r)) = []).
Proof.
  cbn zeta.
  destruct (check_circuit_breaker (self, w)) as [[e0|[]] [self1 w1]] eqn:H0;
    pose proof (check_circuit_breaker_frame Data self w) as F0;
    rewrite H0 in F0; cbn [fst snd] in F0; destruct F0 as (_ & F0 & _).
  { rewrite (try_breaker_refuses _ _ _ _ _ _ _ _ _ _ _ _ _ _ H0).
    cbn [fst snd]. rewrite F0. repeat split; trivial. discriminate. }
  destruct (check_rate_limit true (self1, w1)) as [[e1|[]] [self2 w2]] eqn:H1;
    pose proof (check_rate_limit_frame true Data self1 w1) as F1;
    rewrite H1 in F1; cbn [fst snd] in F1; destruct F1 as (_ & F1 & _).
  { rewrite (try_rate_limit_refuses _ _ _ _ _ _ _ _ _ _ _ _ _ _ _ H0 H1).
    cbn [fst snd]. rewrite F1, F0. repeat split; trivial. discriminate. }
  destruct (_generate_cache_key truthy json_dumps sha256_hexdigest
              endpoint method data) as [ek|key] eqn:Hk.
  { rewrite (try_key_raises _ _ _ _ _ _ _ _ _ _ _ _ _ _ _ H0 H1 Hk).
    cbn [fst snd]. rewrite F1, F0. repeat split; trivial. discriminate. }
  pose proof (lookup_cache_on true Data self2 w2 key eq_refl) as H2.
  unfold LRUCache.get in H2. rewrite F1, F0 in H2.
  destruct (getitem String.eqb key (entries self)) as [cached|] eqn:Hget;
    cbn [fst snd] in H2.
  - (* a hit *)
    rewrite (try_cache_hit _ _ _ _ _ _ _ _ _ _ _ _ _ _ _ _ _ H0 H1 Hk H2).
    rewrite return_cached_spec.
    cbn [fst snd with_response_cache response_cache LRUCache._cache].
    split; [|split].
    + intros k. now apply hit_keeps_keys.
    + intros resp Heq. inversion Heq; subst. now exists key, cached.
    + intros Hempty. rewrite Hempty in Hget. discriminate.
  - (* a miss *)
    destruct (_execute_with_retry truthy json_dumps json_loads
                endpoint method data headers
                (with_response_cache
                   (LRUCache.mk (LRUCache._maxsize (response_cache self))
                      (entries self) (count_miss (LRUCache._stats (response_cache self))))
                   self2, w2)) as [[e3|d3] [self4 w4]] eqn:H3;
      match type of H3 with
      | _ ?s3 = _ =>
          pose proof (execute_frame Data truthy json_dumps json_loads
                        endpoint method data headers (fst s3) (snd s3)) as F3;
          cbn [fst snd] in F3; rewrite H3 in F3; cbn [fst snd] in F3;
          destruct F3 as (F3 & _)
      end.
    + rewrite (try_transport_raises _ _ _ _ _ _ _ _ _ _ _ _ _ _ _ _ _ _
                 H0 H1 Hk H2 H3).
      cbn [fst snd]. rewrite F3. cbn [with_response_cache response_cache
                                       LRUCache._cache].
      repeat split; trivial. discriminate.
    + rewrite (try_transport_succeeds_on true Data truthy json_dumps json_loads
                 sha256_hexdigest endpoint method data headers start_time
                 _ _ _ _ _ key d3 eq_refl H0 H1 Hk H2 H3).
      cbn [fst snd]. rewrite on_breaker_spec, F3.
      cbn [with_response_cache circuit_breaker].
      destruct (circuit_breaker self2);
        cbn [fst snd with_circuit_breaker with_response_cache response_cache
             LRUCache._cache];
        repeat split; trivial; discriminate.
Qed.

End NothingCached.

Section AfterTry.

Variable _IMPORTS_AVAILABLE : bool.
Variable Data : Type.
Variable truthy : Data -> bool.
Variable json_dumps : bool -> Data -> Result string.
Variable json_loads : string -> option Data.
Variable sha256_hexdigest : string -> string.

Import ExternalAPIClient.

(** What [call_api] returns and leaves, in terms of its [try] block: the
    [except] block turns an exception into a failure response, counts the
    error, records a failure on the breaker, and touches neither the cache
    nor the rate limiter nor the count of calls. *)
Lemma call_after_try (endpoint method : string) (data : option Data)
      (headers : option (list (string * string)))
      (self : ExternalAPIClient.t Data) (w : World) :
  let t := call_api_try _IMPORTS_AVAILABLE truthy json_dumps json_loads
             sha256_hexdigest (now w) endpoint method data headers (self, tick w) in
  let r := call_api _IMPORTS_AVAILABLE truthy json_dumps json_loads
             sha256_hexdigest endpoint method data headers (self, w) in
  response_cache (fst (snd r)) = response_cache (fst (snd t)) /\
  rate_limiter (fst (snd r)) = rate_limiter (fst (snd t)) /\
  call_count (fst (snd r)) = call_count (fst (snd t)) /\
  requests (snd (snd r)) = requests (snd (snd t)) /\
  match fst t with
  | inr resp =>
      fst r = inr resp /\ error_count (fst (snd r)) = error_count (fst (snd t))
  | inl e =>
      error_count (fst (snd r)) = error_count (fst (snd t)) + 1 /\
      exists resp,
        fst r = inr resp /\ success resp = false /\
        error_message resp = Some (str e) /\ cached resp = false
  end.
Proof.
  cbn zeta. rewrite call_api_unfold.
  destruct (call_api_try _IMPORTS_AVAILABLE truthy json_dumps json_loads
              sha256_hexdigest (now w) endpoint method data headers (self, tick w))
    as [[e|resp] [self1 w1]]; cbn [fst snd]; [|auto 6].
  rewrite call_api_except_spec, on_breaker_spec.
  destruct (circuit_breaker self1) as [cb|]; cbn [fst snd];
    cbn [count_error with_circuit_breaker response_cache rate_limiter
         call_count error_count tick requests].
  - repeat split; try reflexivity.
    + unfold CircuitBreaker.record_failure, bind, time_time, ret,
        CircuitBreaker._transition_to_open. simpl.
      destruct (CircuitBreaker.state cb); simpl; try reflexivity.
      destruct (_ >=? _); reflexivity.
    + eexists. repeat split; reflexivity.
  - repeat split; try reflexivity. eexists. repeat split; reflexivity.
Qed.

End AfterTry.

Section NoSuccessWithoutHit.

Variable Data : Type.
Variable truthy : Data -> bool.
Variable json_dumps : bool -> Data -> Result string.
Variable json_loads : string -> option Data.
Variable sha256_hexdigest : string -> string.

Import ExternalAPIClient.

Local Abbreviation client := (ExternalAPIClient.t Data).
Local Abbreviation entries :=
  (fun self : client => LRUCache._cache (response_cache self)).
Local Abbreviation call :=
  (call_api true truthy json_dumps json_loads sha256_hexdigest).

(** X4.  With the imports available, [call_api] never adds a key to the
    response cache (the keys after a call are the keys before it), and the
    response it returns has [success = true] only when it is an entry that
    was already in the cache under the key of the request: no call that
    goes to the service comes back as a success. *)
Theorem call_succeeds_only_from_the_cache
        (endpoint method : string) (data : option Data)
        (headers : option (list (string * string)))
        (self : client) (w : World) :
  let r := call endpoint method data headers (self, w) in
  (forall k, contains String.eqb k (entries (fst (snd r)))
             = contains String.eqb k (entries self)) /\
  (entries self = [] -> entries (fst (snd r)) = []) /\
  exists resp,
    fst r = inr resp /\
    (success resp = true ->
     exists key cached,
       _generate_cache_key truthy json_dumps sha256_hexdigest endpoint method data
         = inr key /\
       getitem String.eqb key (entries self) = Some cached /\
       resp = mark_cached cached).
Proof.
  cbn zeta.
  destruct (try_block_on Data truthy json_dumps json_loads sha256_hexdigest
              (now w) endpoint method data headers self (tick w))
    as (Hkeys & Hhit & Hempty).
  destruct (call_after_try true Data truthy json_dumps json_loads sha256_hexdigest
              endpoint method data headers self w)
    as (Hcache & _ & _ & _ & Hresult).
  cbn zeta in Hkeys, Hhit, Hempty, Hcache, Hresult.
  rewrite Hcache. split; [exact Hkeys|]. split; [exact Hempty|].
  destruct (fst (call_api_try true truthy json_dumps json_loads sha256_hexdigest
                   (now w) endpoint method data headers (self, tick w)))
    as [e|resp0].
  - destruct Hresult as (_ & resp & Hr & Hfail & _).
    exists resp. split; [exact Hr|]. rewrite Hfail. discriminate.
  - destruct Hresult as (Hr & _). exists resp0. split; [exact Hr|].
    intros _. now apply Hhit.
Qed.

(** X5.  With the imports available ([_IMPORTS_AVAILABLE] true), a client
    whose response cache is empty answers every request of every sequence
    of requests with a failure response, whatever the service does, and its
    cache is still empty afterwards.  (Without the imports there is no
    cache and an answered call succeeds.) *)
Theorem client_with_empty_cache_only_fails
        (rqs : list (Request Data)) (self : client) (w : World) :
  entries self = [] ->
  let r := call_api_all true truthy json_dumps json_loads sha256_hexdigest
             rqs (self, w) in
  Forall (fun x => exists resp, x = inr resp /\ success resp = false) (fst r) /\
  List.length (fst r) = List.length rqs /\
  entries (fst (snd r)) = [].
Proof.
  revert self w. induction rqs as [|rq rqs IH]; intros self w Hempty.
  - simpl. auto.
  - cbn [call_api_all].
    destruct (try_block_on Data truthy json_dumps json_loads sha256_hexdigest
                (now w) (request_endpoint rq) (request_method rq)
                (request_data rq) (request_headers rq) self (tick w))
      as (_ & Hhit & He).
    destruct (call_after_try true Data truthy json_dumps json_loads
                sha256_hexdigest (request_endpoint rq) (request_method rq)
                (request_data rq) (request_headers rq) self w)
      as (Hcache & _ & _ & _ & Hresult).
    cbn zeta in Hhit, He, Hcache, Hresult.
    assert (Hfail : exists resp,
               fst (call (request_endpoint rq) (request_method rq)
                      (request_data rq) (request_headers rq) (self, w)) = inr resp /\
               success resp = false).
    { destruct (fst (call_api_try true truthy json_dumps json_loads
                       sha256_hexdigest (now w) (request_endpoint rq)
                       (request_method rq) (request_data rq)
                       (request_headers rq) (self, tick w))) as [e|resp0].
      - destruct Hresult as (_ & resp & Hr & Hf & _). now exists resp.
      - destruct (Hhit resp0 eq_refl) as (key & cached0 & _ & Hget & _).
        rewrite Hempty in Hget. discriminate. }
    rewrite <- Hcache in He. specialize (He Hempty).
    destruct (call (request_endpoint rq) (request_method rq) (request_data rq)
                (request_headers rq) (self, w)) as [r1 [self1 w1]].
    cbn [fst snd] in *.
    destruct (IH self1 w1 He) as (Hall & Hlen & Hend).
    cbn zeta in Hall, Hlen, Hend.
    destruct (call_api_all true truthy json_dumps json_loads sha256_hexdigest
                rqs (self1, w1)) as [rs [self2 w2]].
    cbn [fst snd] in *. split; [|split; [simpl; congruence|exact Hend]].
    constructor; [exact Hfail|exact Hall].
Qed.

End NoSuccessWithoutHit.

Lemma client_with_empty_cache_only_fails_witness :
  LRUCache._cache (ExternalAPIClient.response_cache (fst (fresh_client healthy))) = [] /\
  Forall (fun x => exists resp, x = inr resp /\ success resp = false)
    (fst (ExternalAPIClient.call_api_all true text_truthy text_dumps text_loads
            plain_digest
            [ExternalAPIClient.mkRequest "health" "GET" None None;
             ExternalAPIClient.mkRequest "identity/verify" "POST" (Some "{}") None]
            (fst (fresh_client healthy), snd (fresh_client healthy)))).
Proof.
  split; [reflexivity|].
  apply (client_with_empty_cache_only_fails string text_truthy text_dumps
           text_loads plain_digest _ (fst (fresh_client healthy))
           (snd (fresh_client healthy)) eq_refl).
Defined.

(** ** The client: an open breaker under steady traffic *)

Section Starvation.

Variable _IMPORTS_AVAILABLE : bool.
Variable Data : Type.
Variable truthy : Data -> bool.
Variable json_dumps : bool -> Data -> Result string.
Variable json_loads : string -> option Data.
Variable sha256_hexdigest : string -> string.

Import ExternalAPIClient.

Local Abbreviation client := (ExternalAPIClient.t Data).
Local Abbreviation call :=
  (call_api _IMPORTS_AVAILABLE truthy json_dumps json_loads sha256_hexdigest).

(** The result of a call that the open breaker refuses, in full. *)
Lemma refused_call (endpoint method : string) (data : option Data)
      (headers : option (list (string * string)))
      (self : client) (w : World) (cb : CircuitBreaker.t) :
  circuit_breaker self = Some cb ->
  CircuitBreaker.state cb = OPEN ->
  now (tick w) - CircuitBreaker.last_failure_time cb
    < recovery_timeout (CircuitBreaker.config cb) ->
  call endpoint method data headers (self, w) =
    (inr (mkExternalServiceResponse false NoData
            (Some "Circuit breaker is open - service unavailable")
            ((now (tick (tick (tick w))) - now w) * 1000) false
            (provider_value (provider (config self))) 1
            [("endpoint", MetaStr endpoint); ("method", MetaStr method);
             ("error_type", MetaStr "IntegrationError")]),
     (count_error
        (with_circuit_breaker
           (Some (CircuitBreaker.mk (CircuitBreaker.config cb) OPEN
                    (CircuitBreaker.failure_count cb + 1)
                    (CircuitBreaker.success_count cb)
                    (now (tick (tick w))) (CircuitBreaker.last_state_change cb)))
           self),
      tick (tick (tick (tick w))))).
Proof.
  intros Hcb Hopen Hsoon.
  assert (Hgate : check_circuit_breaker (self, tick w) =
            (inl (mkException IntegrationError
                    "Circuit breaker is open - service unavailable"),
             (with_circuit_breaker (Some cb) self, tick (tick w)))).
  { rewrite (check_circuit_breaker_present Data self (tick w) cb Hcb).
    now rewrite can_execute_open_blocked. }
  rewrite (call_api_handles _ _ _ _ _ _ _ _ _ _ self w _ _
             (try_breaker_refuses _ _ _ _ _ _ _ _ _ _ _ _ _ _ Hgate)).
  rewrite call_api_except_spec, on_breaker_spec.
  cbn [with_circuit_breaker circuit_breaker].
  rewrite record_failure_open by exact Hopen.
  reflexivity.
Qed.

(** X6.  Once the breaker is open, calls that keep arriving keep it open:
    if the first call comes before the recovery timeout has passed and any
    three consecutive clock readings lie less than the recovery timeout
    apart (each refused call reads the clock four times), then every call
    of every sequence of requests is refused, no request is sent, and the
    breaker is still open, with one more failure counted for each call. *)
Theorem open_breaker_never_recovers_under_traffic
        (rqs : list (Request Data)) (self : client) (w : World)
        (cb : CircuitBreaker.t) :
  circuit_breaker self = Some cb ->
  CircuitBreaker.state cb = OPEN ->
  now (tick w) - CircuitBreaker.last_failure_time cb
    < recovery_timeout (CircuitBreaker.config cb) ->
  (forall i : nat,
      clock w (S (S (S i))) - clock w i < recovery_timeout (CircuitBreaker.config cb)) ->
  let r := call_api_all _IMPORTS_AVAILABLE truthy json_dumps json_loads
             sha256_hexdigest rqs (self, w) in
  Forall (fun x => exists resp,
              x = inr resp /\ success resp = false /\
              error_message resp
                = Some "Circuit breaker is open - service unavailable") (fst r) /\
  requests (snd (snd r)) = requests w /\
  exists cb',
    circuit_breaker (fst (snd r)) = Some cb' /\
    CircuitBreaker.state cb' = OPEN /\
    CircuitBreaker.failure_count cb'
      = CircuitBreaker.failure_count cb + Z.of_nat (List.length rqs).
Proof.
  revert self w cb. induction rqs as [|rq rqs IH];
    intros self w cb Hcb Hopen Hsoon Hsteady.
  - simpl. split; [constructor|]. split; [reflexivity|].
    exists cb. repeat split; trivial. lia.
  - cbn [call_api_all].
    rewrite (refused_call _ _ _ _ self w cb Hcb Hopen Hsoon).
    match goal with
    | |- context [call_api_all _ _ _ _ _ rqs (?self1, ?w1)] =>
        destruct (IH self1 w1
                    (CircuitBreaker.mk (CircuitBreaker.config cb) OPEN
                       (CircuitBreaker.failure_count cb + 1)
                       (CircuitBreaker.success_count cb)
                       (now (tick (tick w))) (CircuitBreaker.last_state_change cb))
                    eq_refl eq_refl)
          as (Hall & Hreq & cb' & Hcb' & Hopen' & Hcount);
        [ exact (Hsteady (S (S (ticks w)))) | exact Hsteady | ];
        cbn zeta in Hall, Hreq, Hcb', Hcount;
        destruct (call_api_all _IMPORTS_AVAILABLE truthy json_dumps json_loads
                    sha256_hexdigest rqs (self1, w1)) as [rs [self2 w2]]
    end.
    cbn [fst snd] in *. split; [|split].
    + constructor; [|exact Hall]. eexists. repeat split; reflexivity.
    + exact Hreq.
    + exists cb'. split; [exact Hcb'|]. split; [exact Hopen'|].
      rewrite Hcount. cbn [CircuitBreaker.failure_count List.length]. lia.
Qed.

End Starvation.

Lemma open_breaker_never_recovers_under_traffic_witness :
  (ExternalAPIClient.circuit_breaker (fst tripped_client)
     = Some (CircuitBreaker.mk default_breaker_config OPEN 5 0 125 126) /\
   now (tick (snd tripped_client)) - 125 < 60 /\
   (forall i : nat,
       clock (snd tripped_client) (S (S (S i))) - clock (snd tripped_client) i < 60)) /\
  requests
    (snd (snd (ExternalAPIClient.call_api_all true text_truthy text_dumps
                 text_loads plain_digest
                 (repeat (ExternalAPIClient.mkRequest "health" "GET" None None) 20)
                 (fst tripped_client, snd tripped_client))))
  = requests (snd tripped_client).
Proof.
  assert (Hsteady : forall i : nat,
             clock (snd tripped_client) (S (S (S i)))
             - clock (snd tripped_client) i < 60).
  { intros i. change (clock (snd tripped_client)) with (steady_clock 100).
    unfold steady_clock. lia. }
  split; [split; [vm_compute; reflexivity|split; [vm_compute; reflexivity|exact Hsteady]]|].
  apply (open_breaker_never_recovers_under_traffic true string text_truthy
           text_dumps text_loads plain_digest _ (fst tripped_client)
           (snd tripped_client)
           (CircuitBreaker.mk default_breaker_config OPEN 5 0 125 126)).
  - vm_compute; reflexivity.
  - reflexivity.
  - vm_compute; reflexivity.
  - exact Hsteady.
Defined.

(** ** The client without the imports: calls that are answered *)

Section Degraded.

Variable Data : Type.
Variable truthy : Data -> bool.
Variable json_dumps : bool -> Data -> Result string.
Variable json_loads : string -> option Data.
Variable sha256_hexdigest : string -> string.

Import ExternalAPIClient.

Local Abbreviation client := (ExternalAPIClient.t Data).
Local Abbreviation attempt :=
  (_execute_with_retry__wrapped__ truthy json_dumps json_loads).
Local Abbreviation execute :=
  (_execute_with_retry truthy json_dumps json_loads).
Local Abbreviation body_of :=
  (fun text : string =>
     match json_loads text with
     | Some d => Decoded d
     | None => RawResponse text
     end).




End Degraded.


(** ** The health check *)

Section HealthCheck.

Variable _IMPORTS_AVAILABLE : bool.
Variable Data : Type.
Variable truthy : Data -> bool.
Variable json_dumps : bool -> Data -> Result string.
Variable json_loads : string -> option Data.
Variable sha256_hexdigest : string -> string.

Import ExternalAPIClient.

(** X8.  [health_check] never raises and its [except] branch is never
    taken: the report always carries a response time and never an error,
    and [healthy] is the [success] of the response of
    [call_api("health", "GET")].  With the imports available, a client
    whose cache holds no entry for that request reports unhealthy whatever
    the service answers. *)
Theorem health_check_never_reports_an_error
        (self : ExternalAPIClient.t Data) (w : World) :
  let r := health_check _IMPORTS_AVAILABLE truthy json_dumps json_loads
             sha256_hexdigest (self, w) in
  let c := call_api _IMPORTS_AVAILABLE truthy json_dumps json_loads
             sha256_hexdigest "health" "GET" None None (self, w) in
  exists report resp,
    fst r = inr report /\ fst c = inr resp /\
    fst (snd r) = fst (snd c) /\
    requests (snd (snd r)) = requests (snd (snd c)) /\
    health_error report = None /\
    health_response_time_ms report = Some (response_time_ms resp) /\
    healthy report = success resp /\
    (_IMPORTS_AVAILABLE = true ->
     getitem String.eqb (sha256_hexdigest "health:GET:")
       (LRUCache._cache (response_cache self)) = None ->
     healthy report = false).
Proof.
  cbn zeta.
  pose proof (call_after_try _IMPORTS_AVAILABLE Data truthy json_dumps json_loads
                sha256_hexdigest "health" "GET" None None self w) as Hafter.
  cbn zeta in Hafter. destruct Hafter as (_ & _ & _ & _ & Hresult).
  pose proof (try_block_on Data truthy json_dumps json_loads sha256_hexdigest
                (now w) "health" "GET" None None self (tick w)) as Hon.
  cbn zeta in Hon. destruct Hon as (_ & Hhit & _).
  unfold health_check, try_except, bindE.
  destruct (call_api_returns _IMPORTS_AVAILABLE Data truthy json_dumps json_loads
              sha256_hexdigest "health" "GET" None None self w)
    as (resp & [self1 w1] & Hcall).
  rewrite Hcall in *. cbn [fst snd] in *.
  assert (Hunhealthy :
            _IMPORTS_AVAILABLE = true ->
            getitem String.eqb (sha256_hexdigest "health:GET:")
              (LRUCache._cache (response_cache self)) = None ->
            success resp = false).
  { intros Hflag Hmiss. subst _IMPORTS_AVAILABLE.
    destruct (fst (call_api_try true truthy json_dumps json_loads
                     sha256_hexdigest (now w) "health" "GET" None None
                     (self, tick w))) as [e|resp0] eqn:Htry.
    - destruct Hresult as (_ & resp' & Hr & Hfail & _).
      inversion Hr; subst. exact Hfail.
    - destruct (Hhit resp0 eq_refl) as (key & cached & Hk & Hget & _).
      cbn in Hk. inversion Hk; subst key. rewrite Hmiss in Hget. discriminate. }
  unfold get_self, breaker_state_report, bindE, get_self, lift, pure.
  destruct (circuit_breaker self1) as [cb|].
  - destruct (CircuitBreaker.get_state cb w1) as [st w2] eqn:Hst.
    unfold CircuitBreaker.get_state, bind, time_time, ret in Hst.
    inversion Hst; subst.
    eexists. exists resp. cbn [fst snd healthy health_error
                               health_response_time_ms tick requests].
    repeat split; trivial.
  - eexists. exists resp. cbn [fst snd healthy health_error
                               health_response_time_ms].
    repeat split; trivial.
Qed.

End HealthCheck.

(** ** Cache keys *)

Section CacheKeys.

Variable Data : Type.
Variable truthy : Data -> bool.
Variable json_dumps : bool -> Data -> Result string.
Variable sha256_hexdigest : string -> string.

Import ExternalAPIClient.

Lemma append_assoc (a b c : string) :
  ((a ++ b) ++ c = a ++ (b ++ c))%string.
Proof.
  induction a as [|x a IH]; simpl; [reflexivity|]. now rewrite IH.
Qed.

Lemma length_append (a b : string) :
  String.length (a ++ b) = (String.length a + String.length b)%nat.
Proof.
  induction a as [|x a IH]; simpl; [reflexivity|]. now rewrite IH.
Qed.

(** X9.  The cache key is the digest of "endpoint:method:payload", so the
    colon that separates the parts can also come from the parts: the
    requests for endpoint [e ++ ":" ++ m1] with method [m2] and for
    endpoint [e] with method [m1 ++ ":" ++ m2] get the same key for every
    payload, although endpoint and method differ, and so share one cache
    entry. *)
Theorem cache_key_does_not_separate_endpoint_and_method
        (e m1 m2 : string) (payload : option Data) :
  _generate_cache_key truthy json_dumps sha256_hexdigest
    (e ++ ":" ++ m1)%string m2 payload
  = _generate_cache_key truthy json_dumps sha256_hexdigest
      e (m1 ++ ":" ++ m2)%string payload
  /\ (e ++ ":" ++ m1)%string <> e
  /\ m2 <> (m1 ++ ":" ++ m2)%string.
Proof.
  split; [|split].
  - unfold _generate_cache_key.
    destruct (match payload with
              | Some d => if truthy d then json_dumps true d else inr ""
              | None => inr ""
              end) as [err|text]; [reflexivity|].
    do 2 apply f_equal.
    rewrite append_assoc. cbn [String.append]. apply f_equal.
    rewrite append_assoc. reflexivity.
  - intros H. apply (f_equal String.length) in H.
    rewrite !length_append in H. simpl in H. lia.
  - intros H. apply (f_equal String.length) in H.
    rewrite !length_append in H. simpl in H. lia.
Qed.

End CacheKeys.

(** ** The LRU cache over any history *)

Section LRUFurther.

Context {K V : Type}.
Variable K_eqb : K -> K -> bool.
Hypothesis K_eqb_eq : forall a b : K, K_eqb a b = true <-> a = b.

(** Entries in the order of their last access have distinct keys. *)
Lemma by_recency_nodup (la : K -> nat) (d : list (K * V)) :
  by_recency la d -> NoDup (dict_keys d).
Proof.
  induction d as [|kv d IH]; simpl; [constructor|].
  intros [Hhead Htail]. constructor; [|now apply IH].
  intros Hin. apply in_map_iff in Hin as (kv' & Heq & Hin).
  specialize (Hhead kv' Hin). rewrite Heq in Hhead. lia.
Qed.

(** X10.  On a cache built by [__init__] with capacity [n], no sequence
    of [get], [set], [delete] and [clear] operations raises, and after it
    the cache still has capacity [n], holds at most [n] entries, and holds
    no key twice. *)
Theorem lru_cache_stays_within_capacity
        (n : Z) (ops : list (Operation K V)) (c0 : LRUCache.t K V) :
  LRUCache.__init__ n = inr c0 ->
  exists (c : LRUCache.t K V) (last_access : K -> nat),
    run K_eqb ops 1 c0 (fun _ => 0%nat) = inr (c, last_access) /\
    LRUCache._maxsize c = n /\
    0 <= LRUCache.size c <= n /\
    NoDup (LRUCache.keys c).
Proof.
  intros Hinit.
  pose proof (init_invariant (V := V) n c0 (fun _ => 0%nat) 1 Hinit) as Hinv.
  destruct (run_never_raises K_eqb K_eqb_eq ops n 1 c0 _ Hinv) as ([c la] & Hrun).
  destruct (run_preserves K_eqb K_eqb_eq ops n 1 c0 c _ la Hinv Hrun)
    as (step & _ & Hmax & Hlen & Hsorted & _).
  exists c, la. split; [exact Hrun|]. split; [exact Hmax|]. split.
  - unfold LRUCache.size, len in *. lia.
  - now apply by_recency_nodup with (la := la).
Qed.





(** X12.  After [set(key, value)] a [get(key)] returns [value], and the
    new entry is the most recently used one.  A [get] of any other key
    returns what it returned before, unless that key was the least
    recently used one and had to make room: this can happen only when
    [key] is new and the cache is full. *)
Theorem lru_set_then_get
        (c c' : LRUCache.t K V) (key : K) (value : V) :
  LRUCache.set K_eqb key value c = inr c' ->
  (forall default, fst (LRUCache.get K_eqb key default c') = Some value) /\
  (exists front, LRUCache._cache c' = front ++ [(key, value)]) /\
  (forall k' default,
      k' <> key ->
      contains K_eqb key (LRUCache._cache c) = true \/
      len (LRUCache._cache c) < LRUCache._maxsize c \/
      (exists kv rest, LRUCache._cache c = kv :: rest /\ fst kv <> k') ->
      fst (LRUCache.get K_eqb k' default c')
      = fst (LRUCache.get K_eqb k' default c)).
Proof.
  intros Hset.
  assert (Hread : forall k default (x : LRUCache.t K V),
             fst (LRUCache.get K_eqb k default x)
             = match getitem K_eqb k (LRUCache._cache x) with
               | Some v => Some v
               | None => default
               end).
  { intros k default x. unfold LRUCache.get.
    now destruct (getitem K_eqb k (LRUCache._cache x)). }
  unfold LRUCache.set in Hset.
  destruct (contains K_eqb key (LRUCache._cache c)) eqn:Ein.
  - inversion Hset; subst c'. cbn [LRUCache._cache]. split; [|split].
    + intros default. rewrite Hread. cbn [LRUCache._cache].
      now rewrite (getitem_setitem K_eqb K_eqb_eq).
    + eexists. apply setitem_new. apply (contains_delitem K_eqb).
    + intros k' default Hne _. rewrite !Hread. cbn [LRUCache._cache].
      rewrite (getitem_setitem_other K_eqb K_eqb_eq) by exact Hne.
      now rewrite (getitem_delitem_other K_eqb K_eqb_eq) by exact Hne.
  - destruct (Z.geb_spec (len (LRUCache._cache c)) (LRUCache._maxsize c))
      as [Hfull|Hroom].
    + destruct (LRUCache._cache c) as [|kv0 rest] eqn:Ed; [discriminate|].
      cbn [LRUCache.popitem_first] in Hset. inversion Hset; subst c'.
      cbn [LRUCache._cache].
      simpl in Ein. apply orb_false_elim in Ein as [_ Ein].
      split; [|split].
      * intros default. rewrite Hread. cbn [LRUCache._cache].
        now rewrite (getitem_setitem K_eqb K_eqb_eq).
      * eexists. now apply setitem_new.
      * intros k' default Hne [Hc|[Hlt|(kv & rest' & Heq & Hkv)]];
          [discriminate|lia|].
        inversion Heq; subst kv rest'. rewrite !Hread.
        cbn [LRUCache._cache]. rewrite Ed.
        rewrite (getitem_setitem_other K_eqb K_eqb_eq) by exact Hne.
        destruct kv0 as [k0 x0]. cbn [getitem fst] in *.
        now rewrite (K_eqb_neq K_eqb K_eqb_eq k' k0) by congruence.
    + inversion Hset; subst c'. cbn [LRUCache._cache]. split; [|split].
      * intros default. rewrite Hread. cbn [LRUCache._cache].
        now rewrite (getitem_setitem K_eqb K_eqb_eq).
      * eexists. now apply setitem_new.
      * intros k' default Hne _. rewrite !Hread. cbn [LRUCache._cache].
        now rewrite (getitem_setitem_other K_eqb K_eqb_eq) by exact Hne.
Qed.

(** X13.  [delete(key)] returns whether the key was there; afterwards a
    [get(key)] returns the default, a [get] of any other key returns what
    it returned before, and a cache that did not hold the key is left as
    it was. *)
Theorem lru_delete_removes_only_that_key (c : LRUCache.t K V) (key : K) :
  let r := LRUCache.delete K_eqb key c in
  fst r = contains K_eqb key (LRUCache._cache c) /\
  (forall default, fst (LRUCache.get K_eqb key default (snd r)) = default) /\
  (forall k' default,
      k' <> key ->
      fst (LRUCache.get K_eqb k' default (snd r))
      = fst (LRUCache.get K_eqb k' default c)) /\
  (fst r = false -> snd r = c).
Proof.
  cbn zeta. unfold LRUCache.delete, LRUCache.get.
  destruct (contains K_eqb key (LRUCache._cache c)) eqn:Ein;
    cbn [fst snd LRUCache._cache].
  - split; [reflexivity|]. split; [|split].
    + intros default. now rewrite (getitem_delitem K_eqb).
    + intros k' default Hne.
      rewrite (getitem_delitem_other K_eqb K_eqb_eq) by exact Hne.
      now destruct (getitem K_eqb k' (LRUCache._cache c)).
    + discriminate.
  - split; [reflexivity|]. split; [|split].
    + intros default. apply (getitem_contains K_eqb) in Ein. now rewrite Ein.
    + reflexivity.
    + reflexivity.
Qed.

End LRUFurther.

Lemma lru_cache_stays_within_capacity_witness :
  LRUCache.__init__ 2 = inr small_lru_cache /\
  exists (c : LRUCache.t string Z) (last_access : string -> nat),
    run String.eqb
      (two_keys_first_reread ++ [DoSet "c" 3; DoDelete "a"; DoSet "d" 4; DoSet "e" 5])
      1 small_lru_cache (fun _ => 0%nat) = inr (c, last_access) /\
    LRUCache.size c <= 2.
Proof.
  split; [reflexivity|].
  destruct (lru_cache_stays_within_capacity String.eqb String.eqb_eq 2
              (two_keys_first_reread
                 ++ [DoSet "c" 3; DoDelete "a"; DoSet "d" 4; DoSet "e" 5])
              small_lru_cache eq_refl)
    as (c & la & Hrun & _ & Hsize & _).
  exists c, la. split; [exact Hrun|lia].
Defined.


Lemma lru_set_then_get_witness :
  exists c' : LRUCache.t string Z,
    LRUCache.set String.eqb "a" 1 small_lru_cache = inr c' /\
    fst (LRUCache.get String.eqb "a" None c') = Some 1.
Proof.
  eexists. split; [reflexivity|].
  exact (proj1 (lru_set_then_get String.eqb String.eqb_eq small_lru_cache _
                  "a" 1 eq_refl) None).
Defined.

Lemma lru_delete_removes_only_that_key_witness :
  fst (LRUCache.get String.eqb "b" None
         (snd (LRUCache.delete String.eqb "a"
                 (LRUCache.mk 2 [("a", 1); ("b", 2)]
                    (with_current_size 2 (new_stats 2))))))
  = fst (LRUCache.get String.eqb "b" None
           (LRUCache.mk 2 [("a", 1); ("b", 2)] (with_current_size 2 (new_stats 2)))).
Proof.
  apply (proj1 (proj2 (proj2
           (lru_delete_removes_only_that_key String.eqb String.eqb_eq
              (LRUCache.mk 2 [("a", 1); ("b", 2)]
                 (with_current_size 2 (new_stats 2))) "a")))).
  discriminate.
Defined.

(** ** The TTL cache over any history *)

Section TTLFurther.

Context {K V : Type}.
Variable K_eqb : K -> K -> bool.
Hypothesis K_eqb_eq : forall a b : K, K_eqb a b = true <-> a = b.

Local Abbreviation cache := (TTLCache.t K V).
Local Abbreviation entries := (list (K * (V * Z))).

Lemma nodup_filter_keys (f : K * (V * Z) -> bool) (d : entries) :
  NoDup (dict_keys d) -> NoDup (dict_keys (filter f d)).
Proof.
  induction d as [|kv d IH]; simpl; [trivial|].
  intros Hnodup. inversion Hnodup as [|k ks Hnotin Hrest]; subst.
  destruct (f kv); simpl; [|auto].
  constructor; [|auto].
  intros Hin. apply Hnotin. apply in_map_iff in Hin as (kv' & Heq & Hin).
  apply filter_In in Hin as [Hin _]. apply in_map_iff. eauto.
Qed.

Lemma len_filter_le (f : K * (V * Z) -> bool) (d : entries) :
  len (filter f d) <= len d.
Proof. unfold len. pose proof (filter_length_le f d). lia. Qed.

Lemma len_nonneg (d : entries) : 0 <= len d.
Proof. unfold len. lia. Qed.

(** Storing overwrites in place or appends. *)
Lemma setitem_shape (k : K) (x : V * Z) (d : entries) :
  (contains K_eqb k d = true ->
   len (setitem K_eqb k x d) = len d /\
   dict_keys (setitem K_eqb k x d) = dict_keys d) /\
  (contains K_eqb k d = false ->
   len (setitem K_eqb k x d) = len d + 1 /\
   dict_keys (setitem K_eqb k x d) = dict_keys d ++ [k]).
Proof.
  split.
  - induction d as [|[k' y] d IH]; [discriminate|].
    cbn [contains existsb fst setitem]. unfold len in *.
    destruct (K_eqb k k') eqn:E; cbn [orb]; intros Hin.
    + split; reflexivity.
    + destruct (IH Hin) as [Hl Hk]. cbn [List.length dict_keys map fst].
      unfold dict_keys in Hk. rewrite Hk. split; [lia|reflexivity].
  - intros Hnew. rewrite (setitem_new K_eqb k x d Hnew).
    unfold len, dict_keys. rewrite length_app, map_app. simpl. split; [lia|reflexivity].
Qed.

Lemma nodup_setitem (k : K) (x : V * Z) (d : entries) :
  NoDup (dict_keys d) -> NoDup (dict_keys (setitem K_eqb k x d)).
Proof.
  intros Hnodup. destruct (contains K_eqb k d) eqn:E.
  - now rewrite (proj2 (proj1 (setitem_shape k x d) E)).
  - rewrite (proj2 (proj2 (setitem_shape k x d) E)).
    apply NoDup_app; [exact Hnodup|repeat constructor; intros []|].
    intros k' Hin [<-|[]].
    apply (contains_In K_eqb K_eqb_eq) in Hin. congruence.
Qed.

(** The key that [min] picks is in the dictionary, and no entry expires
    before it. *)
Lemma earliest_expiry_min (d : entries) (k : K) (e : Z) :
  TTLCache.earliest_expiry d = Some (k, e) ->
  (exists v, In (k, (v, e)) d) /\
  forall kv, In kv d -> e <= snd (snd kv).
Proof.
  revert k e. induction d as [|[k0 [v0 e0]] d IH]; intros k e; [discriminate|].
  cbn [TTLCache.earliest_expiry].
  destruct (TTLCache.earliest_expiry d) as [[k' e']|] eqn:Emin.
  - destruct (IH k' e' eq_refl) as ((v & Hin) & Hmin).
    destruct (Z.ltb_spec e' e0); intros Heq; inversion Heq; subst.
    + split; [exists v; now right|].
      intros kv [<-|Hkv]; [simpl; lia|now apply Hmin].
    + split; [exists v0; now left|].
      intros kv [<-|Hkv]; [simpl; lia|]. specialize (Hmin kv Hkv). lia.
  - intros Heq. inversion Heq; subst.
    split; [exists v0; now left|].
    destruct d as [|[k1 [v1 e1]] d]; [|cbn [TTLCache.earliest_expiry] in Emin;
      destruct (TTLCache.earliest_expiry d) as [[k2 e2]|];
      [destruct (e2 <? e1)|]; discriminate].
    intros kv [<-|[]]. simpl. lia.
Qed.

(** What holds of a TTL cache of capacity [n] between operations. *)
Local Abbreviation ttl_invariant :=
  (fun (n : Z) (c : cache) =>
     1 <= n /\
     TTLCache._maxsize c = n /\
     len (TTLCache._cache c) <= n /\
     NoDup (dict_keys (TTLCache._cache c)) /\
     len (TTLCache._cache c) <= current_size (TTLCache._stats c) <= n).

Lemma ttl_set_preserves (n : Z) (key : K) (value : V) (ttl : option Z)
      (c : cache) (w : World) :
  ttl_invariant n c ->
  exists c', fst (TTLCache.set K_eqb key value ttl c w) = inr c' /\
             ttl_invariant n c'.
Proof.
  intros (Hn & Hmax & Hlen & Hnodup & Hsize).
  unfold TTLCache.set, bind, time_time.
  destruct ((if len (TTLCache._cache c) >=? TTLCache._maxsize c
             then TTLCache._clean_expired c else ret c) (tick w))
    as [c1 w1] eqn:Eclean.
  assert (H1 : TTLCache._maxsize c1 = n /\
               len (TTLCache._cache c1) <= n /\
               NoDup (dict_keys (TTLCache._cache c1))).
  { destruct (len (TTLCache._cache c) >=? TTLCache._maxsize c).
    - unfold TTLCache._clean_expired, bind, time_time, ret in Eclean.
      inversion Eclean; subst c1 w1. cbn [TTLCache._maxsize TTLCache._cache].
      split; [exact Hmax|]. split.
      + apply Z.le_trans with (len (TTLCache._cache c));
          [apply len_filter_le|exact Hlen].
      + now apply nodup_filter_keys.
    - unfold ret in Eclean. inversion Eclean; subst c1 w1. auto. }
  destruct H1 as (Hmax1 & Hlen1 & Hnodup1).
  set (x := (value, now w + match ttl with
                             | Some t => t
                             | None => TTLCache._default_ttl c
                             end)).
  destruct (contains K_eqb key (TTLCache._cache c1)) eqn:Ein;
    cbn [negb andb]; rewrite ?andb_false_r, ?andb_true_r.
  - eexists. split; [reflexivity|].
    cbn [TTLCache._maxsize TTLCache._cache TTLCache._stats with_current_size
         current_size].
    destruct (proj1 (setitem_shape key x (TTLCache._cache c1)) Ein) as [Hl Hk].
    repeat split; trivial; try lia.
    + rewrite Hk. exact Hnodup1.
  - destruct (Z.geb_spec (len (TTLCache._cache c1)) (TTLCache._maxsize c1))
      as [Hfull|Hroom].
    + destruct (TTLCache.earliest_expiry (TTLCache._cache c1))
        as [[oldest e]|] eqn:Emin.
      * destruct (earliest_expiry_min _ _ _ Emin) as ((v & Hin) & _).
        assert (Hold : contains K_eqb oldest (TTLCache._cache c1) = true).
        { apply (contains_In K_eqb K_eqb_eq). apply in_map_iff.
          now exists (oldest, (v, e)). }
        pose proof (len_delitem_present K_eqb oldest _ Hold) as Hdel.
        assert (Hnew : contains K_eqb key
                         (delitem K_eqb oldest (TTLCache._cache c1)) = false).
        { rewrite (contains_delitem_other K_eqb K_eqb_eq), Ein.
          apply andb_false_r. }
        eexists. split; [reflexivity|].
        cbn [TTLCache._maxsize TTLCache._cache TTLCache._stats
             with_current_size current_size count_evictions].
        destruct (proj2 (setitem_shape key x _) Hnew) as [Hl Hk].
        repeat split; trivial; try lia.
        apply nodup_setitem. now apply nodup_filter_keys.
      * exfalso. destruct (TTLCache._cache c1) as [|kv d] eqn:Ed.
        -- unfold len in Hfull. simpl in Hfull. lia.
        -- now apply (earliest_expiry_nonempty (kv :: d)).
    + eexists. split; [reflexivity|].
      cbn [TTLCache._maxsize TTLCache._cache TTLCache._stats with_current_size
           current_size].
      destruct (proj2 (setitem_shape key x (TTLCache._cache c1)) Ein) as [Hl Hk].
      repeat split; trivial; try lia.
      now apply nodup_setitem.
Qed.

Lemma ttl_perform_preserves (n : Z) (op : TTLOperation K V) (c : cache) (w : World) :
  ttl_invariant n c ->
  exists c', fst (ttl_perform K_eqb op c w) = inr c' /\ ttl_invariant n c'.
Proof.
  intros Hinv. destruct op as [key default|key value ttl|key| |];
    cbn [ttl_perform]; [| now apply ttl_set_preserves | | |];
    destruct Hinv as (Hn & Hmax & Hlen & Hnodup & Hsize).
  - (* get *)
    unfold TTLCache.get, bind, time_time, ret.
    destruct (getitem K_eqb key (TTLCache._cache c)) as [[v e]|];
      [destruct (now w <? e)|]; eexists; (split; [reflexivity|]);
      cbn [fst snd TTLCache._maxsize TTLCache._cache TTLCache._stats count_hit
           count_miss count_evictions current_size];
      repeat split; trivial; try lia.
    + pose proof (len_filter_le (fun kv => negb (K_eqb key (fst kv)))
                    (TTLCache._cache c)). unfold delitem. lia.
    + now apply nodup_filter_keys.
    + pose proof (len_filter_le (fun kv => negb (K_eqb key (fst kv)))
                    (TTLCache._cache c)). unfold delitem. lia.
  - (* delete *)
    unfold TTLCache.delete, ret.
    destruct (contains K_eqb key (TTLCache._cache c)); eexists;
      (split; [reflexivity|]);
      cbn [fst snd TTLCache._maxsize TTLCache._cache TTLCache._stats
           with_current_size current_size];
      repeat split; trivial; try lia;
      pose proof (len_filter_le (fun kv => negb (K_eqb key (fst kv)))
                    (TTLCache._cache c)); unfold delitem; try lia.
    now apply nodup_filter_keys.
  - (* clear *)
    unfold TTLCache.clear, ret. eexists. split; [reflexivity|].
    cbn [TTLCache._maxsize TTLCache._cache TTLCache._stats with_current_size
         count_evictions current_size].
    unfold len. simpl. repeat split; trivial; try lia. constructor.
  - (* cleanup *)
    unfold TTLCache.cleanup, TTLCache._clean_expired, bind, time_time, ret.
    eexists. split; [reflexivity|].
    cbn [fst snd TTLCache._maxsize TTLCache._cache TTLCache._stats
         with_current_size count_evictions current_size].
    pose proof (len_filter_le (fun kv => negb (now w >=? snd (snd kv)))
                  (TTLCache._cache c)).
    repeat split; trivial; try lia.
    now apply nodup_filter_keys.
Qed.

(** X14.  On a cache built by [__init__] with capacity [n], no sequence
    of [get], [set], [delete], [clear] and [cleanup] operations raises,
    whatever the clock does (the [min] over the keys in [set] is never
    taken over an empty dictionary); the cache then still has capacity
    [n], holds at most [n] entries and no key twice, and the
    [current_size] of its statistics is at least the number of entries
    held and at most [n]. *)
Theorem ttl_cache_stays_within_capacity
        (n default_ttl : Z) (ops : list (TTLOperation K V)) (c0 : cache)
        (w : World) :
  TTLCache.__init__ n default_ttl = inr c0 ->
  exists c : cache,
    fst (ttl_run K_eqb ops c0 w) = inr c /\
    TTLCache._maxsize c = n /\
    len (TTLCache._cache c) <= n /\
    NoDup (dict_keys (TTLCache._cache c)) /\
    len (TTLCache._cache c) <= current_size (TTLCache._stats c) <= n.
Proof.
  intros Hinit.
  assert (Hinv : ttl_invariant n c0).
  { unfold TTLCache.__init__ in Hinit.
    destruct (Z.leb_spec n 0); [discriminate|].
    destruct (default_ttl <=? 0); [discriminate|].
    inversion Hinit; subst. unfold len. simpl.
    repeat split; try lia. constructor. }
  clear Hinit. revert c0 w Hinv.
  induction ops as [|op ops IH]; intros c0 w Hinv.
  - exists c0. split; [reflexivity|]. tauto.
  - cbn [ttl_run].
    destruct (ttl_perform_preserves n op c0 w Hinv) as (c1 & Hop & Hinv1).
    destruct (ttl_perform K_eqb op c0 w) as [[e|c1'] w1]; cbn [fst] in Hop;
      [discriminate|].
    inversion Hop; subst c1'. now apply IH.
Qed.

(** X15.  When [set] stores a new key in a cache that is full and holds
    nothing that has expired, it makes room by removing the key that
    expires first: an entry of the cache than which no entry expires
    earlier.  All other entries stay, in their order, the new entry comes
    last, expiring at "time of the call + ttl", and one eviction is
    counted. *)
Theorem ttl_set_evicts_the_entry_that_expires_first
        (c : cache) (key : K) (value : V) (ttl : option Z) (w : World) :
  1 <= TTLCache._maxsize c <= len (TTLCache._cache c) ->
  contains K_eqb key (TTLCache._cache c) = false ->
  (forall kv, In kv (TTLCache._cache c) -> now (tick w) < snd (snd kv)) ->
  exists (oldest : K) (v : V) (e : Z) (c' : cache),
    In (oldest, (v, e)) (TTLCache._cache c) /\
    (forall kv, In kv (TTLCache._cache c) -> e <= snd (snd kv)) /\
    fst (TTLCache.set K_eqb key value ttl c w) = inr c' /\
    TTLCache._cache c'
      = delitem K_eqb oldest (TTLCache._cache c)
        ++ [(key, (value, now w + match ttl with
                                  | Some t => t
                                  | None => TTLCache._default_ttl c
                                  end))] /\
    evictions (TTLCache._stats c') = evictions (TTLCache._stats c) + 1.
Proof.
  intros [Hn Hfull] Hnew Hfresh.
  assert (Hkeep : filter (fun kv : K * (V * Z) =>
                            negb (now (tick w) >=? snd (snd kv)))
                    (TTLCache._cache c) = TTLCache._cache c).
  { clear - Hfresh. induction (TTLCache._cache c) as [|kv d IH]; [reflexivity|].
    cbn [filter]. destruct (Z.geb_spec (now (tick w)) (snd (snd kv))) as [Hge|Hlt].
    - specialize (Hfresh kv (or_introl eq_refl)). lia.
    - cbn [negb]. f_equal. apply IH. intros kv' Hin. apply Hfresh. now right. }
  assert (Hnone : filter (fun kv : K * (V * Z) => now (tick w) >=? snd (snd kv))
                    (TTLCache._cache c) = []).
  { clear - Hfresh. induction (TTLCache._cache c) as [|kv d IH]; [reflexivity|].
    cbn [filter]. destruct (Z.geb_spec (now (tick w)) (snd (snd kv))) as [Hge|Hlt].
    - specialize (Hfresh kv (or_introl eq_refl)). lia.
    - apply IH. intros kv' Hin. apply Hfresh. now right. }
  destruct (TTLCache.earliest_expiry (TTLCache._cache c)) as [[oldest e]|] eqn:Emin.
  - destruct (earliest_expiry_min _ _ _ Emin) as ((v & Hin) & Hmin).
    exists oldest, v, e.
    unfold TTLCache.set, bind, time_time.
    destruct (Z.geb_spec (len (TTLCache._cache c)) (TTLCache._maxsize c));
      [|lia].
    unfold TTLCache._clean_expired, bind, time_time, ret.
    cbn [TTLCache._maxsize TTLCache._cache TTLCache._stats TTLCache._default_ttl].
    rewrite Hkeep, Hnone, Hnew.
    destruct (Z.geb_spec (len (TTLCache._cache c)) (TTLCache._maxsize c));
      [|lia].
    cbn [andb negb]. rewrite Emin.
    eexists. split; [exact Hin|]. split; [exact Hmin|].
    split; [reflexivity|].
    cbn [TTLCache._cache TTLCache._stats with_current_size count_evictions
         evictions].
    split.
    + apply setitem_new.
      rewrite (contains_delitem_other K_eqb K_eqb_eq), Hnew. apply andb_false_r.
    + unfold len. simpl. lia.
  - exfalso. destruct (TTLCache._cache c) as [|kv d] eqn:Ed.
    + unfold len in Hfull. simpl in Hfull. lia.
    + now apply (earliest_expiry_nonempty (kv :: d)).
Qed.

End TTLFurther.

Section TTLCleanup.

Context {K V : Type}.

(** X16.  [cleanup] removes the entries whose expiry time is not after
    the reading of the clock it takes, and leaves the others in their
    order; the number it returns is the number of entries removed, which
    is never negative and is what it adds to the eviction counter, and
    [current_size] is the number of entries left. *)
Theorem ttl_cleanup_removes_exactly_the_expired
        (c : TTLCache.t K V) (w : World) :
  let removed := fst (fst (TTLCache.cleanup c w)) in
  let c' := snd (fst (TTLCache.cleanup c w)) in
  (forall kv, In kv (TTLCache._cache c') <->
              In kv (TTLCache._cache c) /\ now w < snd (snd kv)) /\
  (exists expired,
      Permutation (TTLCache._cache c) (expired ++ TTLCache._cache c') /\
      (forall kv, In kv expired -> snd (snd kv) <= now w) /\
      removed = len expired) /\
  0 <= removed /\
  removed = len (TTLCache._cache c) - len (TTLCache._cache c') /\
  evictions (TTLCache._stats c') = evictions (TTLCache._stats c) + removed /\
  current_size (TTLCache._stats c') = len (TTLCache._cache c').
Proof.
  cbn zeta. unfold TTLCache.cleanup, TTLCache._clean_expired, bind, time_time, ret.
  cbn [fst snd TTLCache._cache TTLCache._stats with_current_size
       count_evictions evictions current_size].
  assert (Hlen : len (TTLCache._cache c)
                 = len (filter (fun kv : K * (V * Z) => now w >=? snd (snd kv))
                          (TTLCache._cache c))
                   + len (filter (fun kv : K * (V * Z) =>
                                    negb (now w >=? snd (snd kv)))
                            (TTLCache._cache c))).
  { unfold len. induction (TTLCache._cache c) as [|kv d IH]; [reflexivity|].
    cbn [filter]. destruct (now w >=? snd (snd kv)); cbn [negb List.length]; lia. }
  split; [|split; [|split; [|split; [|split]]]].
  - intros kv. rewrite filter_In.
    destruct (Z.geb_spec (now w) (snd (snd kv))); cbn [negb]; split;
      intros [H1 H2]; split; trivial; try lia; discriminate.
  - exists (filter (fun kv : K * (V * Z) => now w >=? snd (snd kv))
              (TTLCache._cache c)).
    split; [|split].
    + clear Hlen. induction (TTLCache._cache c) as [|kv d IH]; [constructor|].
      cbn [filter]. destruct (now w >=? snd (snd kv)); cbn [negb app].
      * apply perm_skip. exact IH.
      * apply Permutation_cons_app. exact IH.
    + intros kv Hin. apply filter_In in Hin as [_ Hin].
      destruct (Z.geb_spec (now w) (snd (snd kv))); [lia|discriminate].
    + lia.
  - unfold len in *. lia.
  - lia.
  - lia.
  - reflexivity.
Qed.

End TTLCleanup.

Lemma ttl_cache_stays_within_capacity_witness :
  TTLCache.__init__ 2 3600 = inr small_ttl_cache /\
  exists c : TTLCache.t string Z,
    fst (ttl_run String.eqb
           [TTLSet "a" 1 None; TTLSet "b" 2 (Some 1); TTLSet "c" 3 None;
            TTLGet "a" None; TTLCleanup; TTLSet "d" 4 None]
           small_ttl_cache (world_at 100 healthy)) = inr c /\
    len (TTLCache._cache c) <= 2.
Proof.
  split; [reflexivity|].
  destruct (ttl_cache_stays_within_capacity String.eqb String.eqb_eq 2 3600
              [TTLSet "a" 1 None; TTLSet "b" 2 (Some 1); TTLSet "c" 3 None;
               TTLGet "a" None; TTLCleanup; TTLSet "d" 4 None]
              small_ttl_cache (world_at 100 healthy) eq_refl)
    as (c & Hrun & _ & Hlen & _).
  exists c. split; [exact Hrun|exact Hlen].
Defined.

Lemma ttl_set_evicts_the_entry_that_expires_first_witness :
  exists (oldest : string) (v e : Z) (c' : TTLCache.t string Z),
    In (oldest, (v, e)) [("a", (1, 200)); ("b", (2, 150))] /\
    fst (TTLCache.set String.eqb "c" 3 None
           (TTLCache.mk 2 3600 [("a", (1, 200)); ("b", (2, 150))]
              (with_current_size 2 (new_stats 2)))
           (world_at 100 healthy)) = inr c' /\
    evictions (TTLCache._stats c') = 1.
Proof.
  destruct (ttl_set_evicts_the_entry_that_expires_first String.eqb String.eqb_eq
              (TTLCache.mk 2 3600 [("a", (1, 200)); ("b", (2, 150))]
                 (with_current_size 2 (new_stats 2)))
              "c" 3 None (world_at 100 healthy))
    as (oldest & v & e & c' & Hin & _ & Hset & _ & Hev).
  - split; vm_compute; discriminate.
  - reflexivity.
  - intros kv [<-|[<-|[]]]; vm_compute; reflexivity.
  - exists oldest, v, e, c'. split; [exact Hin|]. split; [exact Hset|exact Hev].
Defined.

(** ** The secure cache *)

Section SecureCacheFacts.

Context {K V : Type}.

Local Abbreviation bytes := (list Byte.byte).

Variable str_utf8 : K -> bytes.
Variable blake2b_hexdigest : bytes -> bytes -> string.
Variable token_bytes : nat -> bytes.
Variable pickle_dumps : V -> option bytes.
Variable pickle_loads : bytes -> option V.

Local Abbreviation get :=
  (SecureCache.get str_utf8 blake2b_hexdigest pickle_loads).
Local Abbreviation set :=
  (SecureCache.set str_utf8 blake2b_hexdigest pickle_dumps).
Local Abbreviation delete :=
  (SecureCache.delete str_utf8 blake2b_hexdigest).
Local Abbreviation salt_refused :=
  (mkException ValueError "maximum salt length is 16 bytes").

(** The salt of a new cache: the one given, or 32 random bytes. *)
Lemma init_salt (maxsize : Z) (encrypt_values : bool) (key_salt : option bytes)
      (fernet : option SecureCache.Fernet) (c : SecureCache.t V) :
  SecureCache.__init__ token_bytes maxsize encrypt_values key_salt fernet = inr c ->
  1 <= SecureCache._maxsize c /\
  SecureCache._cache c = [] /\
  SecureCache._key_salt c = match key_salt with
                            | Some (b :: s) => b :: s
                            | _ => token_bytes 32
                            end.
Proof.
  unfold SecureCache.__init__.
  destruct (Z.leb_spec maxsize 0) as [Hle|Hpos]; [discriminate|].
  destruct (if encrypt_values then fernet else None); intros Hc; inversion Hc;
    subst; cbn [SecureCache._maxsize SecureCache._cache SecureCache._key_salt];
    (split; [lia|split; [reflexivity|]]); now destruct key_salt as [[|b s]|].
Qed.

Lemma hash_key_refused (key : K) (c : SecureCache.t V) :
  (SecureCache.SALT_SIZE < List.length (SecureCache._key_salt c))%nat ->
  SecureCache._hash_key str_utf8 blake2b_hexdigest key c = inl salt_refused.
Proof.
  intros Hlong. unfold SecureCache._hash_key, SecureCache.blake2b.
  destruct (Nat.ltb_spec SecureCache.SALT_SIZE
              (List.length (SecureCache._key_salt c))); [reflexivity|lia].
Qed.

Lemma hash_key_accepted (key : K) (c : SecureCache.t V) :
  (List.length (SecureCache._key_salt c) <= SecureCache.SALT_SIZE)%nat ->
  SecureCache._hash_key str_utf8 blake2b_hexdigest key c
  = inr (blake2b_hexdigest (str_utf8 key) (SecureCache._key_salt c)).
Proof.
  intros Hshort. unfold SecureCache._hash_key, SecureCache.blake2b.
  destruct (Nat.ltb_spec SecureCache.SALT_SIZE
              (List.length (SecureCache._key_salt c))); [lia|reflexivity].
Qed.

(** X17.  A [SecureCache] built without a salt (or with an empty one, or
    with one of more than 16 bytes) cannot be used: [__init__] then takes
    [secrets.token_bytes(32)] as the salt, [blake2b] accepts at most 16
    bytes of salt, and so every [get], [set] and [delete], for every key,
    raises [ValueError] before it reads or writes the cache. *)
Theorem secure_cache_without_a_short_salt_is_unusable
        (maxsize : Z) (encrypt_values : bool) (key_salt : option bytes)
        (fernet : option SecureCache.Fernet) (c : SecureCache.t V) :
  (forall n, List.length (token_bytes n) = n) ->
  match key_salt with
  | Some (b :: s) => (16 < List.length (b :: s))%nat
  | _ => True
  end ->
  SecureCache.__init__ token_bytes maxsize encrypt_values key_salt fernet = inr c ->
  forall key : K,
    (forall default, get key default c = inl salt_refused) /\
    (forall value, set key value c = inl salt_refused) /\
    delete key c = inl salt_refused.
Proof.
  intros Hrandom Hsalt Hinit key.
  destruct (init_salt _ _ _ _ _ Hinit) as (_ & _ & Hs).
  assert (Hlong : (SecureCache.SALT_SIZE
                   < List.length (SecureCache._key_salt c))%nat).
  { rewrite Hs. unfold SecureCache.SALT_SIZE.
    destruct key_salt as [[|b s]|]; [|exact Hsalt|]; rewrite Hrandom; lia. }
  pose proof (hash_key_refused key c Hlong) as Hhash.
  unfold SecureCache.get, SecureCache.set, SecureCache.delete.
  rewrite Hhash. repeat split.
Qed.

(** X18.  With a salt that [blake2b] accepts, a value stored under a key
    is read back under every key that has the same [str()]: the key itself,
    and also any other object that prints the same.  This holds with and
    without encryption, given that unpickling undoes pickling and
    decrypting undoes encrypting. *)
Theorem secure_cache_set_then_get
        (c c' : SecureCache.t V) (key key' : K) (value : V) :
  (List.length (SecureCache._key_salt c) <= 16)%nat ->
  (forall v b, pickle_dumps v = Some b -> pickle_loads b = Some v) ->
  (forall f b, SecureCache._cipher c = Some f ->
               SecureCache.decrypt f (SecureCache.encrypt f b) = Some b) ->
  str_utf8 key' = str_utf8 key ->
  set key value c = inr c' ->
  forall default,
    exists c'', get key' default c' = inr (Some (SecureCache.Plain value), c'').
Proof.
  intros Hshort Hpickle Hcipher Hstr Hset default.
  unfold SecureCache.set in Hset.
  rewrite (hash_key_accepted key c Hshort) in Hset.
  set (h := blake2b_hexdigest (str_utf8 key) (SecureCache._key_salt c)) in *.
  set (enc := SecureCache._encrypt_value pickle_dumps value c) in *.
  assert (Hc' : SecureCache._key_salt c' = SecureCache._key_salt c /\
                SecureCache._encrypt_values c' = SecureCache._encrypt_values c /\
                SecureCache._cipher c' = SecureCache._cipher c /\
                getitem String.eqb h (SecureCache._cache c') = Some enc).
  { destruct (contains String.eqb h (SecureCache._cache c)).
    - inversion Hset; subst c'. cbn. repeat split.
      apply (getitem_setitem String.eqb String.eqb_eq).
    - destruct (len (SecureCache._cache c) >=? SecureCache._maxsize c).
      + destruct (LRUCache.popitem_first (SecureCache._cache c)) as [e|[kv d]];
          [discriminate|].
        inversion Hset; subst c'. cbn. repeat split.
        apply (getitem_setitem String.eqb String.eqb_eq).
      + inversion Hset; subst c'. cbn. repeat split.
        apply (getitem_setitem String.eqb String.eqb_eq). }
  destruct Hc' as (Hsalt & Henc & Hciph & Hget).
  unfold SecureCache.get.
  rewrite (hash_key_accepted key' c') by (rewrite Hsalt; exact Hshort).
  rewrite Hstr, Hsalt. fold h. rewrite Hget.
  eexists. f_equal. f_equal. f_equal.
  unfold SecureCache._decrypt_value. rewrite Henc, Hciph.
  subst enc. unfold SecureCache._encrypt_value.
  destruct (SecureCache._encrypt_values c); [|reflexivity].
  destruct (SecureCache._cipher c) as [f|] eqn:Ef; [|reflexivity].
  destruct (pickle_dumps value) as [b|] eqn:Eb; [|reflexivity].
  rewrite (Hcipher f b eq_refl), (Hpickle value b Eb). reflexivity.
Qed.

End SecureCacheFacts.

(** ** The [cache_result] decorator *)

Section DictEntries.

Context {K X : Type}.
Variable K_eqb : K -> K -> bool.
Hypothesis K_eqb_eq : forall a b : K, K_eqb a b = true <-> a = b.

Lemma getitem_In (k : K) (x : X) (d : list (K * X)) :
  getitem K_eqb k d = Some x -> In (k, x) d.
Proof.
  induction d as [|[k' y] d IH]; [discriminate|]. cbn [getitem].
  destruct (K_eqb k k') eqn:E.
  - apply K_eqb_eq in E. subst k'. intros Heq. inversion Heq. now left.
  - intros Heq. right. now apply IH.
Qed.

Lemma In_setitem (k : K) (x : X) (kv : K * X) (d : list (K * X)) :
  In kv (setitem K_eqb k x d) -> kv = (k, x) \/ In kv d.
Proof.
  induction d as [|[k' y] d IH]; cbn [setitem].
  - intros [<-|[]]. now left.
  - destruct (K_eqb k k') eqn:E.
    + apply K_eqb_eq in E. subst k'. intros [<-|Hin]; [now left|right; now right].
    + intros [<-|Hin]; [right; now left|].
      destruct (IH Hin) as [->|Hin']; [now left|right; now right].
Qed.

End DictEntries.

Section CacheResultFacts.

Context {A R : Type}.

Local Abbreviation bytes := (list Byte.byte).

Variable func : A -> Result (option R).
Variable key_of : A -> string.
Variable str_utf8 : string -> bytes.
Variable blake2b_hexdigest : bytes -> bytes -> string.
Variable token_bytes : nat -> bytes.
Variable pickle_dumps : option R -> option bytes.
Variable pickle_loads : bytes -> option (option R).
Variable fernet : option SecureCache.Fernet.

Local Abbreviation get_cached := (cache_get str_utf8 blake2b_hexdigest pickle_loads).
Local Abbreviation set_cached := (cache_set str_utf8 blake2b_hexdigest pickle_dumps).
Local Abbreviation wrapped :=
  (wrapper func key_of str_utf8 blake2b_hexdigest pickle_dumps pickle_loads).
Local Abbreviation wrapped_all :=
  (wrapper_all func key_of str_utf8 blake2b_hexdigest pickle_dumps pickle_loads).

(** An LRU or TTL cache of positive capacity whose entries are results of
    the function on the arguments that have their key. *)
Local Abbreviation sound :=
  (fun fc : FuncCache R =>
     match fc with
     | OfLRUCache c =>
         1 <= LRUCache._maxsize c /\
         forall k v, In (k, v) (LRUCache._cache c) ->
                     forall a, key_of a = k -> func a = inr v
     | OfTTLCache c =>
         1 <= TTLCache._maxsize c /\
         forall k v e, In (k, (v, e)) (TTLCache._cache c) ->
                       forall a, key_of a = k -> func a = inr v
     | OfSecureCache _ => False
     end).

Lemma lru_set_entries (key : string) (value : option R)
      (c : LRUCache.t string (option R)) :
  1 <= LRUCache._maxsize c ->
  exists c',
    LRUCache.set String.eqb key value c = inr c' /\
    LRUCache._maxsize c' = LRUCache._maxsize c /\
    forall kv, In kv (LRUCache._cache c') ->
               kv = (key, value) \/ In kv (LRUCache._cache c).
Proof.
  intros Hmax. unfold LRUCache.set.
  destruct (contains String.eqb key (LRUCache._cache c)).
  - eexists. split; [reflexivity|]. split; [reflexivity|].
    cbn [LRUCache._cache]. intros kv Hin.
    apply (In_setitem String.eqb String.eqb_eq) in Hin as [->|Hin]; [now left|].
    right. now apply (In_delitem String.eqb String.eqb_eq) in Hin.
  - destruct (Z.geb_spec (len (LRUCache._cache c)) (LRUCache._maxsize c)).
    + destruct (LRUCache._cache c) as [|kv0 d] eqn:Ed.
      { unfold len in *. simpl in *. lia. }
      cbn [LRUCache.popitem_first].
      eexists. split; [reflexivity|]. split; [reflexivity|].
      cbn [LRUCache._cache]. intros kv Hin.
      apply (In_setitem String.eqb String.eqb_eq) in Hin as [->|Hin];
        [now left|right; now right].
    + eexists. split; [reflexivity|]. split; [reflexivity|].
      cbn [LRUCache._cache]. intros kv Hin.
      now apply (In_setitem String.eqb String.eqb_eq) in Hin.
Qed.

Lemma ttl_set_entries (key : string) (value : option R) (ttl : option Z)
      (c : TTLCache.t string (option R)) (w : World) :
  1 <= TTLCache._maxsize c ->
  exists c',
    fst (TTLCache.set String.eqb key value ttl c w) = inr c' /\
    TTLCache._maxsize c' = TTLCache._maxsize c /\
    forall k v e, In (k, (v, e)) (TTLCache._cache c') ->
                  (k = key /\ v = value) \/ In (k, (v, e)) (TTLCache._cache c).
Proof.
  intros Hmax. unfold TTLCache.set, bind, time_time.
  destruct ((if len (TTLCache._cache c) >=? TTLCache._maxsize c
             then TTLCache._clean_expired c else ret c) (tick w))
    as [c1 w1] eqn:Eclean.
  assert (H1 : TTLCache._maxsize c1 = TTLCache._maxsize c /\
               forall kv, In kv (TTLCache._cache c1) -> In kv (TTLCache._cache c)).
  { destruct (len (TTLCache._cache c) >=? TTLCache._maxsize c).
    - unfold TTLCache._clean_expired, bind, time_time, ret in Eclean.
      inversion Eclean; subst c1 w1. cbn [TTLCache._maxsize TTLCache._cache].
      split; [reflexivity|]. intros kv Hin. now apply filter_In in Hin.
    - unfold ret in Eclean. inversion Eclean; subst c1 w1. auto. }
  destruct H1 as [Hmax1 Hsub].
  assert (Hstore : forall d x k v e,
             (forall kv, In kv d -> In kv (TTLCache._cache c)) ->
             In (k, (v, e)) (setitem String.eqb key (value, x) d) ->
             (k = key /\ v = value) \/ In (k, (v, e)) (TTLCache._cache c)).
  { intros d x k v e Hd Hin.
    apply (In_setitem String.eqb String.eqb_eq) in Hin as [Heq|Hin].
    - inversion Heq. now left.
    - right. now apply Hd. }
  destruct ((len (TTLCache._cache c1) >=? TTLCache._maxsize c1)
            && negb (contains String.eqb key (TTLCache._cache c1))) eqn:Efull.
  - destruct (TTLCache.earliest_expiry (TTLCache._cache c1))
      as [[oldest e0]|] eqn:Emin.
    + eexists. split; [reflexivity|]. split; [exact Hmax1|].
      cbn [TTLCache._cache]. intros k v e. apply Hstore.
      intros kv Hin. apply Hsub.
      now apply (In_delitem String.eqb String.eqb_eq) in Hin.
    + exfalso. apply andb_prop in Efull as [Hlen _].
      destruct (TTLCache._cache c1) as [|kv d] eqn:Ed.
      * unfold len in Hlen. simpl in Hlen. rewrite Hmax1 in Hlen.
        destruct (Z.geb_spec 0 (TTLCache._maxsize c)); [lia|discriminate].
      * now apply (earliest_expiry_nonempty (kv :: d)).
  - eexists. split; [reflexivity|]. split; [exact Hmax1|].
    cbn [TTLCache._cache]. intros k v e. now apply Hstore.
Qed.

(** A lookup in a sound cache does not raise; what it finds is what the
    function returns on the arguments with that key. *)
Lemma cache_get_sound (key : string) (fc : FuncCache R) (w : World) :
  sound fc ->
  exists result fc1 w1,
    get_cached key fc w = (inr (result, fc1), w1) /\
    sound fc1 /\
    match result with
    | Value r => forall a, key_of a = key -> func a = inr (Some r)
    | RawToken _ => False
    | PyNone => True
    end.
Proof.
  destruct fc as [c|c|c]; [| |intros []]; intros [Hmax Hsound].
  - cbn [cache_get]. unfold ret, LRUCache.get.
    destruct (getitem String.eqb key (LRUCache._cache c)) as [v|] eqn:Eget.
    + apply (getitem_In String.eqb String.eqb_eq) in Eget.
      do 3 eexists. split; [reflexivity|]. cbn [fst snd]. split.
      * split; [exact Hmax|]. cbn [LRUCache._cache]. intros k v' Hin.
        apply (In_setitem String.eqb String.eqb_eq) in Hin as [Heq|Hin].
        -- inversion Heq; subst. now apply Hsound.
        -- apply (In_delitem String.eqb String.eqb_eq) in Hin as [Hin _].
           now apply Hsound.
      * destruct v as [r|]; cbn [of_value]; [|exact I].
        now apply Hsound.
    + do 3 eexists. split; [reflexivity|]. cbn [fst snd]. split; [|exact I].
      split; [exact Hmax|exact Hsound].
  - cbn [cache_get]. unfold bind, ret, TTLCache.get, bind, time_time, ret.
    destruct (getitem String.eqb key (TTLCache._cache c)) as [[v e]|] eqn:Eget.
    + apply (getitem_In String.eqb String.eqb_eq) in Eget.
      destruct (now w <? e).
      * do 3 eexists. split; [reflexivity|]. cbn [fst snd]. split.
        -- split; [exact Hmax|exact Hsound].
        -- destruct v as [r|]; cbn [of_value]; [|exact I].
           now apply (Hsound key (Some r) e).
      * do 3 eexists. split; [reflexivity|]. cbn [fst snd]. split; [|exact I].
        split; [exact Hmax|]. cbn [TTLCache._cache]. intros k v' e' Hin.
        apply (In_delitem String.eqb String.eqb_eq) in Hin as [Hin _].
        now apply (Hsound k v' e').
    + do 3 eexists. split; [reflexivity|]. cbn [fst snd]. split; [|exact I].
      split; [exact Hmax|exact Hsound].
Qed.

(** Storing the result of the function in a sound cache does not raise
    and leaves the cache sound, when no other arguments have the key. *)
Lemma cache_set_sound (ttl : option Z) (args : A) (result : option R)
      (fc : FuncCache R) (w : World) :
  (forall a b, key_of a = key_of b -> a = b) ->
  func args = inr result ->
  sound fc ->
  exists fc2 w2,
    set_cached ttl (key_of args) result fc w = (inr fc2, w2) /\ sound fc2.
Proof.
  intros Hinj Hfunc.
  destruct fc as [c|c|c]; [| |intros []]; intros [Hmax Hsound].
  - cbn [cache_set]. unfold ret.
    destruct (lru_set_entries (key_of args) result c Hmax)
      as (c' & Hset & Hmax' & Hin).
    rewrite Hset. do 2 eexists. split; [reflexivity|].
    split; [lia|]. intros k v Hkv.
    destruct (Hin _ Hkv) as [Heq|Hold]; [|now apply (Hsound k v)].
    inversion Heq; subst k v. intros a Ha. now rewrite (Hinj _ _ Ha).
  - cbn [cache_set]. unfold bind, ret.
    destruct (ttl_set_entries (key_of args) result ttl c w Hmax)
      as (c' & Hset & Hmax' & Hin).
    destruct (TTLCache.set String.eqb (key_of args) result ttl c w) as [r w2].
    cbn [fst] in Hset. subst r. do 2 eexists. split; [reflexivity|].
    split; [lia|]. intros k v e Hkv.
    destruct (Hin _ _ _ Hkv) as [[-> ->]|Hold]; [|now apply (Hsound k v e)].
    intros a Ha. now rewrite (Hinj _ _ Ha).
Qed.

(** One call of the wrapper on a sound cache. *)
Lemma wrapper_sound (ttl : option Z) (args : A) (s : Wrapped A R) (w : World) :
  (forall a b, key_of a = key_of b -> a = b) ->
  sound (func_cache s) ->
  let r := wrapped ttl args s w in
  fst (fst r) = undecorated func args /\
  sound (func_cache (snd (fst r))) /\
  (func_calls (snd (fst r)) = func_calls s /\ not_kept func args = false \/
   func_calls (snd (fst r)) = func_calls s ++ [args]).
Proof.
  intros Hinj Hsound. cbn zeta. unfold wrapper, bind.
  destruct (cache_get_sound (key_of args) (func_cache s) w Hsound)
    as (result & fc1 & w1 & Hget & Hsound1 & Hresult).
  rewrite Hget. unfold undecorated, not_kept.
  destruct result as [r|token|]; cbn [is_not_None]; [| destruct Hresult |].
  - rewrite (Hresult args eq_refl). unfold ret. cbn [fst snd func_cache func_calls].
    auto.
  - destruct (func args) as [e|result] eqn:Hfunc.
    + unfold ret. cbn [fst snd func_cache func_calls]. auto.
    + destruct (cache_set_sound ttl args result fc1 w1 Hinj Hfunc Hsound1)
        as (fc2 & w2 & Hset & Hsound2).
      rewrite Hset. unfold ret. cbn [fst snd func_cache func_calls]. auto.
Qed.

Lemma wrapper_all_sound (ttl : option Z) (calls : list A) :
  (forall a b, key_of a = key_of b -> a = b) ->
  forall (s : Wrapped A R) (w : World),
    sound (func_cache s) ->
    let r := wrapped_all ttl calls s w in
    fst (fst r) = map (undecorated func) calls /\
    filter (not_kept func) (func_calls (snd (fst r)))
    = filter (not_kept func) (func_calls s) ++ filter (not_kept func) calls /\
    (List.length (func_calls (snd (fst r)))
     <= List.length (func_calls s) + List.length calls)%nat.
Proof.
  intros Hinj. induction calls as [|args calls IH]; intros s w Hsound.
  - cbn. rewrite app_nil_r. repeat split; lia.
  - cbn zeta. cbn [wrapper_all]. unfold bind.
    pose proof (wrapper_sound ttl args s w Hinj Hsound) as Hstep.
    cbn zeta in Hstep.
    destruct (wrapped ttl args s w) as [[res s1] w1]. cbn [fst snd] in Hstep |- *.
    destruct Hstep as (Hres & Hsound1 & Hcalls).
    specialize (IH s1 w1 Hsound1). cbn zeta in IH.
    destruct (wrapped_all ttl calls s1 w1) as [[rs s2] w2].
    cbn [fst snd] in IH |- *. unfold ret. cbn [fst snd].
    destruct IH as (Hrs & Hfilter & Hlen).
    split; [cbn [map]; now rewrite Hres, Hrs|].
    cbn [filter List.length].
    destruct Hcalls as [[Hsame Hkept]|Hcalled].
    + rewrite Hkept. rewrite Hsame in Hfilter, Hlen. split; [exact Hfilter|lia].
    + rewrite Hcalled in Hfilter, Hlen.
      rewrite filter_app, length_app in *. cbn [filter List.length] in *.
      destruct (not_kept func args).
      * rewrite <- app_assoc in Hfilter. split; [exact Hfilter|lia].
      * rewrite app_nil_r in Hfilter. split; [exact Hfilter|lia].
Qed.

(** X19.  A function decorated with [cache_result] under the LRU, FIFO
    or TTL strategy returns, on every call of every sequence of calls,
    what the function itself returns or raises on those arguments,
    provided that different arguments have different keys (and the
    function depends on its arguments only).  The function is called at
    most once per call of the wrapper, and it is called on every call on
    which it raises or returns [None]: a [None] result is stored but never
    served from the cache. *)
Theorem memoized_calls_return_what_the_function_returns
        (maxsize : Z) (ttl : option Z) (strategy : CacheStrategy)
        (fc0 : FuncCache R) (calls : list A) (w : World) :
  (forall a b, key_of a = key_of b -> a = b) ->
  strategy <> SECURE ->
  decorator token_bytes fernet maxsize ttl strategy = inr fc0 ->
  let r := wrapped_all ttl calls (mkWrapped fc0 []) w in
  fst (fst r) = map (undecorated func) calls /\
  filter (not_kept func) (func_calls (snd (fst r)))
    = filter (not_kept func) calls /\
  (List.length (func_calls (snd (fst r))) <= List.length calls)%nat.
Proof.
  intros Hinj Hstrategy Hdecorated.
  assert (Hsound : sound fc0).
  { unfold decorator, LRUCache.__init__, TTLCache.__init__ in Hdecorated.
    destruct strategy; [| | |congruence];
      destruct (Z.leb_spec maxsize 0); try discriminate;
      try (inversion Hdecorated; subst fc0; cbn; split; [lia|intros k v []]).
    destruct (_ <=? 0); [discriminate|].
    inversion Hdecorated; subst fc0. cbn. split; [lia|intros k v e []]. }
  exact (wrapper_all_sound ttl calls Hinj (mkWrapped fc0 []) w Hsound).
Qed.

(** X20.  Under the SECURE strategy the decorator builds
    [SecureCache(maxsize=maxsize)], whose salt is 32 random bytes; every
    call of the wrapper then raises [ValueError] at the lookup, and the
    decorated function is never called. *)
Theorem secure_strategy_raises_on_every_call
        (maxsize : Z) (ttl : option Z) (fc0 : FuncCache R)
        (calls : list A) (w : World) :
  (forall n, List.length (token_bytes n) = n) ->
  decorator token_bytes fernet maxsize ttl SECURE = inr fc0 ->
  let r := wrapped_all ttl calls (mkWrapped fc0 []) w in
  Forall (fun x => x = inl (mkException ValueError "maximum salt length is 16 bytes"))
         (fst (fst r)) /\
  List.length (fst (fst r)) = List.length calls /\
  func_calls (snd (fst r)) = [].
Proof.
  intros Hrandom Hdecorated. cbn [decorator] in Hdecorated.
  destruct (SecureCache.__init__ token_bytes maxsize true None fernet)
    as [e|c] eqn:Hinit; [discriminate|].
  inversion Hdecorated; subst fc0.
  destruct (init_salt token_bytes _ _ _ _ _ Hinit) as (_ & _ & Hsalt).
  assert (Hlong : (SecureCache.SALT_SIZE
                   < List.length (SecureCache._key_salt c))%nat).
  { rewrite Hsalt, Hrandom. unfold SecureCache.SALT_SIZE. lia. }
  assert (Hstep : forall args,
             wrapped ttl args (mkWrapped (OfSecureCache c) []) w
             = (inl (mkException ValueError "maximum salt length is 16 bytes"),
                mkWrapped (OfSecureCache c) [], w)).
  { intros args. unfold wrapper, bind. cbn [func_cache cache_get].
    unfold SecureCache.get.
    now rewrite (hash_key_refused str_utf8 blake2b_hexdigest (key_of args) c Hlong). }
  cbn zeta. induction calls as [|args calls IH]; [cbn; auto|].
  cbn [wrapper_all]. unfold bind. rewrite Hstep. cbn [fst snd].
  destruct IH as (Hall & Hlen & Hcalls).
  destruct (wrapped_all ttl calls (mkWrapped (OfSecureCache c) []) w)
    as [[rs s2] w2].
  cbn [fst snd] in *. unfold ret. cbn [fst snd List.length].
  split; [now constructor|]. split; [now rewrite Hlen|exact Hcalls].
Qed.

End CacheResultFacts.

Lemma zero_bytes_length (n : nat) : List.length (zero_bytes n) = n.
Proof. apply repeat_length. Qed.

Lemma append_cancel_r (a b c : string) :
  (a ++ c = b ++ c)%string -> a = b.
Proof.
  revert b. induction a as [|x a IH]; intros [|y b] H; cbn [String.append] in H.
  - reflexivity.
  - apply (f_equal String.length) in H. cbn [String.length] in H.
    rewrite length_append in H. lia.
  - apply (f_equal String.length) in H. cbn [String.length] in H.
    rewrite length_append in H. lia.
  - inversion H; subst. f_equal. now apply IH.
Qed.

Lemma text_call_key_inj (a b : string) :
  text_call_key a = text_call_key b -> a = b.
Proof.
  unfold text_call_key. cbn [String.append]. intros H. inversion H.
  now apply append_cancel_r with (c := "',)[]").
Qed.

Lemma secure_cache_without_a_short_salt_is_unusable_witness :
  exists c : SecureCache.t Z,
    SecureCache.__init__ zero_bytes 2 true None None = inr c /\
    SecureCache.set scenario_utf8 scenario_digest no_pickle "a" 1 c
    = inl (mkException ValueError "maximum salt length is 16 bytes").
Proof.
  eexists. split; [reflexivity|].
  apply (secure_cache_without_a_short_salt_is_unusable scenario_utf8
           scenario_digest zero_bytes no_pickle no_unpickle 2 true None None _
           zero_bytes_length I eq_refl "a").
Defined.

Lemma secure_cache_set_then_get_witness :
  exists c c' c'' : SecureCache.t Z,
    SecureCache.__init__ zero_bytes 2 false (Some [Byte.x01]) None = inr c /\
    SecureCache.set scenario_utf8 scenario_digest no_pickle "a" 1 c = inr c' /\
    SecureCache.get scenario_utf8 scenario_digest no_unpickle "a" None c'
    = inr (Some (SecureCache.Plain 1), c'').
Proof.
  eexists. eexists.
  destruct (secure_cache_set_then_get scenario_utf8 scenario_digest no_pickle
              no_unpickle
              (SecureCache.mk 2 false [Byte.x01] [] (new_stats 2) None) _
              "a" "a" 1 ltac:(simpl; lia) ltac:(discriminate)
              ltac:(discriminate) eq_refl eq_refl None) as (c'' & Hget).
  exists c''. split; [reflexivity|]. split; [reflexivity|exact Hget].
Defined.

Lemma memoized_calls_return_what_the_function_returns_witness :
  fst (fst (wrapper_all text_size text_call_key scenario_utf8 scenario_digest
              no_pickle no_unpickle None ["ab"; ""; "ab"; ""]
              (mkWrapped (OfLRUCache (LRUCache.mk 2 [] (new_stats 2))) [])
              (world_at 100 healthy)))
  = [inr (Value 2); inr PyNone; inr (Value 2); inr PyNone] /\
  func_calls
    (snd (fst (wrapper_all text_size text_call_key scenario_utf8 scenario_digest
                 no_pickle no_unpickle None ["ab"; ""; "ab"; ""]
                 (mkWrapped (OfLRUCache (LRUCache.mk 2 [] (new_stats 2))) [])
                 (world_at 100 healthy))))
  = ["ab"; ""; ""].
Proof.
  split.
  - exact (proj1 (memoized_calls_return_what_the_function_returns text_size
                    text_call_key scenario_utf8 scenario_digest zero_bytes
                    no_pickle no_unpickle None 2 None LRU _ ["ab"; ""; "ab"; ""]
                    (world_at 100 healthy) text_call_key_inj
                    ltac:(discriminate) eq_refl)).
  - vm_compute. reflexivity.
Defined.

Lemma secure_strategy_raises_on_every_call_witness :
  exists fc0 : FuncCache Z,
    decorator zero_bytes None 2 None SECURE = inr fc0 /\
    func_calls
      (snd (fst (wrapper_all text_size text_call_key scenario_utf8
                   scenario_digest no_pickle no_unpickle None ["ab"; ""; "ab"]
                   (mkWrapped fc0 []) (world_at 100 healthy))))
    = [].
Proof.
  eexists. split; [reflexivity|].
  apply (secure_strategy_raises_on_every_call text_size text_call_key
           scenario_utf8 scenario_digest zero_bytes no_pickle no_unpickle None
           2 None _ ["ab"; ""; "ab"] (world_at 100 healthy)
           zero_bytes_length eq_refl).
Defined.

(** ** The client: what the performance counters count *)

Section Counters.

Variable _IMPORTS_AVAILABLE : bool.
Variable Data : Type.
Variable truthy : Data -> bool.
Variable json_dumps : bool -> Data -> Result string.
Variable json_loads : string -> option Data.
Variable sha256_hexdigest : string -> string.

Import ExternalAPIClient.

Local Abbreviation client := (ExternalAPIClient.t Data).
Local Abbreviation counters :=
  (fun self : client =>
     (call_count self, total_response_time self, error_count self)).
Local Abbreviation try_block :=
  (call_api_try _IMPORTS_AVAILABLE truthy json_dumps json_loads sha256_hexdigest).
Local Abbreviation call :=
  (call_api _IMPORTS_AVAILABLE truthy json_dumps json_loads sha256_hexdigest).

Lemma gate_counters (self : client) (w : World) :
  counters (fst (snd (check_circuit_breaker (self, w)))) = counters self.
Proof.
  destruct (circuit_breaker self) as [cb|] eqn:E.
  - now rewrite (check_circuit_breaker_present Data self w cb E).
  - now rewrite (check_circuit_breaker_absent Data self w E).
Qed.

Lemma limit_counters (self : client) (w : World) :
  counters (fst (snd (check_rate_limit _IMPORTS_AVAILABLE (self, w))))
  = counters self.
Proof.
  destruct _IMPORTS_AVAILABLE eqn:E.
  - pose proof (check_rate_limit_on true Data self w eq_refl) as H.
    now rewrite H.
  - pose proof (check_rate_limit_off false Data self w eq_refl) as H.
    now rewrite H.
Qed.

Lemma lookup_counters (key : string) (self : client) (w : World) :
  counters (fst (snd (lookup_cache _IMPORTS_AVAILABLE key (self, w))))
  = counters self.
Proof.
  destruct _IMPORTS_AVAILABLE eqn:E.
  - pose proof (lookup_cache_on true Data self w key eq_refl) as H.
    now rewrite H.
  - pose proof (lookup_cache_off false Data self w key eq_refl) as H.
    now rewrite H.
Qed.

(** The [try] block counts a call exactly when it returns a response that
    does not come from the cache, which happens only without the imports;
    it never counts an error. *)
Lemma try_block_counters (start_time : Z) (endpoint method : string)
      (payload : option Data) (headers : option (list (string * string)))
      (self : client) (w : World) :
  let t := try_block start_time endpoint method payload headers (self, w) in
  match fst t with
  | inl _ => counters (fst (snd t)) = counters self
  | inr resp =>
      if cached resp
      then counters (fst (snd t)) = counters self
      else _IMPORTS_AVAILABLE = false /\ success resp = true /\
           counters (fst (snd t))
           = (call_count self + 1,
              total_response_time self + response_time_ms resp,
              error_count self)
  end.
Proof.
  cbn zeta.
  destruct (check_circuit_breaker (self, w)) as [[e0|[]] [self1 w1]] eqn:H0;
    pose proof (gate_counters self w) as C0; rewrite H0 in C0;
    cbn [fst snd] in C0.
  { unfold call_api_try, bindE. rewrite H0. exact C0. }
  destruct (check_rate_limit _IMPORTS_AVAILABLE (self1, w1))
    as [[e1|[]] [self2 w2]] eqn:H1;
    pose proof (limit_counters self1 w1) as C1; rewrite H1 in C1;
    cbn [fst snd] in C1.
  { unfold call_api_try, bindE. rewrite H0, H1. cbn [fst snd]. congruence. }
  destruct (_generate_cache_key truthy json_dumps sha256_hexdigest
              endpoint method payload) as [ek|key] eqn:Hk.
  { unfold call_api_try, bindE, of_result. rewrite H0, H1, Hk.
    cbn [fst snd]. congruence. }
  destruct (lookup_cache _IMPORTS_AVAILABLE key (self2, w2))
    as [[e2|[hit|]] [self3 w3]] eqn:H2;
    pose proof (lookup_counters key self2 w2) as C2; rewrite H2 in C2;
    cbn [fst snd] in C2.
  - unfold call_api_try, bindE, of_result. rewrite H0, H1, Hk, H2.
    cbn [fst snd]. congruence.
  - unfold call_api_try, bindE, of_result. rewrite H0, H1, Hk, H2.
    rewrite return_cached_spec. cbn [fst snd mark_cached cached].
    cbn [with_response_cache call_count total_response_time error_count].
    congruence.
  - destruct (_execute_with_retry truthy json_dumps json_loads
                endpoint method payload headers (self3, w3))
      as [[e3|d3] [self4 w4]] eqn:H3;
      pose proof (execute_frame Data truthy json_dumps json_loads
                    endpoint method payload headers self3 w3) as F3;
      cbn zeta in F3; rewrite H3 in F3; cbn [fst snd] in F3;
      destruct F3 as (F3 & _); subst self4.
    + unfold call_api_try, bindE, of_result. rewrite H0, H1, Hk, H2, H3.
      cbn [fst snd]. congruence.
    + unfold call_api_try, bindE, of_result. rewrite H0, H1, Hk, H2, H3.
      unfold lift, time_time. rewrite on_breaker_spec.
      destruct _IMPORTS_AVAILABLE eqn:Eflag;
        destruct (circuit_breaker self3) as [cb|]; unfold get_self;
        rewrite ?(store_response_raises true Data _ _ _ _ eq_refl),
                ?(store_response_off false Data _ _ _ _ eq_refl);
        cbn [fst snd modify_self pure cached success response_time_ms
             count_call with_circuit_breaker call_count total_response_time
             error_count];
        try congruence;
        (split; [reflexivity|split; [reflexivity|congruence]]).
Qed.

(** One call, by the kind of response it returns. *)
Lemma call_counters (endpoint method : string) (payload : option Data)
      (headers : option (list (string * string))) (self : client) (w : World) :
  let r := call endpoint method payload headers (self, w) in
  exists resp,
    fst r = inr resp /\
    (cached resp = true /\ counters (fst (snd r)) = counters self \/
     cached resp = false /\ success resp = true /\ _IMPORTS_AVAILABLE = false /\
     counters (fst (snd r))
     = (call_count self + 1, total_response_time self + response_time_ms resp,
        error_count self) \/
     cached resp = false /\ success resp = false /\
     counters (fst (snd r))
     = (call_count self, total_response_time self, error_count self + 1)).
Proof.
  cbn zeta.
  pose proof (try_block_counters (now w) endpoint method payload headers
                self (tick w)) as Htry. cbn zeta in Htry.
  rewrite call_api_unfold.
  destruct (try_block (now w) endpoint method payload headers (self, tick w))
    as [[e|resp] [self1 w1]]; cbn [fst snd] in Htry |- *.
  - rewrite call_api_except_spec, on_breaker_spec.
    eexists. split; [reflexivity|]. right. right.
    cbn [cached success]. split; [reflexivity|]. split; [reflexivity|].
    destruct (circuit_breaker self1) as [cb|];
      cbn [fst snd count_error with_circuit_breaker call_count
           total_response_time error_count];
      congruence.
  - exists resp. split; [reflexivity|].
    destruct (cached resp); [left; auto|].
    right. left. destruct Htry as (Hflag & Hsuccess & Hcount). auto.
Qed.

(** X21.  The performance counters account for every call.  After any
    sequence of calls, [call_count] has grown by the number of success
    responses that did not come from the cache, [total_response_time] by
    the sum of their response times, and [error_count] by the number of
    failure responses built by the call; a response served from the cache
    changes no counter, and no call raises.  With the imports available no
    call is ever counted: [call_count] and [total_response_time] stay what
    they were. *)
Theorem counters_account_for_every_call
        (rqs : list (Request Data)) (self : client) (w : World) :
  let r := call_api_all _IMPORTS_AVAILABLE truthy json_dumps json_loads
             sha256_hexdigest rqs (self, w) in
  let results := fst r in
  let self' := fst (snd r) in
  Forall (fun x => exists resp, x = inr resp) results /\
  call_count self'
    = call_count self + Z.of_nat (List.length (filter fresh_success results)) /\
  total_response_time self'
    = total_response_time self
      + fold_right Z.add 0 (map response_time_of (filter fresh_success results)) /\
  error_count self'
    = error_count self + Z.of_nat (List.length (filter fresh_failure results)) /\
  (_IMPORTS_AVAILABLE = true ->
   call_count self' = call_count self /\
   total_response_time self' = total_response_time self).
Proof.
  cbn zeta. revert self w. induction rqs as [|rq rqs IH]; intros self w.
  - cbn. split; [constructor|]. repeat split; lia.
  - cbn [call_api_all].
    pose proof (call_counters (request_endpoint rq) (request_method rq)
                  (request_data rq) (request_headers rq) self w) as Hcall.
    cbn zeta in Hcall.
    destruct (call (request_endpoint rq) (request_method rq) (request_data rq)
                (request_headers rq) (self, w)) as [res [self1 w1]].
    cbn [fst snd] in Hcall. destruct Hcall as (resp & -> & Hkind).
    specialize (IH self1 w1).
    destruct (call_api_all _IMPORTS_AVAILABLE truthy json_dumps json_loads
                sha256_hexdigest rqs (self1, w1)) as [rs [self2 w2]].
    cbn [fst snd] in IH |- *.
    destruct IH as (Hall & Hcalls & Htotal & Herrors & Hon).
    split; [constructor; eauto|].
    cbn [filter fresh_success fresh_failure].
    destruct Hkind as [[Hc Hk]|[(Hc & Hs & Hflag & Hk)|(Hc & Hs & Hk)]];
      rewrite Hc, ?Hs; cbn [negb andb List.length map fold_right response_time_of];
      inversion Hk as [[Hk1 Hk2 Hk3]];
      (split; [lia|split; [lia|split; [lia|]]]);
      intros Hflag'; try congruence;
      destruct (Hon Hflag'); split; lia.
Qed.

End Counters.

(** ** The client with the imports available: a breaker that has opened *)

Section NeverClosesAgain.

Variable Data : Type.
Variable truthy : Data -> bool.
Variable json_dumps : bool -> Data -> Result string.
Variable json_loads : string -> option Data.
Variable sha256_hexdigest : string -> string.

Import ExternalAPIClient.

Local Abbreviation client := (ExternalAPIClient.t Data).
Local Abbreviation try_block :=
  (call_api_try true truthy json_dumps json_loads sha256_hexdigest).
Local Abbreviation call :=
  (call_api true truthy json_dumps json_loads sha256_hexdigest).

(** The breaker the [try] block leaves: the one [can_execute] left, with
    a success recorded on it if the call got as far as an answer. *)
Lemma try_block_breaker (start_time : Z) (endpoint method : string)
      (payload : option Data) (headers : option (list (string * string)))
      (self : client) (w : World) (cb : CircuitBreaker.t) :
  circuit_breaker self = Some cb ->
  let t := try_block start_time endpoint method payload headers (self, w) in
  let gate := CircuitBreaker.can_execute cb w in
  let cb1 := snd (fst gate) in
  match fst t with
  | inr _ => fst (fst gate) = true /\ circuit_breaker (fst (snd t)) = Some cb1
  | inl _ =>
      circuit_breaker (fst (snd t)) = Some cb1 \/
      fst (fst gate) = true /\
      exists w', circuit_breaker (fst (snd t))
                 = Some (fst (CircuitBreaker.record_success cb1 w'))
  end.
Proof.
  intros Hcb. cbn zeta.
  pose proof (check_circuit_breaker_present Data self w cb Hcb) as H0.
  destruct (CircuitBreaker.can_execute cb w) as [[ok cb1] w1] eqn:Egate.
  cbn [fst snd] in *.
  destruct ok.
  2: { unfold call_api_try, bindE. rewrite H0. cbn [fst snd]. now left. }
  destruct (check_rate_limit true (with_circuit_breaker (Some cb1) self, w1))
    as [[e1|[]] [self2 w2]] eqn:H1;
    pose proof (check_rate_limit_frame true Data
                  (with_circuit_breaker (Some cb1) self) w1) as F1;
    cbn zeta in F1; rewrite H1 in F1; cbn [fst snd] in F1;
    destruct F1 as (F1 & _); cbn [with_circuit_breaker circuit_breaker] in F1.
  { unfold call_api_try, bindE. rewrite H0, H1. cbn [fst snd]. now left. }
  destruct (_generate_cache_key truthy json_dumps sha256_hexdigest
              endpoint method payload) as [ek|key] eqn:Hk.
  { unfold call_api_try, bindE, of_result. rewrite H0, H1, Hk.
    cbn [fst snd]. now left. }
  destruct (lookup_cache true key (self2, w2))
    as [[e2|[hit|]] [self3 w3]] eqn:H2;
    pose proof (lookup_cache_frame true Data self2 w2 key) as F2;
    cbn zeta in F2; rewrite H2 in F2; cbn [fst snd] in F2;
    destruct F2 as (F2 & _); rewrite F1 in F2.
  - unfold call_api_try, bindE, of_result. rewrite H0, H1, Hk, H2.
    cbn [fst snd]. now left.
  - unfold call_api_try, bindE, of_result. rewrite H0, H1, Hk, H2.
    rewrite return_cached_spec. cbn [fst snd with_response_cache circuit_breaker].
    split; [reflexivity|exact F2].
  - destruct (_execute_with_retry truthy json_dumps json_loads
                endpoint method payload headers (self3, w3))
      as [[e3|d3] [self4 w4]] eqn:H3;
      pose proof (execute_frame Data truthy json_dumps json_loads
                    endpoint method payload headers self3 w3) as F3;
      cbn zeta in F3; rewrite H3 in F3; cbn [fst snd] in F3;
      destruct F3 as (F3 & _); subst self4.
    + unfold call_api_try, bindE, of_result. rewrite H0, H1, Hk, H2, H3.
      cbn [fst snd]. now left.
    + unfold call_api_try, bindE, of_result. rewrite H0, H1, Hk, H2, H3.
      unfold lift, time_time. rewrite on_breaker_spec, F2. unfold get_self.
      rewrite (store_response_raises true Data _ _ _ _ eq_refl).
      cbn [fst snd with_circuit_breaker circuit_breaker].
      right. split; [reflexivity|]. eexists. reflexivity.
Qed.

(** A breaker that is open, or half-open with no success counted. *)
Local Abbreviation tripped :=
  (fun cb : CircuitBreaker.t =>
     CircuitBreaker.state cb = OPEN \/
     CircuitBreaker.state cb = HALF_OPEN /\ CircuitBreaker.success_count cb = 0).

Lemma can_execute_tripped (cb : CircuitBreaker.t) (w : World) :
  tripped cb ->
  let gate := CircuitBreaker.can_execute cb w in
  CircuitBreaker.config (snd (fst gate)) = CircuitBreaker.config cb /\
  tripped (snd (fst gate)) /\
  (fst (fst gate) = true ->
   CircuitBreaker.state (snd (fst gate)) = HALF_OPEN /\
   CircuitBreaker.success_count (snd (fst gate)) = 0).
Proof.
  intros [Hopen|[Hhalf Hcount]]; cbn zeta.
  - destruct (Z_lt_le_dec (now w - CircuitBreaker.last_failure_time cb)
                (recovery_timeout (CircuitBreaker.config cb))).
    + rewrite can_execute_open_blocked by assumption. cbn [fst snd].
      split; [reflexivity|]. split; [now left|discriminate].
    + rewrite can_execute_open_recovered by assumption.
      cbn [fst snd CircuitBreaker.config CircuitBreaker.state
           CircuitBreaker.success_count].
      split; [reflexivity|]. split; [right|]; auto.
  - rewrite can_execute_half_open by assumption. cbn [fst snd].
    split; [reflexivity|]. split; [right|]; auto.
Qed.

Lemma record_failure_tripped (cb : CircuitBreaker.t) (w : World) :
  CircuitBreaker.state cb <> CLOSED ->
  CircuitBreaker.config (fst (CircuitBreaker.record_failure cb w))
    = CircuitBreaker.config cb /\
  CircuitBreaker.state (fst (CircuitBreaker.record_failure cb w)) = OPEN.
Proof.
  intros Hstate. destruct (CircuitBreaker.state cb) eqn:E; [congruence| |].
  - rewrite record_failure_open by exact E. split; reflexivity.
  - rewrite record_failure_half_open by exact E. split; reflexivity.
Qed.

(** One call keeps a tripped breaker tripped. *)
Lemma call_keeps_tripped (endpoint method : string) (payload : option Data)
      (headers : option (list (string * string)))
      (self : client) (w : World) (cb : CircuitBreaker.t) :
  circuit_breaker self = Some cb ->
  tripped cb ->
  2 <= success_threshold (CircuitBreaker.config cb) ->
  exists cb',
    circuit_breaker (fst (snd (call endpoint method payload headers (self, w))))
      = Some cb' /\
    tripped cb' /\
    CircuitBreaker.config cb' = CircuitBreaker.config cb.
Proof.
  intros Hcb Htripped Hthreshold.
  pose proof (try_block_breaker (now w) endpoint method payload headers
                self (tick w) cb Hcb) as Htry. cbn zeta in Htry.
  destruct (can_execute_tripped cb (tick w) Htripped) as (Hconfig & Hgate & Hpass).
  cbn zeta in Hconfig, Hgate, Hpass.
  rewrite call_api_unfold.
  destruct (try_block (now w) endpoint method payload headers (self, tick w))
    as [[e|resp] [self1 w1]]; cbn [fst snd] in Htry |- *.
  - rewrite call_api_except_spec, on_breaker_spec.
    destruct Htry as [Hsame|(Hok & w' & Hrecorded)].
    + rewrite Hsame. cbn [fst snd count_error with_circuit_breaker circuit_breaker].
      eexists. split; [reflexivity|].
      destruct (record_failure_tripped
                  (snd (fst (CircuitBreaker.can_execute cb (tick w)))) w1)
        as [Hc Hs].
      { destruct Hgate as [->|[-> _]]; discriminate. }
      split; [now left|congruence].
    + rewrite Hrecorded.
      cbn [fst snd count_error with_circuit_breaker circuit_breaker].
      eexists. split; [reflexivity|].
      destruct (Hpass Hok) as [Hhalf Hzero].
      rewrite record_success_half_open_below
        by (try exact Hhalf; rewrite Hzero, Hconfig; lia).
      cbn [fst]. rewrite record_failure_half_open by reflexivity.
      cbn [fst CircuitBreaker.state CircuitBreaker.config].
      split; [now left|exact Hconfig].
  - destruct Htry as [Hok Hsame]. rewrite Hsame.
    eexists. split; [reflexivity|]. split; [|exact Hconfig].
    right. now apply Hpass.
Qed.

(** X22.  With the imports available, a breaker that has opened never
    closes again, whatever the service answers, as long as two or more
    successes are needed to close it (three by default): a probe that is
    let through and answered has its success recorded and then its failure,
    because storing the response raises, and the failure reopens the
    breaker.  After any sequence of calls the breaker is open, or half-open
    with no success counted. *)
Theorem opened_breaker_never_closes_again
        (rqs : list (Request Data)) (self : client) (w : World)
        (cb : CircuitBreaker.t) :
  circuit_breaker self = Some cb ->
  CircuitBreaker.state cb = OPEN ->
  2 <= success_threshold (CircuitBreaker.config cb) ->
  let r := call_api_all true truthy json_dumps json_loads sha256_hexdigest
             rqs (self, w) in
  exists cb',
    circuit_breaker (fst (snd r)) = Some cb' /\
    CircuitBreaker.state cb' <> CLOSED /\
    (CircuitBreaker.state cb' = HALF_OPEN -> CircuitBreaker.success_count cb' = 0).
Proof.
  intros Hcb Hopen Hthreshold. cbn zeta.
  assert (Htripped : tripped cb) by now left. clear Hopen.
  revert self w cb Hcb Htripped Hthreshold.
  induction rqs as [|rq rqs IH]; intros self w cb Hcb Htripped Hthreshold.
  - exists cb. cbn [call_api_all fst snd]. split; [exact Hcb|].
    destruct Htripped as [->|[-> Hzero]]; split; congruence.
  - cbn [call_api_all].
    destruct (call_keeps_tripped (request_endpoint rq) (request_method rq)
                (request_data rq) (request_headers rq) self w cb
                Hcb Htripped Hthreshold) as (cb1 & Hcb1 & Htripped1 & Hconfig1).
    destruct (call (request_endpoint rq) (request_method rq) (request_data rq)
                (request_headers rq) (self, w)) as [res [self1 w1]].
    cbn [fst snd] in Hcb1.
    destruct (IH self1 w1 cb1 Hcb1 Htripped1 ltac:(rewrite Hconfig1; exact Hthreshold))
      as (cb' & Hcb' & Hstate).
    destruct (call_api_all true truthy json_dumps json_loads sha256_hexdigest
                rqs (self1, w1)) as [rs [self2 w2]].
    cbn [fst snd] in *. exists cb'. split; [exact Hcb'|exact Hstate].
Qed.

End NeverClosesAgain.

Lemma opened_breaker_never_closes_again_witness :
  exists cb' : CircuitBreaker.t,
    ExternalAPIClient.circuit_breaker
      (fst (snd (ExternalAPIClient.call_api_all true text_truthy text_dumps
                   text_loads plain_digest
                   (repeat (ExternalAPIClient.mkRequest "health" "GET" None None) 100)
                   (fst tripped_client, snd tripped_client)))) = Some cb' /\
    CircuitBreaker.state cb' <> CLOSED.
Proof.
  destruct (opened_breaker_never_closes_again string text_truthy text_dumps
              text_loads plain_digest
              (repeat (ExternalAPIClient.mkRequest "health" "GET" None None) 100)
              (fst tripped_client) (snd tripped_client)
              (CircuitBreaker.mk default_breaker_config OPEN 5 0 125 126))
    as (cb' & Hcb' & Hstate & _).
  - vm_compute; reflexivity.
  - reflexivity.
  - vm_compute; discriminate.
  - exists cb'. split; [exact Hcb'|exact Hstate].
Defined.

(** ** The Onfido client: the applicant of a request *)

Section Applicant.

Variable _IMPORTS_AVAILABLE : bool.
Variable Value : Type.
Variable json_dumps : bool -> list (string * Value) -> Result string.
Variable json_loads : string -> option (list (string * Value)).
Variable sha256_hexdigest : string -> string.

Import OnfidoClient.

Local Abbreviation Payload := (list (string * Value)).
Local Abbreviation unpack :=
  (fold_left (fun (d : Payload) kv => setitem String.eqb (fst kv) (snd kv) d)).

(** Unpacking a dictionary over another keeps its keys and sets theirs. *)
Lemma unpack_contains (data d : Payload) (k : string) :
  contains String.eqb k (unpack data d)
  = contains String.eqb k d || contains String.eqb k data.
Proof.
  revert d. induction data as [|[k' x] data IH]; intros d; cbn [fold_left].
  - now rewrite orb_false_r.
  - rewrite IH. cbn [fst snd contains existsb].
    rewrite (contains_setitem String.eqb String.eqb_eq).
    fold (contains String.eqb k data).
    destruct (String.eqb k k'), (contains String.eqb k d); reflexivity.
Qed.

Lemma unpack_getitem_absent (data d : Payload) (k : string) :
  contains String.eqb k data = false ->
  getitem String.eqb k (unpack data d) = getitem String.eqb k d.
Proof.
  revert d. induction data as [|[k' x] data IH]; intros d; cbn [fold_left];
    [reflexivity|].
  cbn [contains existsb fst snd]. intros H. apply orb_false_elim in H as [Hk Hrest].
  rewrite (IH _ Hrest).
  apply (getitem_setitem_other String.eqb String.eqb_eq).
  intros ->. now rewrite String.eqb_refl in Hk.
Qed.

(** Two dictionaries that differ in the value of one key are the same
    once that key has been set. *)
Lemma setitem_forgets (k : string) (x y z : Value) (front back : Payload) :
  contains String.eqb k front = false ->
  setitem String.eqb k z (front ++ (k, x) :: back)
  = setitem String.eqb k z (front ++ (k, y) :: back).
Proof.
  induction front as [|[k' v] front IH]; cbn [app setitem].
  - now rewrite String.eqb_refl.
  - cbn [contains existsb fst]. intros H. apply orb_false_elim in H as [Hk Hrest].
    rewrite Hk. now rewrite (IH Hrest).
Qed.

Lemma setitem_other_commutes (k k' : string) (x z : Value) (front back : Payload) :
  String.eqb k' k = false ->
  contains String.eqb k front = false ->
  exists front' back',
    contains String.eqb k front' = false /\
    forall y, setitem String.eqb k' z (front ++ (k, y) :: back)
              = front' ++ (k, y) :: back'.
Proof.
  intros Hne. revert x. induction front as [|[k0 v] front IH]; intros x Hfront.
  - exists [], (setitem String.eqb k' z back). split; [reflexivity|].
    intros y. cbn [app setitem]. now rewrite Hne.
  - cbn [contains existsb fst] in Hfront.
    apply orb_false_elim in Hfront as [Hk0 Hrest].
    destruct (IH x Hrest) as (front' & back' & Hfront' & Heq).
    destruct (String.eqb k' k0) eqn:E.
    + exists ((k0, z) :: front), back. split.
      * cbn [contains existsb fst]. now rewrite Hk0.
      * intros y. cbn [app setitem]. now rewrite E.
    + exists ((k0, v) :: front'), back'. split.
      * cbn [contains existsb fst]. now rewrite Hk0.
      * intros y. cbn [app setitem]. rewrite E. now rewrite Heq.
Qed.

Lemma unpack_forgets (k : string) (data : Payload) :
  contains String.eqb k data = true ->
  forall (front back : Payload) (x y : Value),
    contains String.eqb k front = false ->
    unpack data (front ++ (k, x) :: back) = unpack data (front ++ (k, y) :: back).
Proof.
  induction data as [|[k' z] data IH]; [discriminate|].
  intros Hin front back x y Hfront. cbn [fold_left fst snd].
  destruct (String.eqb k' k) eqn:E.
  - apply String.eqb_eq in E. subst k'.
    now rewrite (setitem_forgets k x y z front back Hfront).
  - cbn [contains existsb fst] in Hin. rewrite String.eqb_sym, E in Hin.
    cbn [orb] in Hin.
    destruct (setitem_other_commutes k k' x z front back E Hfront)
      as (front' & back' & Hfront' & Heq).
    rewrite (Heq x), (Heq y). now apply IH.
Qed.

(** X23.  [upload_document] and [create_check] build their payload as
    [{'applicant_id': applicant_id, **data}], so a key [applicant_id] in the
    data replaces the argument: when the data has that key, the call is the
    same for every [applicant_id] argument.  Only when the data has no such
    key does the payload carry the argument; the other keys of the data are
    always in the payload, which is never empty. *)
Theorem applicant_id_of_the_data_wins
        (data : Payload) (applicant_id : Value) :
  (contains String.eqb "applicant_id" data = true ->
   forall other : Value,
     with_applicant_id applicant_id data = with_applicant_id other data /\
     upload_document _IMPORTS_AVAILABLE json_dumps json_loads sha256_hexdigest
       applicant_id data
     = upload_document _IMPORTS_AVAILABLE json_dumps json_loads sha256_hexdigest
         other data /\
     create_check _IMPORTS_AVAILABLE json_dumps json_loads sha256_hexdigest
       applicant_id data
     = create_check _IMPORTS_AVAILABLE json_dumps json_loads sha256_hexdigest
         other data) /\
  (contains String.eqb "applicant_id" data = false ->
   getitem String.eqb "applicant_id" (with_applicant_id applicant_id data)
   = Some applicant_id) /\
  (forall k, contains String.eqb k data = true ->
             contains String.eqb k (with_applicant_id applicant_id data) = true) /\
  truthy (with_applicant_id applicant_id data) = true.
Proof.
  split; [|split; [|split]].
  - intros Hin other.
    assert (Heq : with_applicant_id applicant_id data = with_applicant_id other data)
      by exact (unpack_forgets "applicant_id" data Hin [] [] applicant_id other
                  eq_refl).
    split; [exact Heq|]. unfold upload_document, create_check.
    now rewrite Heq.
  - intros Hnew. unfold with_applicant_id.
    rewrite (unpack_getitem_absent data _ "applicant_id" Hnew). reflexivity.
  - intros k Hin. unfold with_applicant_id. rewrite unpack_contains, Hin.
    apply orb_true_r.
  - assert (Hc : contains String.eqb "applicant_id"
                   (with_applicant_id applicant_id data) = true)
      by (unfold with_applicant_id; now rewrite unpack_contains).
    destruct (with_applicant_id applicant_id data); [discriminate|reflexivity].
Qed.

End Applicant.

(** ** The client without the imports: recovery *)

Section DegradedRecovery.

Variable Data : Type.
Variable truthy : Data -> bool.
Variable json_dumps : bool -> Data -> Result string.
Variable json_loads : string -> option Data.
Variable sha256_hexdigest : string -> string.

Import ExternalAPIClient.

Local Abbreviation client := (ExternalAPIClient.t Data).
Local Abbreviation call :=
  (call_api false truthy json_dumps json_loads sha256_hexdigest).
Local Abbreviation serializable :=
  (fun payload : option Data =>
     forall d, payload = Some d -> truthy d = true ->
               (exists t, json_dumps true d = inr t) /\
               (exists t, json_dumps false d = inr t)).




End DegradedRecovery.


(** ** The claim on answered calls *)

Section AnsweredCall.

Variable Data : Type.
Variable truthy : Data -> bool.
Variable json_dumps : bool -> Data -> Result string.
Variable json_loads : string -> option Data.
Variable sha256_hexdigest : string -> string.

Import ExternalAPIClient.

Local Abbreviation client := (ExternalAPIClient.t Data).



End AnsweredCall.


